(** * Xray-core, proxy/vless/database: the user cache, its LRU index and the
    validator that composes the cache with a persistent store.

    The development follows the Go packages:
    - [LRU]       : proxy/vless/database/cache/lru.go
    - [CacheM]    : proxy/vless/database/cache (type [Cache])
    - [Storage]   : the [UserStorage] interface of storage.go
    - [Validator] : proxy/vless/database/validator.go
    - [Mock]      : the store of validator_test.go

    Go pointers to LRU nodes are addresses into an explicit heap; maps are
    stdpp's [gmap]; the clock is an explicit argument [now] of every
    operation that reads [time.Now()]. *)

From Stdlib Require Import ZArith Lia.
From stdpp Require Import gmap strings list fin_maps pretty.

Local Open Scope Z_scope.

(** ** Shared data: user records *)

(** Modelled from the spec: package uuid is not among the sources.  A UUID
    is a 128-bit identifier "canonically rendered as a string"; the model
    keeps an identifier as that canonical rendering, so that [uuid_String]
    (Go's [(&id).String()]) is the identity and is injective. *)
Definition UUID : Type := string.
Definition uuid_String (id : UUID) : string := id.

(** [protocol.Account] is an interface; the type assertion of an account
    to a VLESS [MemoryAccount] succeeds on the first constructor only.
    [NoAccount] is the nil interface value. *)
Inductive Account : Type :=
| VlessAccount (ID : UUID) (Flow Encryption : string)
| OtherAccount (kind : string)
| NoAccount.

(** [protocol.MemoryUser]. *)
Record MemoryUser : Type := mkUser {
  Account_ : Account;
  Email : string;
  Level : Z
}.

(** The type assertion to a VLESS [MemoryAccount] followed by
    [account.ID.UUID()] and [String()]: the rendered identifier when [ok]. *)
Definition vless_id (a : Account) : option string :=
  match a with
  | VlessAccount i _ _ => Some (uuid_String i)
  | _ => None
  end.

Global Instance Account_eq_dec : EqDecision Account.
Proof. solve_decision. Defined.
Global Instance MemoryUser_eq_dec : EqDecision MemoryUser.
Proof. solve_decision. Defined.

(** Go's [int32(x)] conversion of an [int]: truncation to 32 bits, signed. *)
Definition int32 (x : Z) : Z := (x + 2 ^ 31) mod 2 ^ 32 - 2 ^ 31.

(** ** The LRU index (lru.go) *)
Module LRU.

(** A pointer to an [LRUNode]: [None] is nil, [Some p] is the address [p]
    of the heap. *)
Abbreviation ptr := nat (only parsing).

Record LRUNode : Type := mkNode {
  key : string;
  prev : option ptr;
  next : option ptr
}.

(** Allocated nodes, by address.  [&LRUNode{...}] allocates at the end;
    nothing is ever freed (Go is garbage collected). *)
Abbreviation Heap := (list LRUNode) (only parsing).

Record LRUManager : Type := mkLRU {
  head : option ptr;
  tail : option ptr;
  nodeMap : gmap string ptr
}.

(** The state the methods of the [LRUManager] pointer act on. *)
Abbreviation St := (list LRUNode * LRUManager)%type (only parsing).

Definition NewLRUManager : LRUManager :=
  {| head := None; tail := None; nodeMap := ∅ |}.

(** Field assignments [p.prev = v] and [p.next = v]. *)
Definition set_prev (v : option ptr) (p : ptr) (h : Heap) : Heap :=
  alter (λ nd, {| key := key nd; prev := v; next := next nd |}) p h.
Definition set_next (v : option ptr) (p : ptr) (h : Heap) : Heap :=
  alter (λ nd, {| key := key nd; prev := prev nd; next := v |}) p h.

(** Field reads [p.prev], [p.next] and [p.key]. *)
Definition get_prev (h : Heap) (p : ptr) : option ptr := h !! p ≫= prev.
Definition get_next (h : Heap) (p : ptr) : option ptr := h !! p ≫= next.
Definition get_key (h : Heap) (p : ptr) : option string := key <$> h !! p.

(** [LRUManager.Add] *)
Definition Add (k : string) (s : St) : St * ptr :=
  let '(h, lru) := s in
  let node := length h in
  let h0 := h ++ [ {| key := k; prev := None; next := None |} ] in
  match head lru with
  | None =>
      (h0, {| head := Some node; tail := Some node;
              nodeMap := <[k := node]> (nodeMap lru) |}, node)
  | Some hd =>
      let h1 := set_next (Some hd) node h0 in
      let h2 := set_prev (Some node) hd h1 in
      (h2, {| head := Some node; tail := tail lru;
              nodeMap := <[k := node]> (nodeMap lru) |}, node)
  end.

(** [LRUManager.Remove]; a nil node is tolerated.  The key of a node is
    never assigned after allocation, so it is read from the heap the
    call started with. *)
Definition Remove (node : option ptr) (s : St) : St :=
  match node with
  | None => s
  | Some n =>
      let '(h, lru) := s in
      let hd := if decide (Some n = head lru) then get_next h n else head lru in
      let tl := if decide (Some n = tail lru) then get_prev h n else tail lru in
      let h1 := match get_prev h n with
                | Some p => set_next (get_next h n) p h
                | None => h
                end in
      let h2 := match get_next h1 n with
                | Some q => set_prev (get_prev h1 n) q h1
                | None => h1
                end in
      (h2, {| head := hd; tail := tl;
              nodeMap := match get_key h n with
                         | Some k => delete k (nodeMap lru)
                         | None => nodeMap lru
                         end |})
  end.

(** [LRUManager.MoveToFront].  The argument is a non-nil node, as at both
    call sites in the cache (a nil argument with a non-empty list
    dereferences nil in Go). *)
Definition MoveToFront (n : ptr) (s : St) : St :=
  if decide (head (snd s) = Some n) then s
  else
    let '(h, lru) := Remove (Some n) s in
    let h1 := set_prev None n h in
    let h2 := set_next (head lru) n h1 in
    let h3 := match head lru with
              | Some hd => set_prev (Some n) hd h2
              | None => h2
              end in
    (h3, {| head := Some n; tail := tail lru; nodeMap := nodeMap lru |}).

(** [LRUManager.RemoveTail] *)
Definition RemoveTail (s : St) : St :=
  match tail (snd s) with
  | Some t => Remove (Some t) s
  | None => s
  end.

(** [LRUManager.GetNode] *)
Definition GetNode (k : string) (lru : LRUManager) : option ptr :=
  nodeMap lru !! k.

(** The nodes linked from [start] by following [next], at most [fuel]
    steps: what a traversal of the recency list from the head sees. *)
Fixpoint walk (fuel : nat) (h : Heap) (start : option ptr) : list ptr :=
  match fuel, start with
  | S f, Some p => p :: walk f h (get_next h p)
  | _, _ => []
  end.

Definition linked (s : St) : list ptr :=
  walk (length (fst s)) (fst s) (head (snd s)).

Definition linked_keys (s : St) : list string :=
  omap (get_key (fst s)) (linked s).

End LRU.

(** ** Go slices and errors *)

(** A slice of records: [None] is the nil slice, [Some l] a non-nil slice
    holding [l] (possibly of length zero, as [make] returns). *)
Definition slice (A : Type) : Type := option (list A).

Definition elems {A} (s : slice A) : list A := default [] s.

(** Go's [len(s)]. *)
Definition len {A} (s : slice A) : Z := Z.of_nat (length (elems s)).

(** Go's [append(s, xs...)]: appending nothing to nil stays nil. *)
Definition append {A} (s xs : slice A) : slice A :=
  match s, elems xs with
  | None, [] => None
  | _, l => Some (elems s ++ l)
  end.

(** Modelled from the spec: the error values are built by packages that are
    not among the sources.  The classes are those of the spec's taxonomy:
    a validation failure, and the four classes a store reports. *)
Inductive error : Type :=
| ValidationError (msg : string)
| NotFound (msg : string)
| ConnectionError (msg : string)
| DuplicateKey (msg : string)
| QueryError (msg : string).

Global Instance error_eq_dec : EqDecision error.
Proof. solve_decision. Defined.

(** ** The cache (package cache, type Cache) *)
Module CacheM.

(** The cache entry, Go's [User] struct.  An entry is never assigned
    after [Set] has built it, so the two maps hold it by value; its
    [lruNode], allocated by that [Set], identifies the object. *)
Record User : Type := mkEntry {
  User_ : MemoryUser;
  ExpiresAt : Z;
  lruNode : option LRU.ptr
}.

(** Instants and durations are integers (nanoseconds); the read-write
    lock is not modelled: every operation runs under it from start to
    end, so operations are atomic steps. *)
Record Cache : Type := mkCache {
  mem : LRU.Heap;
  usersByID : gmap string User;
  usersByEmail : gmap string User;
  lru : LRU.LRUManager;
  ttl : Z;
  maxSize : Z
}.

Definition NewCache (ttl maxSize : Z) : Cache :=
  {| mem := []; usersByID := ∅; usersByEmail := ∅;
     lru := LRU.NewLRUManager; ttl := ttl; maxSize := maxSize |}.

(** [time.Now().After(user.ExpiresAt)] with [time.Now() = now]. *)
Definition After (now expiresAt : Z) : bool := expiresAt <? now.

(** [Cache.Get]: the pair [(nil, false)] is [None], [(u, true)] is
    [Some u]. *)
Definition Get (id : string) (now : Z) (c : Cache) : Cache * option MemoryUser :=
  match usersByID c !! id with
  | None => (c, None)
  | Some user =>
      if After now (ExpiresAt user) then
        let '(h, l) := match lruNode user with
                       | Some n => LRU.Remove (Some n) (mem c, lru c)
                       | None => (mem c, lru c)
                       end in
        ({| mem := h;
            usersByID := delete id (usersByID c);
            usersByEmail := delete (Email (User_ user)) (usersByEmail c);
            lru := l; ttl := ttl c; maxSize := maxSize c |}, None)
      else
        let '(h, l) := match lruNode user with
                       | Some n => LRU.MoveToFront n (mem c, lru c)
                       | None => (mem c, lru c)
                       end in
        ({| mem := h; usersByID := usersByID c;
            usersByEmail := usersByEmail c;
            lru := l; ttl := ttl c; maxSize := maxSize c |},
         Some (User_ user))
  end.

(** [Cache.GetByEmail] *)
Definition GetByEmail (email : string) (now : Z) (c : Cache)
  : Cache * option MemoryUser :=
  match usersByEmail c !! email with
  | None => (c, None)
  | Some user =>
      match vless_id (Account_ (User_ user)) with
      | None => (c, None)
      | Some uuid =>
          if After now (ExpiresAt user) then
            let '(h, l) := match LRU.GetNode uuid (lru c) with
                           | Some node => LRU.Remove (Some node) (mem c, lru c)
                           | None => (mem c, lru c)
                           end in
            ({| mem := h;
                usersByID := delete uuid (usersByID c);
                usersByEmail := delete email (usersByEmail c);
                lru := l; ttl := ttl c; maxSize := maxSize c |}, None)
          else
            let '(h, l) := match LRU.GetNode uuid (lru c) with
                           | Some node => LRU.MoveToFront node (mem c, lru c)
                           | None => (mem c, lru c)
                           end in
            ({| mem := h; usersByID := usersByID c;
                usersByEmail := usersByEmail c;
                lru := l; ttl := ttl c; maxSize := maxSize c |},
             Some (User_ user))
      end
  end.

(** The capacity check that opens [Cache.Set]: when the cache is at or
    over its maximum size, the entry named by the key of the LRU tail is
    dropped from both maps and the tail is unlinked. *)
Definition evict (c : Cache) : Cache :=
  if (0 <? maxSize c) && (maxSize c <=? int32 (Z.of_nat (size (usersByID c))))
  then
    match LRU.tail (lru c) with
    | None => c
    | Some t =>
        match LRU.get_key (mem c) t with
        | None => c
        | Some id' =>
            match usersByID c !! id' with
            | None => c
            | Some user' =>
                let '(h, l) := LRU.RemoveTail (mem c, lru c) in
                {| mem := h;
                   usersByID := delete id' (usersByID c);
                   usersByEmail := delete (Email (User_ user')) (usersByEmail c);
                   lru := l; ttl := ttl c; maxSize := maxSize c |}
            end
        end
    end
  else c.

(** [Cache.Set]: [evict], then the insertion.  The returned error is
    always nil and is left out. *)
Definition Set_ (id : string) (user : MemoryUser) (now : Z) (c : Cache) : Cache :=
  let c1 := evict c in
  let expiresAt := now + ttl c1 in
  let '(h, l, node) := LRU.Add id (mem c1, lru c1) in
  let newUser := {| User_ := user; ExpiresAt := expiresAt; lruNode := Some node |} in
  {| mem := h;
     usersByID := <[id := newUser]> (usersByID c1);
     usersByEmail := <[Email user := newUser]> (usersByEmail c1);
     lru := l; ttl := ttl c1; maxSize := maxSize c1 |}.

(** [Cache.Delete] *)
Definition Delete (id : string) (c : Cache) : Cache :=
  match usersByID c !! id with
  | None => c
  | Some user =>
      let '(h, l) := match lruNode user with
                     | Some n => LRU.Remove (Some n) (mem c, lru c)
                     | None => (mem c, lru c)
                     end in
      {| mem := h;
         usersByID := delete id (usersByID c);
         usersByEmail := delete (Email (User_ user)) (usersByEmail c);
         lru := l; ttl := ttl c; maxSize := maxSize c |}
  end.

(** [Cache.DeleteByEmail].  The fallback loop ranges over the map in an
    order Go leaves unspecified; the model ranges in the order of
    [map_to_list] and, like the loop, deletes the first match only. *)
Definition DeleteByEmail (email : string) (c : Cache) : Cache :=
  match usersByEmail c !! email with
  | None => c
  | Some user =>
      let byID :=
        match vless_id (Account_ (User_ user)) with
        | Some uuid => delete uuid (usersByID c)
        | None =>
            match list_find (λ kv : string * User, Email (User_ (snd kv)) = email)
                            (map_to_list (usersByID c)) with
            | Some (_, (id, _)) => delete id (usersByID c)
            | None => usersByID c
            end
        end in
      let '(h, l) := match lruNode user with
                     | Some n => LRU.Remove (Some n) (mem c, lru c)
                     | None => (mem c, lru c)
                     end in
      {| mem := h; usersByID := byID;
         usersByEmail := delete email (usersByEmail c);
         lru := l; ttl := ttl c; maxSize := maxSize c |}
  end.

(** The entries a range over [usersByID] finds not expired. *)
Definition live (now : Z) (c : Cache) : list (string * User) :=
  filter (λ kv : string * User, After now (ExpiresAt (snd kv)) = false)
         (map_to_list (usersByID c)).

(** [Cache.GetAll]: the slice stays nil when nothing is appended. *)
Definition GetAll (now : Z) (c : Cache) : slice MemoryUser :=
  match live now c with
  | [] => None
  | l => Some ((λ kv : string * User, User_ (snd kv)) <$> l)
  end.

(** [Cache.GetCount] *)
Definition GetCount (now : Z) (c : Cache) : Z :=
  Z.of_nat (length (live now c)).

(** [Cache.Clear] *)
Definition Clear (c : Cache) : Cache :=
  {| mem := mem c; usersByID := ∅; usersByEmail := ∅;
     lru := LRU.NewLRUManager; ttl := ttl c; maxSize := maxSize c |}.

(** The recency list of a cache, as keys from the head to the tail. *)
Definition recency (c : Cache) : list string :=
  LRU.linked_keys (mem c, lru c).

End CacheM.

(** ** The validator (package database) *)

(** The [UserStorage] interface of storage.go.  A store has a state of type
    [S]; every method returns the state it leaves with its Go results (a
    record or nil as an [option], an error or nil as an [option]).  The
    context argument is left out. *)
Module Storage.

Class UserStorage (S : Type) : Type := {
  GetUserByID : UUID → S → S * (option MemoryUser * option error);
  GetUserByEmail : string → S → S * (option MemoryUser * option error);
  GetUsers : Z → Z → S → S * (slice MemoryUser * option error);
  AddUser : MemoryUser → S → S * option error;
  DelUser : string → S → S * option error;
  GetCount : S → S * (Z * option error);
  Close : S → S * option error
}.

End Storage.

Module Validator.
Import Storage.

(** Modelled from the spec: [CacheSettings] is generated code that is not
    among the sources; it carries "ttl_seconds" and "max_size". *)
Record CacheSettings : Type := mkSettings { Ttl : Z; MaxSize : Z }.

Section WithStorage.
Context {S : Type} `{UserStorage S}.

Record Validator : Type := mkValidator {
  storage : S;
  cache : option CacheM.Cache
}.

(** [time.Second] in nanoseconds. *)
Definition Second : Z := 1000000000.

(** [NewValidator]; it never fails. *)
Definition NewValidator (st : S) (cacheSettings : option CacheSettings) : Validator :=
  {| storage := st;
     cache := (λ cs, CacheM.NewCache (Ttl cs * Second) (MaxSize cs)) <$> cacheSettings |}.

(** [Validator.Add] *)
Definition Add (user : MemoryUser) (now : Z) (v : Validator)
  : Validator * option error :=
  match vless_id (Account_ user) with
  | None => (v, Some (ValidationError "not a VLESS user"))
  | Some uuid =>
      let '(st, err) := AddUser user (storage v) in
      match err with
      | Some e => ({| storage := st; cache := cache v |}, Some e)
      | None =>
          ({| storage := st;
              cache := CacheM.Set_ uuid user now <$> cache v |}, None)
      end
  end.

(** The cache lookup that opens [Get] and [GetByEmail]: the cache it
    leaves and the hit, if any. *)
Definition lookup_cache (f : CacheM.Cache → CacheM.Cache * option MemoryUser)
           (c : option CacheM.Cache) : option CacheM.Cache * option MemoryUser :=
  match c with
  | None => (None, None)
  | Some c0 => let '(c1, r) := f c0 in (Some c1, r)
  end.

(** [Validator.Get]; [now] is the clock at the cache lookup, [now'] at
    the backfill. *)
Definition Get (id : UUID) (now now' : Z) (v : Validator)
  : Validator * option MemoryUser :=
  let uuid := uuid_String id in
  match lookup_cache (CacheM.Get uuid now) (cache v) with
  | (c1, Some user) => ({| storage := storage v; cache := c1 |}, Some user)
  | (c1, None) =>
      let '(st, (user, err)) := GetUserByID id (storage v) in
      match err with
      | Some _ => ({| storage := st; cache := c1 |}, None)
      | None =>
          match user with
          | Some u =>
              ({| storage := st; cache := CacheM.Set_ uuid u now' <$> c1 |}, Some u)
          | None => ({| storage := st; cache := c1 |}, None)
          end
      end
  end.

(** [Validator.GetByEmail] *)
Definition GetByEmail (email : string) (now now' : Z) (v : Validator)
  : Validator * option MemoryUser :=
  match lookup_cache (CacheM.GetByEmail email now) (cache v) with
  | (c1, Some user) => ({| storage := storage v; cache := c1 |}, Some user)
  | (c1, None) =>
      let '(st, (user, err)) := GetUserByEmail email (storage v) in
      match err with
      | Some _ => ({| storage := st; cache := c1 |}, None)
      | None =>
          match user with
          | Some u =>
              match vless_id (Account_ u) with
              | Some uuid =>
                  ({| storage := st; cache := CacheM.Set_ uuid u now' <$> c1 |},
                   Some u)
              | None => ({| storage := st; cache := c1 |}, Some u)
              end
          | None => ({| storage := st; cache := c1 |}, None)
          end
      end
  end.

(** Go's [int] (64 bits): the wrap-around of [offset += limit]. *)
Definition int (x : Z) : Z := (x + 2 ^ 63) mod 2 ^ 64 - 2 ^ 63.

(** The [for] loop of [Validator.GetAll] without a cache; [fuel] bounds
    the number of pages requested and [None] is "out of fuel". *)
Fixpoint GetAll_loop (fuel : nat) (st : S) (offset limit : Z)
         (allUsers : slice MemoryUser) : option (S * slice MemoryUser) :=
  match fuel with
  | O => None
  | Datatypes.S fuel' =>
      let '(st', (users, err)) := GetUsers offset limit st in
      match err with
      | Some _ => Some (st', None)
      | None =>
          if len users =? 0 then Some (st', allUsers)
          else
            let allUsers' := append allUsers users in
            if len users <? limit then Some (st', allUsers')
            else GetAll_loop fuel' st' (int (offset + limit)) limit allUsers'
      end
  end.

(** [Validator.GetAll] *)
Definition GetAll (fuel : nat) (now : Z) (v : Validator)
  : option (Validator * slice MemoryUser) :=
  match cache v with
  | Some c => Some (v, CacheM.GetAll now c)
  | None =>
      match GetAll_loop fuel (storage v) 0 100 None with
      | Some (st, r) => Some ({| storage := st; cache := None |}, r)
      | None => None
      end
  end.

(** [Validator.Del] *)
Definition Del (email : string) (v : Validator) : Validator * option error :=
  let '(st, err) := DelUser email (storage v) in
  match err with
  | Some e => ({| storage := st; cache := cache v |}, Some e)
  | None =>
      ({| storage := st; cache := CacheM.DeleteByEmail email <$> cache v |}, None)
  end.

(** [Validator.GetCount] *)
Definition GetCount (now : Z) (v : Validator) : Validator * Z :=
  match cache v with
  | Some c => (v, CacheM.GetCount now c)
  | None =>
      let '(st, (count, err)) := Storage.GetCount (storage v) in
      match err with
      | Some _ => ({| storage := st; cache := None |}, 0)
      | None => ({| storage := st; cache := None |}, count)
      end
  end.

(** [Validator.Close]: every [UserStorage] has [Close], so the assertion
    to [io.Closer] succeeds. *)
Definition Close (v : Validator) : Validator * option error :=
  let '(st, err) := Storage.Close (storage v) in
  ({| storage := st; cache := CacheM.Clear <$> cache v |}, err).

End WithStorage.
Global Arguments Validator S : clear implicits.

End Validator.

(** ** Stores used to exercise the validator *)

(** [MockUserStorage] of validator_test.go: a map from the rendered
    identifier to the record.  Where the Go code ranges over the map (an
    order Go leaves unspecified) the model ranges in the order of
    [map_to_list]. *)
Module Mock.
Import Storage.

Record MockUserStorage : Type := mkMock { users : gmap string MemoryUser }.

Definition NewMockUserStorage : MockUserStorage := {| users := ∅ |}.

Definition AddUser (user : MemoryUser) (m : MockUserStorage)
  : MockUserStorage * option error :=
  match vless_id (Account_ user) with
  | Some id => ({| users := <[id := user]> (users m) |}, None)
  | None => (m, None)
  end.

Definition GetUserByID (id : UUID) (m : MockUserStorage)
  : MockUserStorage * (option MemoryUser * option error) :=
  (m, (users m !! uuid_String id, None)).

Definition GetUserByEmail (email : string) (m : MockUserStorage)
  : MockUserStorage * (option MemoryUser * option error) :=
  (m, (snd <$> (snd <$> list_find (λ kv : string * MemoryUser, Email (snd kv) = email)
                                    (map_to_list (users m))), None)).

(** The loop appends the records at positions [offset], [offset + 1], ...
    until [limit] of them are collected; nothing is appended when
    [limit <= 0]. *)
Definition GetUsers (offset limit : Z) (m : MockUserStorage)
  : MockUserStorage * (slice MemoryUser * option error) :=
  match take (Z.to_nat limit) (drop (Z.to_nat offset) (snd <$> map_to_list (users m))) with
  | [] => (m, (None, None))
  | l => (m, (Some l, None))
  end.

Definition DelUser (email : string) (m : MockUserStorage)
  : MockUserStorage * option error :=
  match list_find (λ kv : string * MemoryUser, Email (snd kv) = email)
                  (map_to_list (users m)) with
  | Some (_, (id, _)) => ({| users := delete id (users m) |}, None)
  | None => (m, None)
  end.

Definition GetCount (m : MockUserStorage) : MockUserStorage * (Z * option error) :=
  (m, (Z.of_nat (size (users m)), None)).

Definition Close (m : MockUserStorage) : MockUserStorage * option error :=
  (m, None).

Global Instance Mock_storage : UserStorage MockUserStorage := {|
  Storage.GetUserByID := GetUserByID;
  Storage.GetUserByEmail := GetUserByEmail;
  Storage.GetUsers := GetUsers;
  Storage.AddUser := AddUser;
  Storage.DelUser := DelUser;
  Storage.GetCount := GetCount;
  Storage.Close := Close
|}.

End Mock.

(** A store whose backend fails: every operation reports the error it
    holds and no result.  It stands for any [UserStorage] at a moment when
    its backend call fails, as the SQL store does when the driver reports a
    lost connection or a duplicate key. *)
Module Failing.
Import Storage.

Record FailingStorage : Type := mkFailing { failure : error }.

Global Instance Failing_storage : UserStorage FailingStorage := {|
  Storage.GetUserByID := λ _ s, (s, (None, Some (failure s)));
  Storage.GetUserByEmail := λ _ s, (s, (None, Some (failure s)));
  Storage.GetUsers := λ _ _ s, (s, (None, Some (failure s)));
  Storage.AddUser := λ _ s, (s, Some (failure s));
  Storage.DelUser := λ _ s, (s, Some (failure s));
  Storage.GetCount := λ s, (s, (0, Some (failure s)));
  Storage.Close := λ s, (s, Some (failure s))
|}.

End Failing.

(** ** Paging through a store *)

(** The page of a sequence of records that starts at [offset] and holds at
    most [limit] records. *)
Definition page (db : list MemoryUser) (offset limit : Z) : list MemoryUser :=
  take (Z.to_nat limit) (drop (Z.to_nat offset) db).

(** [paging holds]: the store answers every page request without error,
    with the requested page of the sequence [holds st] it holds, and keeps
    holding that sequence. *)
Definition paging {S : Type} `{Storage.UserStorage S}
           (holds : S → list MemoryUser) : Prop :=
  ∀ st offset limit, 0 ≤ offset → 0 ≤ limit →
    ∃ st' users,
      Storage.GetUsers offset limit st = (st', (users, None)) ∧
      elems users = page (holds st) offset limit ∧
      holds st' = holds st.

(** [full_pages limit st offset acc st' offset' acc']: starting with the
    store in state [st], the next request at [offset] and [acc] collected,
    a number of requests (possibly none) each answered without error by a
    full page lead to the store in state [st'], the next request at
    [offset'] and [acc'] collected. *)
Inductive full_pages {S : Type} `{Storage.UserStorage S} (limit : Z)
  : S → Z → slice MemoryUser → S → Z → slice MemoryUser → Prop :=
| full_pages_none st offset acc :
    full_pages limit st offset acc st offset acc
| full_pages_next st offset acc st1 users st' offset' acc' :
    Storage.GetUsers offset limit st = (st1, (users, None)) →
    len users ≠ 0 → limit ≤ len users →
    full_pages limit st1 (Validator.int (offset + limit)) (append acc users)
               st' offset' acc' →
    full_pages limit st offset acc st' offset' acc'.

(** ** Runs of the cache and the reference recency list *)

(** The operations of a run: [Set(id, user)] and [Get(id)], each with the
    clock reading it meets. *)
Inductive op : Type :=
| OpSet (id : string) (user : MemoryUser) (now : Z)
| OpGet (id : string) (now : Z).

Definition step (o : op) (c : CacheM.Cache) : CacheM.Cache :=
  match o with
  | OpSet id user now => CacheM.Set_ id user now c
  | OpGet id now => fst (CacheM.Get id now c)
  end.

(** The operations are run from left to right. *)
Definition run (ops : list op) (c : CacheM.Cache) : CacheM.Cache :=
  foldl (λ c o, step o c) c ops.


(** The reference LRU list, in the spec's words: the resident identifiers
    with their expiry instants, most recently touched first.  [Set] at or
    over the maximum size [n] (zero: unbounded) first drops the least
    recently touched entry, the last of the list, then puts the new entry
    in front; [Get] of a resident entry moves it to the front, or drops it
    when its expiry instant is before the current time. *)
Definition ref_step (n ttl : Z) (o : op) (st : list (string * Z)) : list (string * Z) :=
  match o with
  | OpSet id _ now =>
      (id, now + ttl) ::
      (if (0 <? n) && (n <=? Z.of_nat (length st)) then removelast st else st)
  | OpGet id now =>
      match list_find (λ kv : string * Z, fst kv = id) st with
      | Some (_, (_, expiry)) =>
          if expiry <? now
          then filter (λ kv : string * Z, fst kv ≠ id) st
          else (id, expiry) :: filter (λ kv : string * Z, fst kv ≠ id) st
      | None => st
      end
  end.

Definition ref_run (n ttl : Z) (ops : list op) (st : list (string * Z))
  : list (string * Z) :=
  foldl (λ st o, ref_step n ttl o st) st ops.

(** The records set in a run are distinct: every [Set] is for an
    identifier that is not resident when it is set. *)
Fixpoint fresh_sets (n ttl : Z) (ops : list op) (st : list (string * Z)) : Prop :=
  match ops with
  | [] => True
  | o :: ops' =>
      match o with
      | OpSet id _ _ => id ∉ fst <$> st
      | OpGet _ _ => True
      end ∧ fresh_sets n ttl ops' (ref_step n ttl o st)
  end.

(** ** Sample data *)

(** The [i]-th sample record: a VLESS account whose identifier is rendered
    "id-i", with the alias "useri@example.com". *)
Definition sample_user (i : nat) : MemoryUser :=
  mkUser (VlessAccount ("id-" +:+ pretty i) "" "none")
         ("user" +:+ pretty i +:+ "@example.com") 0.

(** The mock store after the first [n] sample records were added. *)
Definition sample_store (n : nat) : Mock.MockUserStorage :=
  foldr (λ u m, fst (Mock.AddUser u m)) Mock.NewMockUserStorage
        (sample_user <$> seq 0 n).

(** ** Representation predicates *)

(** [or_else o d]: the pointer [o] when set, [d] otherwise. *)
Definition or_else (o d : option LRU.ptr) : option LRU.ptr :=
  match o with Some p => Some p | None => d end.

(** The node at address [p] has the given [prev] and [next] fields. *)
Definition node_at (h : LRU.Heap) (p : LRU.ptr) (pv nx : option LRU.ptr) : Prop :=
  ∃ k, h !! p = Some (LRU.mkNode k pv nx).

(** [dseg h pv l nx]: the addresses [l] form a doubly-linked segment of the
    heap [h], entered from [pv] and left to [nx]. *)
Fixpoint dseg (h : LRU.Heap) (pv : option LRU.ptr) (l : list LRU.ptr)
         (nx : option LRU.ptr) : Prop :=
  match l with
  | [] => True
  | p :: l' => node_at h p pv (or_else (head l') nx) ∧ dseg h (Some p) l' nx
  end.

(** [lru_list h m l]: the recency list of the manager [m] is exactly [l],
    from the head (most recently touched) to the tail: a nil-terminated,
    acyclic doubly-linked list whose ends are [head] and [tail]. *)
Definition lru_list (h : LRU.Heap) (m : LRU.LRUManager) (l : list LRU.ptr) : Prop :=
  dseg h None l None ∧ NoDup l ∧ LRU.head m = head l ∧ LRU.tail m = last l.

(** The lookup map and the list agree: a key is mapped to a node exactly
    when that node is linked and carries the key. *)
Definition map_agrees (h : LRU.Heap) (m : LRU.LRUManager) (l : list LRU.ptr) : Prop :=
  ∀ k p, LRU.nodeMap m !! k = Some p ↔ p ∈ l ∧ LRU.get_key h p = Some k.

(** [Inv c st]: the cache [c] holds exactly the entries of the reference
    list [st], and its recency list links their nodes in that order: the
    node at position [i] carries the identifier at position [i], and the
    entry under that identifier has that node and that expiry instant.
    The maximum size fits [int32] and, when positive, bounds the list. *)
Definition Inv (c : CacheM.Cache) (st : list (string * Z)) : Prop :=
  ∃ l : list (nat * (string * Z)),
    st = snd <$> l ∧
    lru_list (CacheM.mem c) (CacheM.lru c) (fst <$> l) ∧
    (∀ p k t, (p, (k, t)) ∈ l →
       LRU.get_key (CacheM.mem c) p = Some k ∧
       ∃ u, CacheM.usersByID c !! k = Some (CacheM.mkEntry u t (Some p))) ∧
    NoDup (fst <$> st) ∧
    (∀ k, is_Some (CacheM.usersByID c !! k) → k ∈ fst <$> st) ∧
    CacheM.maxSize c < 2 ^ 31 ∧
    (0 < CacheM.maxSize c → Z.of_nat (length st) ≤ CacheM.maxSize c).

(** ** Runs of the LRU index *)

(** A client of the index that holds keys, not nodes: it adds a key, and
    touches or removes the node that [GetNode] finds for a key (as
    [Cache.GetByEmail] does), or removes the tail. *)
Inductive lru_op : Type :=
| LAdd (k : string)
| LTouch (k : string)
| LRemove (k : string)
| LRemoveTail.

(** [GetNode] returns a nil node when the key is not mapped, and [Remove]
    tolerates it; [MoveToFront] is only called on a node that was found. *)
Definition lru_step (o : lru_op) (s : list LRU.LRUNode * LRU.LRUManager)
  : list LRU.LRUNode * LRU.LRUManager :=
  match o with
  | LAdd k => fst (LRU.Add k s)
  | LTouch k =>
      match LRU.GetNode k (snd s) with
      | Some n => LRU.MoveToFront n s
      | None => s
      end
  | LRemove k => LRU.Remove (LRU.GetNode k (snd s)) s
  | LRemoveTail => LRU.RemoveTail s
  end.

Definition lru_run (ops : list lru_op) (s : list LRU.LRUNode * LRU.LRUManager)
  : list LRU.LRUNode * LRU.LRUManager :=
  foldl (λ s o, lru_step o s) s ops.

(** A run that never touches, and adds a key only while it is not mapped. *)
Fixpoint lru_plain (ops : list lru_op) (s : list LRU.LRUNode * LRU.LRUManager)
  : Prop :=
  match ops with
  | [] => True
  | o :: ops' =>
      match o with
      | LAdd k => LRU.GetNode k (snd s) = None
      | LTouch _ => False
      | _ => True
      end ∧ lru_plain ops' (lru_step o s)
  end.

(** Every mapped key leads to a linked node that carries it. *)
Definition map_sound (h : list LRU.LRUNode) (m : LRU.LRUManager) (l : list nat)
  : Prop :=
  ∀ k p, LRU.nodeMap m !! k = Some p → p ∈ l ∧ LRU.get_key h p = Some k.

(** ** The SQL store (sql_storage.go and its drivers) *)
Module SQL.

(** The severity that [AtDebug], [AtWarning] and [AtError] give an error. *)
Inductive Severity : Type := SevDebug | SevWarning | SevError.

(** The error values this code meets: [sql.ErrNoRows], the errors of the
    two drivers with the field the classifiers read, any other error, and
    the errors the store builds itself with [errors.New(...)], an optional
    [Base(err)] and a severity.  The message of a built error is the
    concatenation of the values given to [New]. *)
#[warnings="-register-all"] Inductive goerror : Type :=
| ErrNoRows
| PqError (Code : string)
| MySQLError (Number : Z)
| OtherError (msg : string)
| Xray (message : string) (base : option goerror) (severity : Severity).

(** The two implementations of the [SQLDriver] interface. *)
Inductive SQLDriver : Type := PostgresDriver | MySQLDriver.

(** [IsConnectionError]: the type assertion to the driver's own error type
    fails on every other error. *)
Definition IsConnectionError (d : SQLDriver) (err : goerror) : bool :=
  match d, err with
  | PostgresDriver, PqError c => bool_decide (c ∈ ["08000"; "08003"; "08006"])
  | MySQLDriver, MySQLError n =>
      bool_decide (n ∈ [1042; 1045; 1049; 2002; 2003; 2005; 2006; 2013])
  | _, _ => false
  end.

(** [IsDuplicateKeyError] *)
Definition IsDuplicateKeyError (d : SQLDriver) (err : goerror) : bool :=
  match d, err with
  | PostgresDriver, PqError c => bool_decide (c = "23505")
  | MySQLDriver, MySQLError n => bool_decide (n = 1062)
  | _, _ => false
  end.

(** [GetType] *)
Definition GetType (d : SQLDriver) : string :=
  match d with
  | PostgresDriver => "PostgreSQL"
  | MySQLDriver => "MySQL"
  end.

(** The row of the users table. *)
Record sqlUserModel : Type := mkRow {
  ID : string;
  Email_ : string;
  Flow : string
}.

(** The record and the error of a result pair: one of them exactly is
    nil, a record has a VLESS account with encryption "none" and level
    zero, and an error is one the store built. *)
Definition well_shaped (r : option MemoryUser * option goerror) : Prop :=
  (is_Some (fst r) ↔ snd r = None) ∧
  (∀ u, fst r = Some u →
        ∃ uuid flow, u = {| Account_ := VlessAccount uuid flow "none";
                            Email := Email u; Level := 0 |}) ∧
  (∀ e, snd r = Some e → ∃ msg base sev, e = Xray msg base sev).

(** [uuid.ParseString], of a package that is not among the sources: a
    parameter of the store. *)
Class Parser : Type := ParseString : string → UUID + goerror.

(** The statements the store runs on the database handle, each returning
    the state of the database it leaves and what the statement returns:
    the scanned row or rows, the number of rows affected or counted, and
    the error or nil.  The first argument is the table expression. *)
Class Database (D : Type) : Type := {
  SelectByID : string → string → D → D * (sqlUserModel * option goerror);
  SelectByEmail : string → string → D → D * (sqlUserModel * option goerror);
  SelectPage : string → Z → Z → D → D * (list sqlUserModel * option goerror);
  Insert : string → sqlUserModel → D → D * option goerror;
  DeleteByEmail : string → string → D → D * (Z * option goerror);
  Count : string → D → D * (Z * option goerror);
  CloseDB : D → D * option goerror
}.

(** [SQLDriver.Connect] opens the connection with the libraries of the
    database drivers and pings it; it returns the handle or the error of
    the driver.  A parameter of the store. *)
Class Connector (D : Type) : Type :=
  Connect : SQLDriver → string → Z → D + goerror.

Section WithDatabase.
Context {D : Type} `{Database D} `{Parser}.

Record SQLStorage : Type := mkSQLStorage {
  db : D;
  tableName : string;
  adapter : SQLDriver
}.

(** The store after a statement left the database in state [d]. *)
Definition with_db (s : SQLStorage) (d : D) : SQLStorage :=
  {| db := d; tableName := tableName s; adapter := adapter s |}.

(** The Go result pair of a function that returns a record or an error. *)
Definition pair_of {A} (r : A + goerror) : option A * option goerror :=
  match r with
  | inl a => (Some a, None)
  | inr e => (None, Some e)
  end.

(** [toMemoryUser] *)
Definition toMemoryUser (model : sqlUserModel) : MemoryUser + goerror :=
  match ParseString (ID model) with
  | inr err =>
      inr (Xray ("invalid UUID in database: " +:+ ID model) (Some err) SevError)
  | inl uuid =>
      inl {| Account_ := VlessAccount uuid (Flow model) "none";
             Email := Email_ model; Level := 0 |}
  end.

(** [SQLStorage.GetUserByID]; the log calls are left out here and below. *)
Definition GetUserByID (id : UUID) (s : SQLStorage)
  : SQLStorage * (option MemoryUser * option goerror) :=
  let '(d, (model, err)) :=
    SelectByID (tableName s +:+ " AS vu") (uuid_String id) (db s) in
  match err with
  | Some ErrNoRows =>
      (with_db s d,
       (None, Some (Xray ("user not found with ID: " +:+ uuid_String id) None SevDebug)))
  | Some e =>
      if IsConnectionError (adapter s) e
      then (with_db s d,
            (None, Some (Xray ("database connection error when getting user by ID: "
                               +:+ uuid_String id) (Some e) SevError)))
      else (with_db s d,
            (None, Some (Xray ("database query error when getting user by ID: "
                               +:+ uuid_String id) (Some e) SevError)))
  | None => (with_db s d, pair_of (toMemoryUser model))
  end.

(** [SQLStorage.GetUserByEmail] *)
Definition GetUserByEmail (email : string) (s : SQLStorage)
  : SQLStorage * (option MemoryUser * option goerror) :=
  let '(d, (model, err)) := SelectByEmail (tableName s +:+ " AS vu") email (db s) in
  match err with
  | Some ErrNoRows =>
      (with_db s d,
       (None, Some (Xray ("user not found with email: " +:+ email) None SevDebug)))
  | Some e =>
      if IsConnectionError (adapter s) e
      then (with_db s d,
            (None, Some (Xray ("database connection error when getting user by email: "
                               +:+ email) (Some e) SevError)))
      else (with_db s d,
            (None, Some (Xray ("database query error when getting user by email: "
                               +:+ email) (Some e) SevError)))
  | None => (with_db s d, pair_of (toMemoryUser model))
  end.

(** The loop of [GetUsers] over the rows from position [i] on: the records
    of all rows, or the error of the first row that does not convert. *)
Fixpoint convert (i : nat) (models : list sqlUserModel) : list MemoryUser + goerror :=
  match models with
  | [] => inl []
  | model :: rest =>
      match toMemoryUser model with
      | inr err =>
          inr (Xray ("invalid user model data in position " +:+ pretty i)
                    (Some err) SevError)
      | inl user =>
          match convert (Datatypes.S i) rest with
          | inl users => inl (user :: users)
          | inr e => inr e
          end
      end
  end.

(** [SQLStorage.GetUsers]; [make] returns a non-nil slice. *)
Definition GetUsers (offset limit : Z) (s : SQLStorage)
  : SQLStorage * (slice MemoryUser * option goerror) :=
  let '(d, (models, err)) :=
    SelectPage (tableName s +:+ " AS vu") offset limit (db s) in
  match err with
  | Some e =>
      if IsConnectionError (adapter s) e
      then (with_db s d,
            (None, Some (Xray "database connection error when getting users"
                              (Some e) SevError)))
      else (with_db s d,
            (None, Some (Xray "database query error when getting users"
                              (Some e) SevError)))
  | None => (with_db s d, pair_of (convert 0 models))
  end.

(** [SQLStorage.AddUser] *)
Definition AddUser (user : MemoryUser) (s : SQLStorage)
  : SQLStorage * option goerror :=
  match Account_ user with
  | VlessAccount id flow _ =>
      let model := {| ID := uuid_String id; Email_ := Email user; Flow := flow |} in
      let '(d, err) := Insert (tableName s +:+ " AS vu") model (db s) in
      match err with
      | Some e =>
          if IsDuplicateKeyError (adapter s) e
          then (with_db s d, Some (Xray "user already exists" (Some e) SevWarning))
          else (with_db s d, Some (Xray "database insert error" (Some e) SevError))
      | None => (with_db s d, None)
      end
  | _ => (s, Some (Xray "not a VLESS user" None SevError))
  end.

(** [SQLStorage.DelUser]; the number of rows affected is only logged. *)
Definition DelUser (email : string) (s : SQLStorage)
  : SQLStorage * option goerror :=
  let '(d, (_, err)) := DeleteByEmail (tableName s +:+ " AS vu") email (db s) in
  match err with
  | Some e =>
      if IsConnectionError (adapter s) e
      then (with_db s d,
            Some (Xray ("database connection error when deleting user with email: "
                        +:+ email) (Some e) SevError))
      else (with_db s d,
            Some (Xray ("database delete error when deleting user with email: "
                        +:+ email) (Some e) SevError))
  | None => (with_db s d, None)
  end.

(** [SQLStorage.GetCount] *)
Definition GetCount (s : SQLStorage) : SQLStorage * (Z * option goerror) :=
  let '(d, (count, err)) := Count (tableName s +:+ " AS vu") (db s) in
  match err with
  | Some e =>
      if IsConnectionError (adapter s) e
      then (with_db s d,
            (0, Some (Xray "database connection error when getting count"
                           (Some e) SevError)))
      else (with_db s d,
            (0, Some (Xray "database count query error" (Some e) SevError)))
  | None => (with_db s d, (count, None))
  end.

(** [SQLStorage.Close] *)
Definition Close (s : SQLStorage) : SQLStorage * option goerror :=
  let '(d, err) := CloseDB (db s) in
  match err with
  | Some e =>
      (with_db s d, Some (Xray "failed to close database connection" (Some e) SevError))
  | None => (with_db s d, None)
  end.

(** [NewSQLStorage], from the values it reads from the settings: the type
    of the driver, the data source name, the table and the pool size.  The
    result is the store or the error. *)
Definition NewSQLStorage `{Connector D} (type dsn table : string) (poolSize : Z)
  : SQLStorage + goerror :=
  let adapter :=
    if decide (type = "postgres") then Some PostgresDriver
    else if decide (type = "mysql") then Some MySQLDriver
    else None in
  match adapter with
  | None => inr (Xray ("unsupported SQL driver: " +:+ type) None SevError)
  | Some a =>
      match Connect a dsn poolSize with
      | inr err =>
          inr (Xray ("failed to connect to " +:+ GetType a +:+ " database")
                    (Some err) SevError)
      | inl d => inl {| db := d; tableName := table; adapter := a |}
      end
  end.

End WithDatabase.
Global Arguments SQLStorage D : clear implicits.

(** A database handle that answers every statement with the same row,
    rows, number and error: enough to exercise each branch of the store. *)
Record Canned : Type := mkCanned {
  row : sqlUserModel;
  rows : list sqlUserModel;
  number : Z;
  answer : option goerror
}.

Global Instance Canned_database : Database Canned := {|
  SelectByID := λ _ _ d, (d, (row d, answer d));
  SelectByEmail := λ _ _ d, (d, (row d, answer d));
  SelectPage := λ _ _ _ d, (d, (rows d, answer d));
  Insert := λ _ _ d, (d, answer d);
  DeleteByEmail := λ _ _ d, (d, (number d, answer d));
  Count := λ _ d, (d, (number d, answer d));
  CloseDB := λ d, (d, answer d)
|}.

(** A connector that reaches a database only under the data source name
    "ok", and then hands out the empty canned handle. *)
Definition sample_connector : Connector Canned :=
  λ _ dsn _, if decide (dsn = "ok") then inl (mkCanned (mkRow "" "" "") [] 0 None)
             else inr (OtherError "connection refused").

(** A parser that accepts the identifiers of the sample records and
    rejects every other text. *)
Definition sample_parser : Parser :=
  λ s, if String.prefix "id-" s then inl s
       else inr (OtherError "invalid UUID").

End SQL.

(* ================================================================= *)
(** * Properties *)

Section heap_facts.
Implicit Types (h : LRU.Heap) (p q : LRU.ptr) (l : list LRU.ptr)
               (pv nx v : option LRU.ptr).

Lemma or_else_head_app l1 l2 nx :
  or_else (head (l1 ++ l2)) nx = or_else (head l1) (or_else (head l2) nx).
Proof. by destruct l1. Qed.

Lemma or_else_last_cons p l pv :
  or_else (last (p :: l)) pv = or_else (last l) (Some p).
Proof.
  destruct l as [|q l]; [done|]. rewrite last_cons_cons.
  by destruct (last_is_Some (q :: l)) as [_ [x ->]].
Qed.

Lemma node_at_lt h p pv nx : node_at h p pv nx → (p < length h)%nat.
Proof. intros [k Hk]. by eapply lookup_lt_Some. Qed.

Lemma node_at_fields h p pv nx :
  node_at h p pv nx → LRU.get_prev h p = pv ∧ LRU.get_next h p = nx.
Proof. intros [k Hk]. unfold LRU.get_prev, LRU.get_next. by rewrite Hk. Qed.

Lemma node_at_set_prev h p pv nx v :
  node_at h p pv nx → node_at (LRU.set_prev v p h) p v nx.
Proof.
  intros [k Hk]. exists k. unfold LRU.set_prev.
  by rewrite list_lookup_alter_eq, Hk.
Qed.

Lemma node_at_set_next h p pv nx v :
  node_at h p pv nx → node_at (LRU.set_next v p h) p pv v.
Proof.
  intros [k Hk]. exists k. unfold LRU.set_next.
  by rewrite list_lookup_alter_eq, Hk.
Qed.

Lemma lookup_set_prev_ne h p q v : p ≠ q → LRU.set_prev v p h !! q = h !! q.
Proof. intros. by apply list_lookup_alter_ne. Qed.

Lemma lookup_set_next_ne h p q v : p ≠ q → LRU.set_next v p h !! q = h !! q.
Proof. intros. by apply list_lookup_alter_ne. Qed.

Lemma get_key_set_prev h p q v : LRU.get_key (LRU.set_prev v p h) q = LRU.get_key h q.
Proof.
  unfold LRU.get_key, LRU.set_prev. destruct (decide (p = q)) as [->|Hne].
  - rewrite list_lookup_alter_eq. by destruct (h !! q).
  - by rewrite list_lookup_alter_ne.
Qed.

Lemma get_key_set_next h p q v : LRU.get_key (LRU.set_next v p h) q = LRU.get_key h q.
Proof.
  unfold LRU.get_key, LRU.set_next. destruct (decide (p = q)) as [->|Hne].
  - rewrite list_lookup_alter_eq. by destruct (h !! q).
  - by rewrite list_lookup_alter_ne.
Qed.

(** A segment only depends on the nodes it lists. *)
Lemma dseg_frame h h' pv l nx :
  (∀ p, p ∈ l → h' !! p = h !! p) → dseg h pv l nx → dseg h' pv l nx.
Proof.
  revert pv. induction l as [|p l IH]; intros pv Hfr; [done|].
  simpl. intros [[k Hk] Hl]. split.
  - exists k. rewrite Hfr; [done|]. apply list_elem_of_here.
  - apply IH; [|done]. intros q Hq. apply Hfr. by apply list_elem_of_further.
Qed.

Lemma dseg_lt h pv l nx p : dseg h pv l nx → p ∈ l → (p < length h)%nat.
Proof.
  revert pv. induction l as [|q l IH]; intros pv; simpl.
  - intros _ Hp. by apply not_elem_of_nil in Hp.
  - intros [Hq Hl] Hp. apply elem_of_cons in Hp as [->|Hp].
    + by eapply node_at_lt.
    + by eapply IH.
Qed.

Lemma dseg_app h pv l1 l2 nx :
  dseg h pv (l1 ++ l2) nx ↔
  dseg h pv l1 (or_else (head l2) nx) ∧ dseg h (or_else (last l1) pv) l2 nx.
Proof.
  revert pv. induction l1 as [|p l1 IH]; intros pv.
  - simpl. tauto.
  - rewrite or_else_last_cons. simpl. rewrite or_else_head_app, IH. tauto.
Qed.

(** Redirecting the [prev] field of the first node of a segment. *)
Lemma dseg_set_prev_head h pv pv' q l nx :
  q ∉ l → dseg h pv (q :: l) nx → dseg (LRU.set_prev pv' q h) pv' (q :: l) nx.
Proof.
  intros Hq [Hn Hl]. split; [by eapply node_at_set_prev|].
  eapply dseg_frame; [|done]. intros p Hp. apply lookup_set_prev_ne.
  intros ->. done.
Qed.

(** Redirecting the [next] field of the last node of a segment. *)
Lemma dseg_set_next_last h pv l q nx nx' :
  q ∉ l → dseg h pv (l ++ [q]) nx → dseg (LRU.set_next nx' q h) pv (l ++ [q]) nx'.
Proof.
  intros Hq. rewrite !dseg_app. simpl. intros [Hl [Hn _]]. split_and!; [|by eapply node_at_set_next|done].
  eapply dseg_frame; [|done]. intros p Hp. apply lookup_set_next_ne.
  intros ->. done.
Qed.

Lemma dseg_set_prev_out h pv l nx q v :
  q ∉ l → dseg h pv l nx → dseg (LRU.set_prev v q h) pv l nx.
Proof.
  intros Hq. apply dseg_frame. intros p Hp. apply lookup_set_prev_ne.
  intros ->. done.
Qed.

Lemma dseg_set_next_out h pv l nx q v :
  q ∉ l → dseg h pv l nx → dseg (LRU.set_next v q h) pv l nx.
Proof.
  intros Hq. apply dseg_frame. intros p Hp. apply lookup_set_next_ne.
  intros ->. done.
Qed.

Lemma dseg_alloc h pv l nx nd : dseg h pv l nx → dseg (h ++ [nd]) pv l nx.
Proof.
  intros Hl. eapply dseg_frame; [|done]. intros p Hp.
  apply lookup_app_l. by eapply dseg_lt.
Qed.

End heap_facts.

(** ** The LRU index keeps its recency list well formed *)
Section lru_facts.
Implicit Types (h : list LRU.LRUNode) (m : LRU.LRUManager) (p q n : nat)
               (l : list nat) (pv nx v : option nat).

Lemma or_else_None (o : option nat) : or_else o None = o.
Proof. by destruct o. Qed.

Lemma dseg_retarget_next h pv l nx nx' :
  NoDup l → dseg h pv l nx →
  dseg (match last l with Some a => LRU.set_next nx' a h | None => h end) pv l nx'.
Proof.
  intros Hnd Hl. destruct (last l) as [a|] eqn:E.
  - apply last_Some in E as [l' ->].
    apply NoDup_app in Hnd as (_ & Hd & _).
    eapply dseg_set_next_last; [|done].
    intros Ha. apply (Hd a Ha), list_elem_of_here.
  - apply last_None in E as ->. done.
Qed.

Lemma dseg_retarget_prev h pv pv' l nx :
  NoDup l → dseg h pv l nx →
  dseg (match head l with Some b => LRU.set_prev pv' b h | None => h end) pv' l nx.
Proof.
  intros Hnd Hl. destruct l as [|b l]; [done|]. simpl.
  apply NoDup_cons in Hnd as [Hb _]. by eapply dseg_set_prev_head.
Qed.

Lemma last_elem_of l a : last l = Some a → a ∈ l.
Proof. intros [l' ->]%last_Some. apply elem_of_app. right. apply list_elem_of_here. Qed.

Lemma head_elem_of l a : head l = Some a → a ∈ l.
Proof. destruct l; [done|]. intros [= ->]. apply list_elem_of_here. Qed.

(** [Add] links a fresh node in front of the list and maps its key. *)
Lemma lru_list_Add h m l k :
  lru_list h m l →
  ∃ h' m', LRU.Add k (h, m) = (h', m', length h) ∧
    lru_list h' m' (length h :: l) ∧
    length h' = S (length h) ∧
    LRU.get_key h' (length h) = Some k ∧
    (∀ p, (p < length h)%nat → LRU.get_key h' p = LRU.get_key h p) ∧
    LRU.nodeMap m' = <[k := length h]> (LRU.nodeMap m).
Proof.
  intros (Hseg & Hnd & Hhd & Htl).
  assert (Hfresh : length h ∉ l).
  { intros Hin. pose proof (dseg_lt _ _ _ _ _ Hseg Hin). lia. }
  unfold LRU.Add. rewrite Hhd. destruct l as [|q l]; simpl.
  - eexists _, _. split; [done|]. split_and!; simpl.
    + split_and!; simpl; [|apply NoDup_singleton|done|done].
      split; [|done]. eexists. by apply list_lookup_middle.
    + rewrite length_app. simpl. lia.
    + unfold LRU.get_key. by rewrite list_lookup_middle.
    + intros p Hp. unfold LRU.get_key. by rewrite lookup_app_l.
    + done.
  - assert (Hq : q ≠ length h).
    { intros ->. apply Hfresh, list_elem_of_here. }
    eexists _, _. split; [done|]. split_and!; simpl.
    + split_and!; simpl.
      * split.
        -- unfold LRU.set_prev. exists k.
           rewrite list_lookup_alter_ne by done.
           unfold LRU.set_next. rewrite list_lookup_alter_eq.
           by rewrite list_lookup_middle.
        -- apply NoDup_cons in Hnd as [Hq' _].
           apply (dseg_set_prev_head _ None); [done|].
           apply dseg_set_next_out; [done|]. by apply dseg_alloc.
      * by apply NoDup_cons.
      * done.
      * rewrite Htl. by destruct l.
    + unfold LRU.set_prev, LRU.set_next.
      rewrite !length_alter, length_app. simpl. lia.
    + rewrite get_key_set_prev, get_key_set_next.
      unfold LRU.get_key. by rewrite list_lookup_middle.
    + intros p Hp. rewrite get_key_set_prev, get_key_set_next.
      unfold LRU.get_key. by rewrite lookup_app_l.
    + done.
Qed.

(** [Remove] unlinks a linked node and forgets its key. *)
Lemma lru_list_Remove h m l1 n l2 :
  lru_list h m (l1 ++ n :: l2) →
  ∃ h' m', LRU.Remove (Some n) (h, m) = (h', m') ∧
    lru_list h' m' (l1 ++ l2) ∧
    length h' = length h ∧
    (∀ p, LRU.get_key h' p = LRU.get_key h p) ∧
    is_Some (h' !! n) ∧
    LRU.nodeMap m' = match LRU.get_key h n with
                     | Some k => delete k (LRU.nodeMap m)
                     | None => LRU.nodeMap m
                     end.
Proof.
  intros (Hseg & Hnd & Hhd & Htl).
  apply dseg_app in Hseg as [H1 [Hn H2]]. simpl in H1.
  rewrite !or_else_None in Hn.
  apply NoDup_app in Hnd as (Hnd1 & Hdisj & [Hn2 Hnd2]%NoDup_cons).
  assert (Hn1 : n ∉ l1).
  { intros Hin. apply (Hdisj n Hin), list_elem_of_here. }
  assert (Hdisj' : ∀ x, x ∈ l1 → x ∉ l2).
  { intros x Hx Hx2. apply (Hdisj x Hx). by apply list_elem_of_further. }
  destruct (node_at_fields _ _ _ _ Hn) as [Hpv Hnx].
  unfold LRU.Remove. rewrite Hpv, Hnx.
  set (h1 := match last l1 with Some a => LRU.set_next (head l2) a h | None => h end).
  assert (Hn' : node_at h1 n (last l1) (head l2)).
  { subst h1. destruct (last l1) as [a|] eqn:E; [|done].
    destruct Hn as [k Hk]. exists k. rewrite lookup_set_next_ne; [done|].
    intros ->. by apply Hn1, last_elem_of. }
  destruct (node_at_fields _ _ _ _ Hn') as [Hpv' Hnx']. rewrite Hpv', Hnx'.
  set (h2 := match head l2 with Some b => LRU.set_prev (last l1) b h1 | None => h1 end).
  assert (Hn'' : is_Some (h2 !! n)).
  { subst h2. destruct Hn' as [k Hk]. destruct (head l2) as [b|] eqn:E; [|by eexists].
    rewrite lookup_set_prev_ne; [by eexists|].
    intros ->. by apply Hn2, head_elem_of. }
  eexists _, _. split; [done|]. split_and!; simpl.
  - split_and!.
    + apply dseg_app. rewrite !or_else_None. split.
      * subst h2. destruct (head l2) as [b|] eqn:E.
        -- apply dseg_set_prev_out.
           { intros Hb. by apply (Hdisj' b Hb), head_elem_of. }
           subst h1. by apply (dseg_retarget_next _ _ _ (Some n)).
        -- subst h1. by apply (dseg_retarget_next _ _ _ (Some n)).
      * subst h2. apply (dseg_retarget_prev _ (Some n)); [done|].
        subst h1. destruct (last l1) as [a|] eqn:E; [|done].
        apply dseg_set_next_out; [|done].
        intros Ha. by apply (Hdisj' a); [apply last_elem_of|].
    + apply NoDup_app. done.
    + rewrite Hhd. destruct l1 as [|a l1]; simpl.
      * by rewrite decide_True.
      * rewrite decide_False; [done|]. intros [= ->].
        apply Hn1, list_elem_of_here.
    + rewrite Htl, last_app, last_cons, last_app.
      destruct (last l2) as [z|] eqn:E; simpl.
      * rewrite decide_False; [done|]. intros [= ->].
        by apply Hn2, last_elem_of.
      * by rewrite decide_True.
  - subst h2 h1. destruct (head l2), (last l1);
      unfold LRU.set_prev, LRU.set_next; by rewrite ?length_alter.
  - intros p. subst h2 h1. destruct (head l2), (last l1);
      by rewrite ?get_key_set_prev, ?get_key_set_next.
  - done.
  - done.
Qed.

(** [MoveToFront] relinks a linked node at the head; unless it already
    was the head, its key leaves the lookup map. *)
Lemma lru_list_MoveToFront h m l1 n l2 :
  lru_list h m (l1 ++ n :: l2) →
  ∃ h' m', LRU.MoveToFront n (h, m) = (h', m') ∧
    lru_list h' m' (n :: l1 ++ l2) ∧
    length h' = length h ∧
    (∀ p, LRU.get_key h' p = LRU.get_key h p) ∧
    LRU.nodeMap m' = match l1, LRU.get_key h n with
                     | _ :: _, Some k => delete k (LRU.nodeMap m)
                     | _, _ => LRU.nodeMap m
                     end.
Proof.
  intros Hl. pose proof Hl as (Hseg & Hnd & Hhd & Htl).
  unfold LRU.MoveToFront. simpl snd. rewrite Hhd.
  destruct l1 as [|a l1].
  { simpl. rewrite decide_True by done. eexists _, _. by split_and!. }
  simpl head. rewrite decide_False.
  2:{ intros [= ->]. apply NoDup_cons in Hnd as [Hnd _].
      apply Hnd, elem_of_app. right. apply list_elem_of_here. }
  destruct (lru_list_Remove _ _ _ _ _ Hl)
    as (h' & m' & -> & (Hseg' & Hnd' & Hhd' & Htl') & Hlen & Hkey & [nd Hnd0] & Hmap).
  simpl in Hhd'. rewrite Hhd'.
  assert (Hn : n ∉ (a :: l1) ++ l2).
  { apply NoDup_app in Hnd as (_ & Hd & [Hn2 _]%NoDup_cons).
    intros [Hin|Hin]%elem_of_app; [|done].
    apply (Hd n Hin), list_elem_of_here. }
  assert (Hna : a ≠ n).
  { intros ->. apply Hn. apply list_elem_of_here. }
  eexists _, _. split; [done|]. split_and!; simpl.
  - split_and!; simpl.
    + split.
      * exists (LRU.key nd). rewrite lookup_set_prev_ne by done.
        unfold LRU.set_next, LRU.set_prev.
        by rewrite !list_lookup_alter_eq, Hnd0.
      * simpl in Hnd'. apply NoDup_cons in Hnd' as [Ha _].
        apply (dseg_set_prev_head _ None); [done|].
        apply dseg_set_next_out; [done|]. by apply dseg_set_prev_out.
    + by apply NoDup_cons.
    + done.
    + by rewrite Htl'.
  - unfold LRU.set_prev, LRU.set_next. by rewrite !length_alter.
  - intros p. by rewrite get_key_set_prev, get_key_set_next, get_key_set_prev.
  - done.
Qed.

(** [RemoveTail] unlinks the last node. *)
Lemma lru_list_RemoveTail h m l t :
  lru_list h m (l ++ [t]) →
  ∃ h' m', LRU.RemoveTail (h, m) = (h', m') ∧
    lru_list h' m' l ∧
    length h' = length h ∧
    (∀ p, LRU.get_key h' p = LRU.get_key h p) ∧
    LRU.nodeMap m' = match LRU.get_key h t with
                     | Some k => delete k (LRU.nodeMap m)
                     | None => LRU.nodeMap m
                     end.
Proof.
  intros Hl. pose proof Hl as (_ & _ & _ & Htl).
  unfold LRU.RemoveTail. simpl snd. rewrite Htl, last_snoc.
  destruct (lru_list_Remove _ _ _ _ _ Hl)
    as (h' & m' & -> & Hl' & Hlen & Hkey & _ & Hmap).
  rewrite app_nil_r in Hl'. eexists _, _. by split_and!.
Qed.

Lemma lru_list_RemoveTail_nil h m :
  lru_list h m [] → LRU.RemoveTail (h, m) = (h, m).
Proof. intros (_ & _ & _ & Htl). unfold LRU.RemoveTail. simpl. by rewrite Htl. Qed.

Lemma walk_dseg fuel h pv l :
  dseg h pv l None → (length l ≤ fuel)%nat → LRU.walk fuel h (head l) = l.
Proof.
  revert fuel pv. induction l as [|p l IH]; intros fuel pv Hseg Hlen.
  - by destruct fuel.
  - destruct fuel as [|fuel]; simpl in Hlen; [lia|].
    destruct Hseg as [Hp Hl]. simpl.
    destruct (node_at_fields _ _ _ _ Hp) as [_ ->].
    rewrite or_else_None. f_equal. eapply IH; [done|lia].
Qed.

Lemma NoDup_bounded_length l k :
  NoDup l → (∀ x, x ∈ l → (x < k)%nat) → (length l ≤ k)%nat.
Proof.
  intros Hnd Hlt. rewrite <- (length_seq k 0%nat).
  apply submseteq_length, NoDup_submseteq; [done|].
  intros x Hx. apply elem_of_seq. specialize (Hlt x Hx). lia.
Qed.

(** A traversal from the head sees exactly the recency list. *)
Lemma lru_list_linked h m l : lru_list h m l → LRU.linked (h, m) = l.
Proof.
  intros (Hseg & Hnd & Hhd & _). unfold LRU.linked. simpl. rewrite Hhd.
  eapply walk_dseg; [done|]. apply NoDup_bounded_length; [done|].
  intros x Hx. by eapply dseg_lt.
Qed.

(** The ends of the list are both nil (the list is empty) or both set. *)
Lemma lru_list_ends h m l :
  lru_list h m l →
  (LRU.head m = None ↔ LRU.tail m = None) ∧ (LRU.head m = None ↔ l = []).
Proof.
  intros (_ & _ & -> & ->). rewrite head_None, last_None. tauto.
Qed.

Lemma lru_list_New h : lru_list h LRU.NewLRUManager [].
Proof. by split_and!; [|apply NoDup_nil|..]. Qed.

End lru_facts.

(** ** The cache: shape of a state after [Set] *)
Section cache_facts.
Import CacheM.
Implicit Types (c : Cache) (id email : string) (R : MemoryUser) (now : Z).

Lemma Add_head k (s : list LRU.LRUNode * LRU.LRUManager) :
  ∃ h' m', LRU.Add k s = (h', m', length (fst s)) ∧
    LRU.head m' = Some (length (fst s)) ∧
    LRU.nodeMap m' !! k = Some (length (fst s)).
Proof.
  destruct s as [h m]. unfold LRU.Add. simpl.
  destruct (LRU.head m); eexists _, _; (split; [done|]); simpl;
    by rewrite lookup_insert_eq.
Qed.

Lemma evict_config c :
  ttl (evict c) = ttl c ∧ maxSize (evict c) = maxSize c.
Proof.
  unfold evict. repeat case_match; simpl; done.
Qed.

Lemma Set_unfold id R now c :
  let c1 := evict c in
  let n := length (mem c1) in
  let e := {| User_ := R; ExpiresAt := now + ttl c; lruNode := Some n |} in
  ∃ h l, LRU.Add id (mem c1, lru c1) = (h, l, n) ∧
    Set_ id R now c =
      {| mem := h;
         usersByID := <[id := e]> (usersByID c1);
         usersByEmail := <[Email R := e]> (usersByEmail c1);
         lru := l; ttl := ttl c; maxSize := maxSize c |}.
Proof.
  intros c1 n e. destruct (evict_config c) as [Ht Hm].
  destruct (Add_head id (mem c1, lru c1)) as (h & l & HA & _).
  exists h, l. split; [done|].
  unfold Set_. fold c1. rewrite HA. subst e c1. by rewrite Ht, Hm.
Qed.

Lemma After_false now t : After now t = false ↔ now ≤ t.
Proof. unfold After. rewrite Z.ltb_ge. done. Qed.

Lemma After_true now t : After now t = true ↔ t < now.
Proof. unfold After. rewrite Z.ltb_lt. done. Qed.

(** A hit of [Get] on the entry whose node is the head changes nothing. *)
Lemma Get_hit_head c id e n now :
  usersByID c !! id = Some e → lruNode e = Some n →
  LRU.head (lru c) = Some n → now ≤ ExpiresAt e →
  Get id now c = (c, Some (User_ e)).
Proof.
  intros Hid Hn Hhd Hlive. unfold Get. rewrite Hid.
  apply After_false in Hlive. rewrite Hlive, Hn.
  unfold LRU.MoveToFront. simpl. rewrite decide_True by done.
  by destruct c.
Qed.

(** A hit of [GetByEmail] returns the record and keeps both maps and the
    configuration. *)
Lemma GetByEmail_hit c email e uuid now :
  usersByEmail c !! email = Some e →
  vless_id (Account_ (User_ e)) = Some uuid → now ≤ ExpiresAt e →
  ∃ c', GetByEmail email now c = (c', Some (User_ e)) ∧
    usersByID c' = usersByID c ∧ usersByEmail c' = usersByEmail c ∧
    ttl c' = ttl c ∧ maxSize c' = maxSize c.
Proof.
  intros He Hv Hlive. unfold GetByEmail. rewrite He, Hv.
  apply After_false in Hlive. rewrite Hlive.
  destruct (match LRU.GetNode uuid (lru c) with
            | Some node => _ | None => _ end) as [h l].
  eexists. split; [done|]. done.
Qed.

End cache_facts.

(** ** Round trip and lazy expiry *)
Section cache_claims.
Import CacheM.
Implicit Types (c : Cache) (id email : string) (R : MemoryUser) (now : Z).

Lemma filter_ne_NoDup (l1 l2 : list nat) (n : nat) :
  NoDup (l1 ++ n :: l2) → filter (λ p, p ≠ n) (l1 ++ n :: l2) = l1 ++ l2.
Proof.
  intros (Hnd1 & Hdisj & [Hn2 Hnd2]%NoDup_cons)%NoDup_app.
  assert (Hid : ∀ l : list nat, n ∉ l → filter (λ p, p ≠ n) l = l).
  { induction l as [|x l IH]; [done|]. intros [Hx Hl]%not_elem_of_cons.
    rewrite filter_cons_True by done. by rewrite IH. }
  rewrite filter_app, filter_cons_False by (intros Hne; by apply Hne).
  rewrite !Hid; [done|done|].
  intros Hin. apply (Hdisj n Hin), list_elem_of_here.
Qed.

(** What [Set] leaves for the key it was given. *)
Lemma Set_lookup id R now c :
  let c1 := Set_ id R now c in
  ∃ n, let e := {| User_ := R; ExpiresAt := now + ttl c; lruNode := Some n |} in
    usersByID c1 !! id = Some e ∧ usersByEmail c1 !! Email R = Some e ∧
    LRU.head (lru c1) = Some n ∧ ttl c1 = ttl c ∧ maxSize c1 = maxSize c.
Proof.
  intros c1. destruct (Set_unfold id R now c) as (h & l & HA & HS).
  destruct (Add_head id (mem (evict c), lru (evict c))) as (h' & l' & HA' & Hhd & _).
  rewrite HA in HA'. injection HA' as <- <-.
  exists (length (mem (evict c))). subst c1. rewrite HS. simpl.
  by rewrite !lookup_insert_eq.
Qed.

(** C1 (as amended): round trip through the cache.  Right after
    [Set(I, R)], and for as long as the entry has not expired, [Get(I)]
    returns [(R, true)] and leaves the cache as it is; [GetByEmail(A)]
    for the alias [A] of [R] returns [(R, true)] provided the account of
    [R] is a VLESS account, also when it follows that [Get]. *)
Theorem C1_round_trip c id R now now1 now2 :
  now1 ≤ now + ttl c → now2 ≤ now + ttl c →
  let c1 := Set_ id R now c in
  Get id now1 c1 = (c1, Some R) ∧
  (is_Some (vless_id (Account_ R)) →
   snd (GetByEmail (Email R) now2 c1) = Some R ∧
   snd (GetByEmail (Email R) now2 (fst (Get id now1 c1))) = Some R).
Proof.
  intros H1 H2 c1. destruct (Set_lookup id R now c) as (n & Hid & Hem & Hhd & _).
  fold c1 in Hid, Hem, Hhd.
  assert (HG : Get id now1 c1 = (c1, Some R)).
  { by rewrite (Get_hit_head _ _ _ _ _ Hid eq_refl Hhd). }
  split; [done|]. intros [uuid Hv]. rewrite HG. simpl.
  destruct (GetByEmail_hit _ _ _ _ now2 Hem Hv) as (c' & -> & _); [done|].
  done.
Qed.

(** C1, the claim as stated fails: a record whose account is not a VLESS
    account is not found by its alias right after [Set], although it has
    neither expired nor been evicted. *)
Lemma C1_counterexample :
  let R := mkUser (OtherAccount "vmess") "a@example.com" 0 in
  let c1 := Set_ "id-1" R 0 (NewCache 10 100) in
  Get "id-1" 0 c1 = (c1, Some R) ∧ snd (GetByEmail (Email R) 0 c1) = None.
Proof. vm_compute. done. Qed.

(** The entries counted by [GetCount] are the keys found live. *)
Lemma elem_of_live c now (k : string) (e : User) :
  (k, e) ∈ live now c ↔ usersByID c !! k = Some e ∧ now ≤ ExpiresAt e.
Proof.
  unfold live. rewrite list_elem_of_filter, elem_of_map_to_list. simpl.
  rewrite After_false. tauto.
Qed.



End cache_claims.

(** ** The validator: write-through, error collapsing, nil records *)
Section validator_claims.
Context {S : Type} `{Storage.UserStorage S}.
Implicit Types (v : Validator.Validator S) (user : MemoryUser) (now : Z).


(** C8: read-path error collapsing.  When the cache does not answer and
    the store lookup returns an error, whatever its class and whatever
    record comes with it, [Get] and [GetByEmail] return nil: the same
    answer as for a store that reports no record and no error. *)
Theorem C8_read_errors_collapse v now now' :
  (∀ id st u e,
      snd (Validator.lookup_cache (CacheM.Get (uuid_String id) now)
                                  (Validator.cache v)) = None →
      Storage.GetUserByID id (Validator.storage v) = (st, (u, Some e)) →
      snd (Validator.Get id now now' v) = None) ∧
  (∀ email st u e,
      snd (Validator.lookup_cache (CacheM.GetByEmail email now)
                                  (Validator.cache v)) = None →
      Storage.GetUserByEmail email (Validator.storage v) = (st, (u, Some e)) →
      snd (Validator.GetByEmail email now now' v) = None) ∧
  (∀ id st,
      snd (Validator.lookup_cache (CacheM.Get (uuid_String id) now)
                                  (Validator.cache v)) = None →
      Storage.GetUserByID id (Validator.storage v) = (st, (None, None)) →
      snd (Validator.Get id now now' v) = None).
Proof.
  split_and!.
  - intros id st u e Hmiss Hst. unfold Validator.Get.
    destruct (Validator.lookup_cache _ _) as [c1 r]. simpl in Hmiss. subst r.
    by rewrite Hst.
  - intros email st u e Hmiss Hst. unfold Validator.GetByEmail.
    destruct (Validator.lookup_cache _ _) as [c1 r]. simpl in Hmiss. subst r.
    by rewrite Hst.
  - intros id st Hmiss Hst. unfold Validator.Get.
    destruct (Validator.lookup_cache _ _) as [c1 r]. simpl in Hmiss. subst r.
    by rewrite Hst.
Qed.

(** A cache lookup never inserts: both maps can only lose entries, and
    nothing at all changes when the key is not in the map consulted. *)
Lemma Get_no_insert (c : CacheM.Cache) (id : string) now :
  CacheM.usersByID (fst (CacheM.Get id now c)) ⊆ CacheM.usersByID c ∧
  CacheM.usersByEmail (fst (CacheM.Get id now c)) ⊆ CacheM.usersByEmail c ∧
  (CacheM.usersByID c !! id = None → fst (CacheM.Get id now c) = c).
Proof.
  unfold CacheM.Get. destruct (CacheM.usersByID c !! id) as [e|]; [|done].
  split_and!; [| |done].
  - destruct (CacheM.After now (CacheM.ExpiresAt e)).
    + destruct (match CacheM.lruNode e with Some _ => _ | None => _ end).
      simpl. apply delete_subseteq.
    + by destruct (match CacheM.lruNode e with Some _ => _ | None => _ end).
  - destruct (CacheM.After now (CacheM.ExpiresAt e)).
    + destruct (match CacheM.lruNode e with Some _ => _ | None => _ end).
      simpl. apply delete_subseteq.
    + by destruct (match CacheM.lruNode e with Some _ => _ | None => _ end).
Qed.

Lemma GetByEmail_no_insert (c : CacheM.Cache) (email : string) now :
  CacheM.usersByID (fst (CacheM.GetByEmail email now c)) ⊆ CacheM.usersByID c ∧
  CacheM.usersByEmail (fst (CacheM.GetByEmail email now c)) ⊆ CacheM.usersByEmail c ∧
  (CacheM.usersByEmail c !! email = None → fst (CacheM.GetByEmail email now c) = c).
Proof.
  unfold CacheM.GetByEmail.
  destruct (CacheM.usersByEmail c !! email) as [e|]; [|done].
  destruct (vless_id (Account_ (CacheM.User_ e))) as [uuid|]; [|done].
  split_and!; [| |done].
  - destruct (CacheM.After now (CacheM.ExpiresAt e)).
    + destruct (match LRU.GetNode uuid _ with Some _ => _ | None => _ end).
      simpl. apply delete_subseteq.
    + by destruct (match LRU.GetNode uuid _ with Some _ => _ | None => _ end).
  - destruct (CacheM.After now (CacheM.ExpiresAt e)).
    + destruct (match LRU.GetNode uuid _ with Some _ => _ | None => _ end).
      simpl. apply delete_subseteq.
    + by destruct (match LRU.GetNode uuid _ with Some _ => _ | None => _ end).
Qed.

(** C10 (as amended): nil-record tolerance.  When the cache does not
    answer and the store returns a nil record with a nil error, [Get] and
    [GetByEmail] return nil and backfill nothing: the cache is left as
    the cache lookup of that call left it.  That lookup inserts nothing,
    and changes nothing when the key is not in the cache; it may have
    purged an expired entry. *)
Theorem C10_nil_record_not_backfilled v now now' :
  (∀ id st,
      snd (Validator.lookup_cache (CacheM.Get (uuid_String id) now)
                                  (Validator.cache v)) = None →
      Storage.GetUserByID id (Validator.storage v) = (st, (None, None)) →
      Validator.Get id now now' v =
        ({| Validator.storage := st;
            Validator.cache :=
              (λ c, fst (CacheM.Get (uuid_String id) now c)) <$> Validator.cache v |},
         None)) ∧
  (∀ email st,
      snd (Validator.lookup_cache (CacheM.GetByEmail email now)
                                  (Validator.cache v)) = None →
      Storage.GetUserByEmail email (Validator.storage v) = (st, (None, None)) →
      Validator.GetByEmail email now now' v =
        ({| Validator.storage := st;
            Validator.cache :=
              (λ c, fst (CacheM.GetByEmail email now c)) <$> Validator.cache v |},
         None)) ∧
  (∀ (c : CacheM.Cache) (k : string),
      (CacheM.usersByID (fst (CacheM.Get k now c)) ⊆ CacheM.usersByID c ∧
       CacheM.usersByEmail (fst (CacheM.Get k now c)) ⊆ CacheM.usersByEmail c ∧
       (CacheM.usersByID c !! k = None → fst (CacheM.Get k now c) = c)) ∧
      (CacheM.usersByID (fst (CacheM.GetByEmail k now c)) ⊆ CacheM.usersByID c ∧
       CacheM.usersByEmail (fst (CacheM.GetByEmail k now c)) ⊆ CacheM.usersByEmail c ∧
       (CacheM.usersByEmail c !! k = None → fst (CacheM.GetByEmail k now c) = c))).
Proof.
  split_and!.
  - intros id st Hmiss Hst. unfold Validator.Get.
    unfold Validator.lookup_cache in *.
    destruct (Validator.cache v) as [c|]; simpl in *.
    + destruct (CacheM.Get (uuid_String id) now c) as [c1 r]. simpl in *.
      subst r. by rewrite Hst.
    + by rewrite Hst.
  - intros email st Hmiss Hst. unfold Validator.GetByEmail.
    unfold Validator.lookup_cache in *.
    destruct (Validator.cache v) as [c|]; simpl in *.
    + destruct (CacheM.GetByEmail email now c) as [c1 r]. simpl in *.
      subst r. by rewrite Hst.
    + by rewrite Hst.
  - intros c k. split; [apply Get_no_insert|apply GetByEmail_no_insert].
Qed.

End validator_claims.

(** ** The validator without a cache: paging of [GetAll] *)
Section paging_claims.
Context {S : Type} `{Storage.UserStorage S}.
Implicit Types (st : S) (acc users : slice MemoryUser) (db : list MemoryUser).

Lemma elems_append acc users : elems (append acc users) = elems acc ++ elems users.
Proof. unfold append. destruct acc, (elems users); by rewrite ?app_nil_r. Qed.

Lemma int_small x : - 2 ^ 63 ≤ x < 2 ^ 63 → Validator.int x = x.
Proof. intros Hx. unfold Validator.int. rewrite Z.mod_small; lia. Qed.

Lemma take_drop_step db (o k : nat) :
  take o db ++ take k (drop o db) = take (o + k) db.
Proof. apply take_take_drop. Qed.

(** The loop over a paging store: from a state reached after whole
    pages, enough fuel collects the rest of the sequence. *)
Lemma GetAll_loop_paging (holds : S → list MemoryUser) db :
  paging holds → Z.of_nat (length db) < 2 ^ 62 →
  ∀ fuel st (o : nat) acc,
    holds st = db → (o ≤ length db)%nat → elems acc = take o db →
    (length db - o < 100 * fuel)%nat →
    ∃ st' r, Validator.GetAll_loop fuel st (Z.of_nat o) 100 acc = Some (st', r) ∧
      elems r = db ∧ holds st' = db.
Proof.
  intros Hp Hsmall. induction fuel as [|fuel IH]; intros st o acc Hst Ho Hacc Hfuel.
  { lia. }
  destruct (Hp st (Z.of_nat o) 100) as (st1 & users & HG & Hus & Hst1); [lia..|].
  simpl. rewrite HG. rewrite Hst in Hus, Hst1.
  assert (Hlen : len users = Z.of_nat (Nat.min 100 (length db - o))).
  { unfold len. rewrite Hus. unfold page.
    rewrite length_take, length_drop, Nat2Z.id.
    by replace (Z.to_nat 100) with 100%nat by lia. }
  assert (Hus' : elems users = take 100 (drop o db)).
  { rewrite Hus. unfold page. rewrite Nat2Z.id.
    by replace (Z.to_nat 100) with 100%nat by lia. }
  destruct (len users =? 0) eqn:E0.
  - apply Z.eqb_eq in E0. eexists _, _. split; [done|]. split; [|done].
    rewrite Hacc. apply take_ge. lia.
  - apply Z.eqb_neq in E0. destruct (len users <? 100) eqn:E1.
    + apply Z.ltb_lt in E1. eexists _, _. split; [done|]. split; [|done].
      rewrite elems_append, Hacc, Hus', take_drop_step. apply take_ge. lia.
    + apply Z.ltb_ge in E1.
      rewrite int_small by lia.
      replace (Z.of_nat o + 100) with (Z.of_nat (o + 100)) by lia.
      apply IH; [done|lia| |lia].
      by rewrite elems_append, Hacc, Hus', take_drop_step.
Qed.

(** The loop stops with nil at the first request that fails, however
    many full pages came before. *)
Lemma GetAll_loop_error st offset acc st' offset' acc' st'' users e :
  full_pages 100 st offset acc st' offset' acc' →
  Storage.GetUsers offset' 100 st' = (st'', (users, Some e)) →
  ∃ fuel0, ∀ fuel, (fuel0 ≤ fuel)%nat →
    Validator.GetAll_loop fuel st offset 100 acc = Some (st'', None).
Proof.
  intros Hrun Herr. induction Hrun as [st offset acc|st offset acc st1 us st' offset' acc' HG H0 Hfull Hrun IH].
  - exists 1%nat. intros [|fuel] Hf; [lia|]. simpl. by rewrite Herr.
  - destruct (IH Herr) as (fuel0 & Hfuel0). exists (Datatypes.S fuel0).
    intros [|fuel] Hf; [lia|]. simpl. rewrite HG.
    apply Z.eqb_neq in H0. rewrite H0.
    apply Z.ltb_ge in Hfull. rewrite Hfull. apply Hfuel0. lia.
Qed.

(** C9: paging of [GetAll] without a cache.  The loop requests pages of
    100 records from offset 0, each next request 100 further.  Over a
    store that pages through the sequence it holds, enough fuel (more
    than a hundredth of the length) returns exactly that sequence, so a
    store of 101 records yields all 101; and when a request fails after
    any number of full pages, the whole call returns nil. *)
Theorem C9_GetAll_pages (v : Validator.Validator S) (now : Z) :
  Validator.cache v = None →
  (∀ (holds : S → list MemoryUser) (fuel : nat),
      paging holds →
      Z.of_nat (length (holds (Validator.storage v))) < 2 ^ 62 →
      (length (holds (Validator.storage v)) < 100 * fuel)%nat →
      ∃ v' r, Validator.GetAll fuel now v = Some (v', r) ∧
        elems r = holds (Validator.storage v) ∧
        holds (Validator.storage v') = holds (Validator.storage v) ∧
        Validator.cache v' = None) ∧
  (∀ st' offset' acc' st'' users e,
      full_pages 100 (Validator.storage v) 0 None st' offset' acc' →
      Storage.GetUsers offset' 100 st' = (st'', (users, Some e)) →
      ∃ fuel0, ∀ fuel, (fuel0 ≤ fuel)%nat →
        Validator.GetAll fuel now v =
          Some ({| Validator.storage := st''; Validator.cache := None |}, None)).
Proof.
  intros Hc. split.
  - intros holds fuel Hp Hsmall Hfuel. unfold Validator.GetAll. rewrite Hc.
    destruct (GetAll_loop_paging holds (holds (Validator.storage v)) Hp Hsmall
                fuel (Validator.storage v) 0%nat None)
      as (st' & r & HL & Hr & Hst'); [done|lia|done|lia|].
    change (Z.of_nat 0) with 0 in HL. rewrite HL. eexists _, _. by split_and!.
  - intros st' offset' acc' st'' users e Hrun Herr.
    destruct (GetAll_loop_error _ _ _ _ _ _ _ _ _ Hrun Herr) as (fuel0 & Hf).
    exists fuel0. intros fuel Hfuel. unfold Validator.GetAll.
    by rewrite Hc, (Hf fuel Hfuel).
Qed.

End paging_claims.

(** ** Where the lookup map of the LRU index loses a linked node *)
Section lru_defect.
Import CacheM.

Lemma lru_list_get_key (h : list LRU.LRUNode) m (l : list nat) (p : nat) :
  lru_list h m l → p ∈ l → is_Some (LRU.get_key h p).
Proof.
  intros (Hseg & _) Hp. pose proof (dseg_lt _ _ _ _ _ Hseg Hp) as Hlt.
  apply lookup_lt_is_Some_2 in Hlt as [nd Hnd].
  unfold LRU.get_key. rewrite Hnd. by eexists.
Qed.

(** [Add] of a key that no linked node carries keeps the lookup map in
    step with the list. *)
Lemma map_agrees_Add (h : list LRU.LRUNode) m (l : list nat) (k : string) :
  lru_list h m l → map_agrees h m l →
  (∀ p, p ∈ l → LRU.get_key h p ≠ Some k) →
  ∃ h' m', LRU.Add k (h, m) = (h', m', length h) ∧
    lru_list h' m' (length h :: l) ∧ map_agrees h' m' (length h :: l).
Proof.
  intros Hl Hag Hfresh.
  destruct (lru_list_Add _ _ _ k Hl) as (h' & m' & HA & Hl' & _ & Hkn & Hkeys & Hmap).
  exists h', m'. split_and!; [done|done|].
  assert (Hlt : ∀ p, p ∈ l → (p < length h)%nat).
  { intros p Hp. destruct Hl as (Hseg & _). by eapply dseg_lt. }
  intros k' p. rewrite Hmap, elem_of_cons.
  destruct (decide (k = k')) as [<-|Hne].
  - rewrite lookup_insert_eq. split.
    + intros [= <-]. split; [by left|done].
    + intros [[->|Hp] Hk]; [done|]. exfalso. apply (Hfresh p Hp).
      rewrite <- Hkeys; [done|]. by apply Hlt.
  - rewrite lookup_insert_ne by done. rewrite (Hag k' p). split.
    + intros [Hp Hk]. split; [by right|]. rewrite Hkeys; [done|]. by apply Hlt.
    + intros [[->|Hp] Hk]; [congruence|]. split; [done|].
      rewrite <- Hkeys; [done|]. by apply Hlt.
Qed.

(** [Remove] of a linked node keeps the lookup map in step with the
    list. *)
Lemma map_agrees_Remove (h : list LRU.LRUNode) m (l1 l2 : list nat) (n : nat) :
  lru_list h m (l1 ++ n :: l2) → map_agrees h m (l1 ++ n :: l2) →
  ∃ h' m', LRU.Remove (Some n) (h, m) = (h', m') ∧
    lru_list h' m' (l1 ++ l2) ∧ map_agrees h' m' (l1 ++ l2).
Proof.
  intros Hl Hag.
  destruct (lru_list_Remove _ _ _ _ _ Hl) as (h' & m' & HR & Hl' & _ & Hkey & _ & Hmap).
  exists h', m'. split_and!; [done|done|].
  assert (Hn : n ∈ l1 ++ n :: l2).
  { apply elem_of_app. right. apply list_elem_of_here. }
  destruct (lru_list_get_key _ _ _ _ Hl Hn) as [k Hk].
  rewrite Hk in Hmap.
  assert (Hout : n ∉ l1 ++ l2).
  { destruct Hl as (_ & Hnd & _).
    rewrite <- Permutation_middle in Hnd. by apply NoDup_cons in Hnd as [? _]. }
  assert (Hsub : ∀ p, p ∈ l1 ++ l2 → p ∈ l1 ++ n :: l2).
  { intros p Hp. rewrite <- Permutation_middle. by apply list_elem_of_further. }
  intros k' p. rewrite Hmap, Hkey. split.
  - intros [Hne Hp]%lookup_delete_Some. apply Hag in Hp as [Hp Hk'].
    split; [|done]. rewrite <- Permutation_middle in Hp.
    apply elem_of_cons in Hp as [->|Hp]; [congruence|done].
  - intros [Hp Hk']. apply lookup_delete_Some. split.
    + intros <-. apply Hout.
      assert (Some p = Some n) as [= ->]; [|done].
      rewrite <- (proj2 (Hag k p) (conj (Hsub p Hp) Hk')).
      by apply Hag.
    + apply Hag. split; [by apply Hsub|done].
Qed.

(** [MoveToFront] goes through [Remove], which deletes the key of the
    node from the lookup map, and relinks the node without mapping the
    key again. *)
Lemma MoveToFront_forgets_key (h : list LRU.LRUNode) m (l1 l2 : list nat)
      (a n : nat) (k : string) :
  lru_list h m ((a :: l1) ++ n :: l2) →
  LRU.get_key h n = Some k →
  ∃ h' m', LRU.MoveToFront n (h, m) = (h', m') ∧
    lru_list h' m' (n :: (a :: l1) ++ l2) ∧
    LRU.get_key h' n = Some k ∧
    LRU.GetNode k m' = None.
Proof.
  intros Hl Hk.
  destruct (lru_list_MoveToFront _ _ _ _ _ Hl)
    as (h' & m' & HM & Hl' & _ & Hkey & Hmap).
  exists h', m'. split_and!; [done|done|by rewrite Hkey|].
  unfold LRU.GetNode. rewrite Hmap. simpl. rewrite Hk.
  apply lookup_delete_eq.
Qed.

(** C5, evaluated on the failing input: after [Add("key1")],
    [Add("key2")] and [MoveToFront] of the first node, that node is the
    head of the list while [GetNode("key1")] no longer finds it; the node
    of "key2" is still found. *)
Theorem C5_linked_node_without_map_entry :
  let s0 : list LRU.LRUNode * LRU.LRUManager := ([], LRU.NewLRUManager) in
  let '(s1, n1) := LRU.Add "key1" s0 in
  let '(s2, n2) := LRU.Add "key2" s1 in
  let s3 := LRU.MoveToFront n1 s2 in
  LRU.linked_keys s2 = ["key2"; "key1"] ∧
  LRU.linked_keys s3 = ["key1"; "key2"] ∧
  LRU.head (snd s3) = Some n1 ∧
  LRU.GetNode "key1" (snd s3) = None ∧
  LRU.GetNode "key2" (snd s3) = Some n2.
Proof. vm_compute. done. Qed.

(** C4, evaluated on the failing input (maximum size 2, identifiers as
    the validator renders them): "id-1" and "id-2" are set, [GetByEmail]
    touches "id-1" (promoted: first touch), [Get] touches "id-2", and
    [GetByEmail] touches "id-1" again.  That last touch is a hit but
    leaves "id-1" behind "id-2", and the next [Set] evicts "id-1", the
    entry touched last, instead of "id-2". *)
Theorem C4_GetByEmail_touch_not_promoted :
  let U := λ i a, mkUser (VlessAccount i "" "none") a 0 in
  let c2 := Set_ "id-2" (U "id-2" "b@x") 1 (Set_ "id-1" (U "id-1" "a@x") 0 (NewCache 100 2)) in
  let c3 := fst (GetByEmail "a@x" 2 c2) in
  let c4 := fst (Get "id-2" 3 c3) in
  let '(c5, r) := GetByEmail "a@x" 4 c4 in
  let c6 := Set_ "id-3" (U "id-3" "c@x") 5 c5 in
  recency c2 = ["id-2"; "id-1"] ∧
  recency c3 = ["id-1"; "id-2"] ∧
  recency c4 = ["id-2"; "id-1"] ∧
  r = Some (U "id-1" "a@x") ∧
  recency c5 = ["id-2"; "id-1"] ∧
  usersByID c6 !! "id-1" = None ∧
  is_Some (usersByID c6 !! "id-2") ∧
  is_Some (usersByID c6 !! "id-3").
Proof. vm_compute. split_and!; try done; by eexists. Qed.

(** C6, evaluated on the failing input: "id-1" and "id-2" are set, [Get]
    promotes "id-1" (its key leaves the lookup map), the entries expire,
    and [GetByEmail] meets the expired "id-1".  It reports not-found and
    deletes the entry from both maps, but its node stays linked at the
    head of the recency list: a partial removal. *)
Theorem C6_expired_entry_left_in_lru :
  let U := λ i a, mkUser (VlessAccount i "" "none") a 0 in
  let c2 := Set_ "id-2" (U "id-2" "b@x") 1 (Set_ "id-1" (U "id-1" "a@x") 0 (NewCache 100 2)) in
  let '(c3, r3) := Get "id-1" 2 c2 in
  let '(c4, r4) := GetByEmail "a@x" 200 c3 in
  r3 = Some (U "id-1" "a@x") ∧
  recency c3 = ["id-1"; "id-2"] ∧
  r4 = None ∧
  usersByID c4 !! "id-1" = None ∧
  usersByEmail c4 !! "a@x" = None ∧
  recency c4 = ["id-1"; "id-2"] ∧
  fst (Get "id-1" 200 c3) = Delete "id-1" c3 ∧
  recency (Delete "id-1" c3) = ["id-2"].
Proof. vm_compute. done. Qed.

End lru_defect.

(** ** The cache refines the reference recency list *)
Section refinement.
Import CacheM.
Implicit Types (c : Cache) (st : list (string * Z)) (l : list (nat * (string * Z)))
               (id k : string) (now : Z).

Lemma Inv_New ttl n : n < 2 ^ 31 → Inv (NewCache ttl n) [].
Proof.
  intros Hn. exists []. simpl. split_and!; [done| | | | |done|].
  - apply lru_list_New.
  - intros p k t Hin. by apply not_elem_of_nil in Hin.
  - by apply NoDup_nil.
  - intros k [e He]. by rewrite lookup_empty in He.
  - lia.
Qed.

Lemma Inv_keys c st k : Inv c st → k ∈ fst <$> st ↔ is_Some (usersByID c !! k).
Proof.
  intros (l & -> & _ & Hent & _ & Hcov & _). split; [|apply Hcov].
  intros ([k' t] & -> & ([p [k'' t']] & [= -> ->] & Hin)%list_elem_of_fmap)%list_elem_of_fmap.
  destruct (Hent _ _ _ Hin) as (_ & u & Hu). simpl. by eexists.
Qed.

Lemma Inv_size c st : Inv c st → size (usersByID c) = length st.
Proof.
  intros HI. pose proof HI as (l & _ & _ & _ & Hnd & _).
  rewrite <- size_dom, <- (length_fmap fst st).
  rewrite <- (size_list_to_set (C := gset string) (fst <$> st)) by done.
  f_equal. apply set_eq. intros k.
  rewrite elem_of_dom, elem_of_list_to_set. symmetry. by apply Inv_keys.
Qed.

Lemma omap_get_key (h : list LRU.LRUNode) l :
  (∀ p k t, (p, (k, t)) ∈ l → LRU.get_key h p = Some k) →
  omap (LRU.get_key h) (fst <$> l) = fst <$> (snd <$> l).
Proof.
  induction l as [|[p [k t]] l IH]; intros Hk; [done|].
  simpl. rewrite (Hk p k t) by apply list_elem_of_here. simpl.
  f_equal. apply IH. intros p' k' t' Hin. eapply Hk. by apply list_elem_of_further.
Qed.

(** The recency list of the cache reads as the reference list. *)
Lemma Inv_recency c st : Inv c st → recency c = fst <$> st.
Proof.
  intros (l & -> & Hl & Hent & _). unfold recency, LRU.linked_keys.
  rewrite (lru_list_linked _ _ _ Hl). simpl. apply omap_get_key.
  intros p k t Hin. by destruct (Hent _ _ _ Hin).
Qed.

Lemma int32_small x : - 2 ^ 31 ≤ x < 2 ^ 31 → int32 x = x.
Proof. intros Hx. unfold int32. rewrite Z.mod_small; lia. Qed.

Lemma removelast_snoc {A} (l : list A) x : removelast (l ++ [x]) = l.
Proof. apply removelast_last. Qed.

(** The eviction step drops the last entry of the reference list when
    the list has reached the maximum size. *)
Lemma Inv_evict c st :
  Inv c st →
  let st1 := if (0 <? maxSize c) && (maxSize c <=? Z.of_nat (length st))
             then removelast st else st in
  Inv (evict c) st1 ∧
  (0 < maxSize c → Z.of_nat (length st1) < maxSize c) ∧
  ttl (evict c) = ttl c ∧ maxSize (evict c) = maxSize c.
Proof.
  intros HI st1. pose proof (Inv_size _ _ HI) as Hsz.
  destruct HI as (l & -> & Hl & Hent & Hnd & Hcov & Hmax & Hbound).
  unfold evict. rewrite Hsz. subst st1.
  destruct (0 <? maxSize c) eqn:Epos; simpl.
  2:{ split_and!; [|apply Z.ltb_ge in Epos; lia|done|done].
      exists l. by split_and!. }
  apply Z.ltb_lt in Epos. specialize (Hbound Epos).
  rewrite int32_small by lia.
  destruct (maxSize c <=? Z.of_nat (length (snd <$> l))) eqn:Efull.
  2:{ apply Z.leb_gt in Efull. split_and!; [|lia|done|done].
      exists l. by split_and!. }
  apply Z.leb_le in Efull.
  destruct (decide (l = [])) as [->|Hne]; [simpl in *; lia|].
  destruct (exists_last Hne) as (l' & [t [k e]] & ->).
  rewrite fmap_app in Hl. simpl in Hl.
  pose proof Hl as (_ & _ & _ & Htl). rewrite Htl, last_snoc.
  destruct (Hent t k e) as (Hk & u & Hu).
  { apply elem_of_app. right. apply list_elem_of_here. }
  rewrite Hk, Hu.
  destruct (lru_list_RemoveTail _ _ _ _ Hl) as (h' & m' & -> & Hl' & _ & Hkey & _).
  rewrite !fmap_app in Hnd. simpl in Hnd.
  apply NoDup_app in Hnd as (Hnd' & Hdisj & _).
  rewrite fmap_app. simpl. rewrite removelast_snoc.
  split_and!; simpl; [|rewrite fmap_app, length_app in *; simpl in *; lia|done|done].
  exists l'. split_and!; simpl; try done.
  - intros p k' t' Hin. destruct (Hent p k' t') as (Hk' & u' & Hu').
    { apply elem_of_app. by left. }
    rewrite Hkey. split; [done|]. exists u'.
    rewrite lookup_delete_ne; [done|]. intros <-.
    apply (Hdisj k); [|apply list_elem_of_here].
    apply list_elem_of_fmap. exists (k, t'). split; [done|].
    apply list_elem_of_fmap. by exists (p, (k, t')).
  - intros k' [e' He']. destruct (decide (k = k')) as [<-|Hkk].
    { by rewrite lookup_delete_eq in He'. }
    rewrite lookup_delete_ne in He' by done.
    specialize (Hcov k' (ex_intro _ e' He')).
    rewrite !fmap_app in Hcov. simpl in Hcov.
    apply elem_of_app in Hcov as [Hc|Hc]; [done|].
    apply list_elem_of_singleton in Hc. congruence.
  - rewrite fmap_app, length_app in Hbound. simpl in Hbound. lia.
Qed.

Lemma elem_of_removelast {A} (l : list A) x : x ∈ removelast l → x ∈ l.
Proof.
  destruct (decide (l = [])) as [->|Hne]; [done|].
  destruct (exists_last Hne) as (l' & y & ->). rewrite removelast_snoc.
  intros Hx. apply elem_of_app. by left.
Qed.

(** [Set] of an identifier that is not resident refines the reference
    step. *)
Lemma Inv_Set c st id u now :
  Inv c st → id ∉ fst <$> st →
  Inv (Set_ id u now c) (ref_step (maxSize c) (ttl c) (OpSet id u now) st) ∧
  ttl (Set_ id u now c) = ttl c ∧ maxSize (Set_ id u now c) = maxSize c.
Proof.
  intros HI Hfresh. destruct (Inv_evict c st HI) as (HI1 & Hlt & Httl & Hmax).
  simpl in HI1, Hlt. unfold ref_step.
  set (st1 := if (0 <? maxSize c) && (maxSize c <=? Z.of_nat (length st))
              then removelast st else st) in *.
  assert (Hfresh1 : id ∉ fst <$> st1).
  { subst st1. destruct (_ && _); [|done].
    intros ([k t] & -> & Hin)%list_elem_of_fmap. apply Hfresh.
    apply list_elem_of_fmap. exists (k, t). split; [done|].
    by apply elem_of_removelast. }
  destruct (Set_unfold id u now c) as (h & m & HA & ->). simpl.
  split; [|done].
  destruct HI1 as (l1 & Hst1 & Hl & Hent & Hnd & Hcov & Hmax' & Hbound).
  destruct (lru_list_Add _ _ _ id Hl) as (h' & m' & HA' & Hl' & _ & Hkn & Hkeys & _).
  rewrite HA in HA'. injection HA' as <- <-.
  exists ((length (mem (evict c)), (id, now + ttl c)) :: l1).
  split_and!; simpl.
  - by rewrite Hst1.
  - done.
  - intros p k t [[= -> -> ->]|Hin]%elem_of_cons.
    + split; [done|]. exists u. by rewrite lookup_insert_eq.
    + destruct (Hent p k t Hin) as (Hk & u' & Hu'). split.
      * rewrite Hkeys; [done|]. destruct Hl as (Hseg & _).
        eapply dseg_lt; [done|]. apply list_elem_of_fmap. by exists (p, (k, t)).
      * exists u'. rewrite lookup_insert_ne; [done|]. intros <-.
        apply Hfresh1. rewrite Hst1. apply list_elem_of_fmap.
        exists (id, t). split; [done|]. apply list_elem_of_fmap.
        by exists (p, (id, t)).
  - by apply NoDup_cons.
  - intros k [e He]. destruct (decide (id = k)) as [<-|Hne].
    + apply list_elem_of_here.
    + rewrite lookup_insert_ne in He by done.
      apply list_elem_of_further, Hcov. by eexists.
  - lia.
  - intros Hpos. specialize (Hlt Hpos). lia.
Qed.

Lemma ref_find st1 st2 id t :
  id ∉ fst <$> st1 →
  list_find (λ kv : string * Z, fst kv = id) (st1 ++ (id, t) :: st2)
  = Some (length st1, (id, t)).
Proof.
  intros Hid. apply list_find_Some. split_and!.
  - by apply list_lookup_middle.
  - done.
  - intros j [k' t'] Hj Hlt Hk. simpl in Hk. subst k'. apply Hid.
    rewrite lookup_app_l in Hj by done.
    apply list_elem_of_fmap. exists (id, t'). split; [done|].
    apply list_elem_of_lookup. by exists j.
Qed.

Lemma ref_find_None st id :
  id ∉ fst <$> st → list_find (λ kv : string * Z, fst kv = id) st = None.
Proof.
  intros Hid. apply list_find_None, Forall_forall. intros [k t] Hin Hk.
  simpl in Hk. subst k. apply Hid, list_elem_of_fmap. by exists (id, t).
Qed.

Lemma ref_filter st1 st2 id t :
  id ∉ fst <$> st1 → id ∉ fst <$> st2 →
  filter (λ kv : string * Z, fst kv ≠ id) (st1 ++ (id, t) :: st2) = st1 ++ st2.
Proof.
  intros H1 H2.
  assert (Hid : ∀ st, id ∉ fst <$> st →
                      filter (λ kv : string * Z, fst kv ≠ id) st = st).
  { induction st as [|[k t'] st IH]; [done|]. simpl.
    intros [Hk Hst]%not_elem_of_cons.
    rewrite filter_cons_True by (simpl; congruence). by rewrite IH. }
  rewrite filter_app, filter_cons_False by (simpl; intros Hne; by apply Hne).
  by rewrite !Hid.
Qed.

(** [Get] refines the reference step: a miss changes nothing, an expired
    entry is dropped, a live entry moves to the front. *)
Lemma Inv_Get c st id now n ttl' :
  Inv c st →
  Inv (fst (Get id now c)) (ref_step n ttl' (OpGet id now) st) ∧
  ttl (fst (Get id now c)) = ttl c ∧ maxSize (fst (Get id now c)) = maxSize c.
Proof.
  intros HI. destruct (usersByID c !! id) as [e|] eqn:Eid.
  2:{ assert (Hid : id ∉ fst <$> st).
      { intros Hin. apply (Inv_keys _ _ _ HI) in Hin as [e He]. congruence. }
      unfold Get, ref_step. rewrite Eid, (ref_find_None _ _ Hid). done. }
  destruct HI as (l & -> & Hl & Hent & Hnd & Hcov & Hmax & Hbound).
  assert (Hin : id ∈ fst <$> (snd <$> l)) by (apply Hcov; by eexists).
  apply list_elem_of_fmap in Hin as ([k t] & -> & Hin). simpl in Eid.
  apply list_elem_of_fmap in Hin as ([p [k' t']] & [= <- <-] & Hin).
  apply list_elem_of_split in Hin as (la & lb & ->).
  destruct (Hent p k t) as (Hk & u & Hu).
  { apply elem_of_app. right. apply list_elem_of_here. }
  rewrite Eid in Hu. injection Hu as ->.
  rewrite !fmap_app, !fmap_cons in Hnd. rewrite fmap_app, fmap_cons in Hl.
  simpl in Hnd, Hl.
  assert (Hnd' : NoDup (k :: (fst <$> (snd <$> la)) ++ (fst <$> (snd <$> lb)))).
  { by rewrite Permutation_middle. }
  apply NoDup_cons in Hnd' as [Hk' Hnd'].
  apply not_elem_of_app in Hk' as [Hka Hkb].
  simpl. unfold Get, ref_step. rewrite Eid. cbn [lruNode ExpiresAt User_].
  rewrite !fmap_app, !fmap_cons. cbn [fst snd].
  rewrite (ref_find _ _ _ _ Hka), (ref_filter _ _ _ _ Hka Hkb).
  unfold After. destruct (t <? now) eqn:Et.
  - destruct (lru_list_Remove _ _ _ _ _ Hl) as (h' & m' & -> & Hl' & _ & Hkey & _).
    simpl. split; [|done]. exists (la ++ lb). split_and!; simpl.
    + by rewrite fmap_app.
    + by rewrite fmap_app.
    + intros p' k1 t1 Hin. destruct (Hent p' k1 t1) as (Hk1 & u1 & Hu1).
      { apply elem_of_app in Hin as [Hin|Hin]; apply elem_of_app;
          [by left|right; by apply list_elem_of_further]. }
      rewrite Hkey. split; [done|]. exists u1.
      rewrite lookup_delete_ne; [done|]. intros <-.
      apply elem_of_app in Hin as [Hin|Hin]; [apply Hka|apply Hkb];
        apply list_elem_of_fmap; exists (k, t1); (split; [done|]);
        apply list_elem_of_fmap; by exists (p', (k, t1)).
    + by rewrite !fmap_app.
    + intros k1 [e1 He1]. destruct (decide (k = k1)) as [<-|Hne].
      { by rewrite lookup_delete_eq in He1. }
      rewrite lookup_delete_ne in He1 by done.
      specialize (Hcov k1 (ex_intro _ e1 He1)).
      rewrite !fmap_app, !fmap_cons in Hcov. simpl in Hcov.
      rewrite !fmap_app.
      apply elem_of_app in Hcov as [Hc|[Hc|Hc]%elem_of_cons];
        [apply elem_of_app; by left|congruence|apply elem_of_app; by right].
    + done.
    + intros Hpos. specialize (Hbound Hpos).
      rewrite fmap_app, length_app, fmap_cons in Hbound.
      rewrite ?fmap_app, ?length_app. simpl in *. lia.
  - destruct (lru_list_MoveToFront _ _ _ _ _ Hl) as (h' & m' & -> & Hl' & _ & Hkey & _).
    simpl. split; [|done]. exists ((p, (k, t)) :: la ++ lb). split_and!; simpl.
    + by rewrite fmap_app.
    + by rewrite fmap_app.
    + intros p' k1 t1 Hin. destruct (Hent p' k1 t1) as (Hk1 & u1 & Hu1).
      { rewrite <- Permutation_middle. done. }
      rewrite Hkey. split; [done|]. by exists u1.
    + rewrite !fmap_app. apply NoDup_cons. split; [|done].
      by apply not_elem_of_app.
    + intros k1 Hk1. specialize (Hcov k1 Hk1).
      rewrite !fmap_app, !fmap_cons in Hcov. simpl in Hcov.
      rewrite !fmap_app. by rewrite <- Permutation_middle in Hcov.
    + done.
    + intros Hpos. specialize (Hbound Hpos).
      rewrite fmap_app, length_app, fmap_cons in Hbound.
      rewrite ?fmap_app, ?length_app. simpl in *. lia.
Qed.

Lemma Inv_run ops : ∀ c st,
  Inv c st → fresh_sets (maxSize c) (ttl c) ops st →
  Inv (run ops c) (ref_run (maxSize c) (ttl c) ops st).
Proof.
  induction ops as [|o ops IH]; intros c st HI Hfresh; [done|].
  destruct Hfresh as [Ho Hfresh]. unfold run, ref_run. simpl.
  destruct o as [id u now|id now]; simpl.
  - destruct (Inv_Set c st id u now HI Ho) as (HI' & Ht & Hm).
    specialize (IH _ _ HI'). rewrite Ht, Hm in IH. by apply IH.
  - destruct (Inv_Get c st id now (maxSize c) (ttl c) HI) as (HI' & Ht & Hm).
    specialize (IH _ _ HI'). rewrite Ht, Hm in IH. by apply IH.
Qed.



Lemma fresh_sets_app n ttl0 ops1 ops2 : ∀ st,
  fresh_sets n ttl0 (ops1 ++ ops2) st ↔
  fresh_sets n ttl0 ops1 st ∧ fresh_sets n ttl0 ops2 (ref_run n ttl0 ops1 st).
Proof.
  induction ops1 as [|o ops1 IH]; intros st; simpl.
  - unfold ref_run. simpl. tauto.
  - rewrite IH. unfold ref_run. simpl. tauto.
Qed.

Lemma run_snoc ops o c : run (ops ++ [o]) c = step o (run ops c).
Proof. unfold run. by rewrite foldl_app. Qed.







End refinement.

(** ** The theorems at concrete inputs *)
Section instances.
Import CacheM.

(** The mock store pages through the records it holds. *)
Lemma Mock_paging :
  paging (λ m : Mock.MockUserStorage, snd <$> map_to_list (Mock.users m)).
Proof.
  intros st offset limit _ _. simpl. unfold Mock.GetUsers, page.
  destruct (take _ _) as [|u l] eqn:E; eexists _, _; by split_and!.
Qed.

(** [C1_round_trip] at the first sample record, set at time 0 with a TTL of
    10 and read back at time 3. *)
Lemma C1_round_trip_witness :
  let R := sample_user 1 in
  let c1 := Set_ "id-1" R 0 (NewCache 10 100) in
  3 ≤ 0 + ttl (NewCache 10 100) ∧
  is_Some (vless_id (Account_ R)) ∧
  Get "id-1" 3 c1 = (c1, Some R) ∧
  snd (GetByEmail (Email R) 3 c1) = Some R ∧
  snd (GetByEmail (Email R) 3 (fst (Get "id-1" 3 c1))) = Some R.
Proof.
  intros R c1.
  assert (Ht : 3 ≤ 0 + ttl (NewCache 10 100)) by (simpl; lia).
  assert (Hv : is_Some (vless_id (Account_ R))) by (by eexists).
  destruct (C1_round_trip (NewCache 10 100) "id-1" R 0 3 3 Ht Ht) as [HG HE].
  destruct (HE Hv) as [HE1 HE2].
  by split_and!.
Defined.




(** [C8_read_errors_collapse] on a store whose connection is lost. *)
Lemma C8_read_errors_collapse_witness :
  let v := Validator.NewValidator
             (Failing.mkFailing (ConnectionError "database connection error"))
             (Some (Validator.mkSettings 300 100)) in
  Storage.GetUserByID "id-1" (Validator.storage v)
    = (Validator.storage v, (None, Some (ConnectionError "database connection error"))) ∧
  snd (Validator.Get "id-1" 0 0 v) = None ∧
  snd (Validator.GetByEmail "user1@example.com" 0 0 v) = None.
Proof.
  intros v.
  destruct (C8_read_errors_collapse v 0 0) as (H1 & H2 & _).
  split_and!; [done| |].
  - by apply (H1 "id-1" (Validator.storage v) None
                 (ConnectionError "database connection error")).
  - by apply (H2 "user1@example.com" (Validator.storage v) None
                 (ConnectionError "database connection error")).
Defined.

(** [C9_GetAll_pages] on the mock store holding 101 records (two pages), and
    on a store whose first request fails. *)
Lemma C9_GetAll_pages_witness :
  let v := Validator.NewValidator (sample_store 101) None in
  let vf := Validator.NewValidator
              (Failing.mkFailing (QueryError "database query error")) None in
  size (Mock.users (sample_store 101)) = 101%nat ∧
  (∃ v' r, Validator.GetAll 2 0 v = Some (v', r) ∧ len r = 101) ∧
  (∃ fuel0, ∀ fuel, (fuel0 ≤ fuel)%nat →
     Validator.GetAll fuel 0 vf = Some (vf, None)).
Proof.
  intros v vf. split; [by vm_compute|].
  destruct (C9_GetAll_pages v 0 eq_refl) as [H1 _].
  destruct (C9_GetAll_pages vf 0 eq_refl) as [_ H2].
  split.
  - destruct (H1 (λ m : Mock.MockUserStorage, snd <$> map_to_list (Mock.users m))
                 2%nat Mock_paging) as (v' & r & HG & Hr & _).
    + by vm_compute.
    + vm_compute. lia.
    + exists v', r. split; [done|]. unfold len. rewrite Hr. by vm_compute.
  - apply (H2 (Validator.storage vf) 0 None (Validator.storage vf) None
              (QueryError "database query error")).
    + apply full_pages_none.
    + done.
Defined.

(** [C10_nil_record_not_backfilled] for an identifier that neither the cache
    nor the mock store knows. *)
Lemma C10_nil_record_not_backfilled_witness :
  let c := Set_ "id-1" (sample_user 1) 0 (NewCache 300 100) in
  let v := {| Validator.storage := sample_store 0; Validator.cache := Some c |} in
  Storage.GetUserByID "id-2" (Validator.storage v) = (sample_store 0, (None, None)) ∧
  usersByID c !! "id-2" = None ∧
  Validator.Get "id-2" 1 1 v = (v, None).
Proof.
  intros c v.
  assert (Hst : Storage.GetUserByID "id-2" (Validator.storage v)
                = (sample_store 0, (None, None))) by done.
  assert (Hc : usersByID c !! "id-2" = None) by (by vm_compute).
  destruct (C10_nil_record_not_backfilled v 1 1) as (H1 & _ & H3).
  destruct (H3 c "id-2") as ((_ & _ & Hsame) & _).
  split_and!; [done|done|].
  rewrite (H1 "id-2" (sample_store 0)); [|by vm_compute|done].
  simpl. unfold uuid_String. by rewrite (Hsame Hc).
Defined.

(** C10, the claim as stated fails: the store returns a nil record and a
    nil error, [Get] returns nil, and yet the cache is not left as it
    was, because the cache lookup of that call purged the expired entry
    of "id-1". *)
Lemma C10_counterexample :
  let c := Set_ "id-1" (sample_user 1) 0 (NewCache 5 100) in
  let v := {| Validator.storage := sample_store 0; Validator.cache := Some c |} in
  Storage.GetUserByID "id-1" (Validator.storage v) = (sample_store 0, (None, None)) ∧
  snd (Validator.Get "id-1" 10 10 v) = None ∧
  ((λ c, size (usersByID c)) <$> Validator.cache v) = Some 1%nat ∧
  ((λ c, size (usersByID c)) <$> Validator.cache (fst (Validator.Get "id-1" 10 10 v)))
    = Some 0%nat ∧
  Validator.cache (fst (Validator.Get "id-1" 10 10 v)) ≠ Validator.cache v.
Proof.
  intros c v. split_and!; by vm_compute.
Qed.

End instances.

(** ** Deleting from the cache *)
Section cache_delete.
Import CacheM.
Implicit Types (c : Cache) (id email k : string) (now : Z).

Lemma Delete_missing c id : usersByID c !! id = None → Delete id c = c.
Proof. intros Hid. unfold Delete. by rewrite Hid. Qed.

(** What [Delete] leaves of an entry whose node is linked. *)
Lemma Delete_present c id (e : User) (l : list nat) :
  usersByID c !! id = Some e →
  lru_list (mem c) (lru c) l →
  (∀ n, lruNode e = Some n → n ∈ l) →
  usersByID (Delete id c) = delete id (usersByID c) ∧
  usersByEmail (Delete id c) = delete (Email (User_ e)) (usersByEmail c) ∧
  ttl (Delete id c) = ttl c ∧ maxSize (Delete id c) = maxSize c ∧
  ∀ n, lruNode e = Some n →
    lru_list (mem (Delete id c)) (lru (Delete id c)) (filter (λ p, p ≠ n) l) ∧
    (n ∉ LRU.linked (mem (Delete id c), lru (Delete id c))).
Proof.
  intros Hid Hl Hin. unfold Delete. rewrite Hid.
  destruct (lruNode e) as [n|] eqn:En.
  - destruct (list_elem_of_split l n (Hin n eq_refl)) as (l1 & l2 & ->).
    pose proof Hl as (_ & Hnd & _).
    destruct (lru_list_Remove _ _ _ _ _ Hl) as (h' & m' & -> & Hl' & _).
    simpl. split_and!; try done. intros n' [= <-].
    rewrite filter_ne_NoDup by done. split; [done|].
    rewrite (lru_list_linked _ _ _ Hl').
    rewrite <- Permutation_middle in Hnd. by apply NoDup_cons in Hnd as [? _].
  - simpl. by split_and!.
Qed.

(** X1: [Cache.Delete].  Deleting an identifier that is not in the cache
    changes nothing.  Deleting a resident entry whose node is linked on the
    recency list removes it from the by-identifier map, removes its alias
    from the by-alias map and unlinks its node, so that afterwards [Get] of
    the identifier and [GetByEmail] of the alias report not-found at any
    time.  The lazy expiry of [Get] is this same removal. *)
Theorem X1_Delete_removes_entry c id (e : User) (l : list nat) :
  (usersByID c !! id = None → Delete id c = c) ∧
  (usersByID c !! id = Some e →
   lru_list (mem c) (lru c) l →
   (∀ n, lruNode e = Some n → n ∈ l) →
   usersByID (Delete id c) = delete id (usersByID c) ∧
   usersByEmail (Delete id c) = delete (Email (User_ e)) (usersByEmail c) ∧
   (∀ n, lruNode e = Some n →
      lru_list (mem (Delete id c)) (lru (Delete id c)) (filter (λ p, p ≠ n) l)) ∧
   (∀ now, Get id now (Delete id c) = (Delete id c, None) ∧
           GetByEmail (Email (User_ e)) now (Delete id c) = (Delete id c, None))) ∧
  (∀ now, usersByID c !! id = Some e → ExpiresAt e < now →
          fst (Get id now c) = Delete id c).
Proof.
  split_and!.
  - apply Delete_missing.
  - intros Hid Hl Hin.
    destruct (Delete_present c id e l Hid Hl Hin) as (HI & HE & _ & _ & Hn).
    split_and!; [done|done|intros n En; by destruct (Hn n En)|].
    intros now. unfold Get, GetByEmail. rewrite HI, HE, !lookup_delete_eq. done.
  - intros now Hid Hexp. unfold Get, Delete. rewrite Hid.
    apply After_true in Hexp. rewrite Hexp.
    by destruct (match lruNode e with Some _ => _ | None => _ end).
Qed.

(** [Delete] refines dropping the identifier from the reference list. *)
Lemma Inv_Delete c (st : list (string * Z)) id :
  Inv c st → Inv (Delete id c) (filter (λ kv : string * Z, fst kv ≠ id) st).
Proof.
  intros HI. destruct (usersByID c !! id) as [e|] eqn:Eid.
  - pose proof (Inv_Get c st id (ExpiresAt e + 1) 0 0 HI) as (HI' & _).
    assert (HD : fst (Get id (ExpiresAt e + 1) c) = Delete id c).
    { unfold Get, Delete. rewrite Eid.
      assert (Hexp : After (ExpiresAt e + 1) (ExpiresAt e) = true)
        by (apply After_true; lia).
      rewrite Hexp.
      by destruct (match lruNode e with Some _ => _ | None => _ end). }
    rewrite HD in HI'.
    destruct HI as (l & -> & _ & Hent & Hnd & Hcov & _).
    assert (Hin : id ∈ fst <$> (snd <$> l)) by (apply Hcov; by eexists).
    apply list_elem_of_fmap in Hin as ([k t] & Hk & Hin). simpl in Hk. subst k.
    apply list_elem_of_fmap in Hin as ([p [k' t']] & [= <- <-] & Hin).
    destruct (Hent p id t Hin) as (_ & u & Hu). rewrite Eid in Hu.
    injection Hu as ->.
    apply list_elem_of_split in Hin as (la & lb & ->).
    rewrite !fmap_app, !fmap_cons in Hnd. simpl in Hnd.
    rewrite <- Permutation_middle in Hnd.
    apply NoDup_cons in Hnd as [[Ha Hb]%not_elem_of_app _].
    unfold ref_step in HI'. simpl in HI'.
    rewrite !fmap_app, !fmap_cons in HI'. simpl in HI'.
    rewrite (ref_find _ _ _ _ Ha), (ref_filter _ _ _ _ Ha Hb) in HI'.
    replace (t <? t + 1) with true in HI' by (symmetry; apply Z.ltb_lt; lia).
    rewrite !fmap_app, !fmap_cons. simpl.
    by rewrite (ref_filter _ _ _ _ Ha Hb).
  - rewrite (Delete_missing _ _ Eid).
    assert (Hid : id ∉ fst <$> st).
    { intros Hin. apply (Inv_keys _ _ _ HI) in Hin as [e He]. congruence. }
    replace (filter (λ kv : string * Z, fst kv ≠ id) st) with st; [done|].
    clear -Hid. induction st as [|[k t] st IH]; [done|].
    simpl in Hid. apply not_elem_of_cons in Hid as [Hk Hst].
    rewrite filter_cons_True by (simpl; congruence). by rewrite <- IH.
Qed.

(** X2: [Cache.Delete] on a cache built by a run of [Set]s (identifiers
    not resident when set) and [Get]s from the empty cache: the identifier
    leaves the recency order, the order of the others is kept, and exactly
    the other entries stay resident. *)
Theorem X2_Delete_refines n ttl0 ops id :
  n < 2 ^ 31 → fresh_sets n ttl0 ops [] →
  let st := filter (λ kv : string * Z, fst kv ≠ id) (ref_run n ttl0 ops []) in
  let c := Delete id (run ops (NewCache ttl0 n)) in
  recency c = fst <$> st ∧
  (∀ k, is_Some (usersByID c !! k) ↔ k ∈ fst <$> st) ∧
  size (usersByID c) = length st ∧
  usersByID c !! id = None.
Proof.
  intros Hn Hfresh st c.
  assert (HI : Inv c st).
  { apply Inv_Delete.
    apply (Inv_run ops (NewCache ttl0 n) []); [by apply Inv_New|done]. }
  split_and!.
  - by apply Inv_recency.
  - intros k. symmetry. by apply Inv_keys.
  - by apply Inv_size.
  - apply eq_None_not_Some. rewrite <- (Inv_keys _ _ _ HI).
    intros ([k t] & -> & [Hne _]%list_elem_of_filter)%list_elem_of_fmap. done.
Qed.

End cache_delete.

(** ** Deleting by alias *)
Section cache_delete_by_email.
Import CacheM.
Implicit Types (c : Cache) (id email uuid k : string) (now : Z).

(** X3: [Cache.DeleteByEmail].  Deleting an alias that is not in the cache
    changes nothing.  For an entry whose record has a VLESS account, the
    alias and the rendered identifier of the account are removed from the
    two maps, so that afterwards [GetByEmail] of the alias and [Get] of
    that identifier report not-found at any time; and when the entry is
    the one stored under that identifier and its record carries the alias,
    [DeleteByEmail] does exactly what [Delete] of the identifier does. *)
Theorem X3_DeleteByEmail_removes_entry c email (e : User) uuid :
  (usersByEmail c !! email = None → DeleteByEmail email c = c) ∧
  (usersByEmail c !! email = Some e →
   vless_id (Account_ (User_ e)) = Some uuid →
   usersByEmail (DeleteByEmail email c) = delete email (usersByEmail c) ∧
   usersByID (DeleteByEmail email c) = delete uuid (usersByID c) ∧
   (∀ now, GetByEmail email now (DeleteByEmail email c) = (DeleteByEmail email c, None) ∧
           Get uuid now (DeleteByEmail email c) = (DeleteByEmail email c, None)) ∧
   (usersByID c !! uuid = Some e → Email (User_ e) = email →
    DeleteByEmail email c = Delete uuid c)).
Proof.
  split.
  - intros He. unfold DeleteByEmail. by rewrite He.
  - intros He Hv.
    assert (HD : ∃ h m, DeleteByEmail email c =
              {| mem := h; usersByID := delete uuid (usersByID c);
                 usersByEmail := delete email (usersByEmail c);
                 lru := m; ttl := ttl c; maxSize := maxSize c |} ∧
              (h, m) = match lruNode e with
                       | Some n => LRU.Remove (Some n) (mem c, lru c)
                       | None => (mem c, lru c)
                       end).
    { unfold DeleteByEmail. rewrite He, Hv.
      destruct (match lruNode e with Some _ => _ | None => _ end) as [h m].
      by exists h, m. }
    destruct HD as (h & m & HD & Hhm). split_and!.
    + by rewrite HD.
    + by rewrite HD.
    + intros now. rewrite HD. unfold GetByEmail, Get. simpl.
      by rewrite !lookup_delete_eq.
    + intros Hid Hem. rewrite HD. unfold Delete. rewrite Hid, <- Hhm, Hem. done.
Qed.

(** X4: the fallback of [Cache.DeleteByEmail].  When the record found
    under the alias has no VLESS account, the by-identifier map is scanned
    for an entry whose record carries the alias: if there is one, exactly
    one such entry is deleted; if there is none, the map is left as it
    is.  The alias itself is deleted in both cases. *)
Theorem X4_DeleteByEmail_fallback c email (e : User) :
  usersByEmail c !! email = Some e →
  vless_id (Account_ (User_ e)) = None →
  usersByEmail (DeleteByEmail email c) = delete email (usersByEmail c) ∧
  ((∃ k (e' : User), usersByID c !! k = Some e' ∧ Email (User_ e') = email ∧
      usersByID (DeleteByEmail email c) = delete k (usersByID c) ∧
      size (usersByID (DeleteByEmail email c)) = pred (size (usersByID c))) ∨
   ((∀ k (e' : User), usersByID c !! k = Some e' → Email (User_ e') ≠ email) ∧
    usersByID (DeleteByEmail email c) = usersByID c)).
Proof.
  intros He Hv. unfold DeleteByEmail. rewrite He, Hv.
  destruct (match lruNode e with Some _ => _ | None => _ end) as [h m].
  simpl. split; [done|].
  destruct (list_find _ _) as [[i [k e']]|] eqn:Ef.
  - left. apply list_find_Some in Ef as (Hi & Hem & _). simpl in Hem.
    assert (Hk : usersByID c !! k = Some e').
    { apply elem_of_map_to_list, list_elem_of_lookup. by exists i. }
    exists k, e'. split_and!; [done|done|done|].
    apply map_size_delete_Some. by eexists.
  - right. split; [|done]. intros k e' Hk Hem.
    apply list_find_None in Ef. rewrite Forall_forall in Ef.
    apply (Ef (k, e')); [|done]. by apply elem_of_map_to_list.
Qed.

End cache_delete_by_email.

(** ** Clearing, counting and listing *)
Section cache_snapshot.
Import CacheM.
Implicit Types (c : Cache) (id email uuid k : string) (now : Z).




Lemma length_filter_mono {A} (P Q : A → Prop) `{∀ x, Decision (P x)}
      `{∀ x, Decision (Q x)} (l : list A) :
  (∀ x, P x → Q x) → (length (filter P l) ≤ length (filter Q l))%nat.
Proof.
  intros HPQ. induction l as [|x l IH]; [done|].
  destruct (decide (P x)) as [HP|HP].
  - rewrite (filter_cons_True P) by done.
    rewrite (filter_cons_True Q) by auto. simpl. lia.
  - rewrite (filter_cons_False P) by done.
    destruct (decide (Q x)).
    + rewrite (filter_cons_True Q) by done. simpl. lia.
    + by rewrite (filter_cons_False Q).
Qed.

Lemma elems_GetAll c now :
  elems (GetAll now c) = (λ kv : string * User, User_ (snd kv)) <$> live now c.
Proof. unfold GetAll. by destruct (live now c). Qed.

(** X6: [Cache.GetCount] and [Cache.GetAll].  The count is the length of
    the listing, which is nil exactly when the count is zero; the listing
    holds exactly the records of the entries that have not expired, so the
    count is at most the number of resident entries and can only fall as
    time passes. *)
Theorem X6_GetCount_GetAll c now :
  GetCount now c = len (GetAll now c) ∧
  (GetAll now c = None ↔ GetCount now c = 0) ∧
  0 ≤ GetCount now c ≤ Z.of_nat (size (usersByID c)) ∧
  (∀ u, u ∈ elems (GetAll now c) ↔
        ∃ k (e : User), usersByID c !! k = Some e ∧ now ≤ ExpiresAt e ∧ User_ e = u) ∧
  (∀ now', now ≤ now' → GetCount now' c ≤ GetCount now c).
Proof.
  assert (Hlen : GetCount now c = len (GetAll now c)).
  { unfold GetCount, GetAll, len. destruct (live now c) eqn:E; [done|].
    simpl. by rewrite length_fmap. }
  split_and!.
  - done.
  - unfold GetCount, GetAll. destruct (live now c); simpl; split; try done; lia.
  - unfold GetCount. lia.
  - unfold GetCount, live.
    rewrite <- length_map_to_list. apply inj_le, length_filter.
  - intros u. rewrite elems_GetAll, list_elem_of_fmap. split.
    + intros ([k e] & -> & [He Hlive]%elem_of_live). by exists k, e.
    + intros (k & e & He & Hlive & <-). exists (k, e). split; [done|].
      by apply elem_of_live.
  - intros now' Hle. unfold GetCount, live. apply inj_le.
    apply length_filter_mono. intros [k e]. simpl.
    rewrite !After_false. lia.
Qed.

(** X7: the two access paths agree while the node is mapped.  When the
    entry found under the alias is the entry stored under the rendered
    identifier of its account, its record carries the alias, and the
    lookup map of the LRU index still maps that identifier to the node of
    the entry, [GetByEmail] of the alias does exactly what [Get] of the
    identifier does: same answer, same maps, same recency list.  This is
    the case right after [Set] under the rendered identifier. *)
Theorem X7_GetByEmail_agrees_with_Get :
  (∀ c email uuid (e : User) now,
      usersByEmail c !! email = Some e →
      usersByID c !! uuid = Some e →
      vless_id (Account_ (User_ e)) = Some uuid →
      Email (User_ e) = email →
      LRU.GetNode uuid (lru c) = lruNode e →
      GetByEmail email now c = Get uuid now c) ∧
  (∀ c id R now now',
      vless_id (Account_ R) = Some id →
      GetByEmail (Email R) now' (Set_ id R now c) = Get id now' (Set_ id R now c)).
Proof.
  assert (H1 : ∀ c email uuid (e : User) now,
      usersByEmail c !! email = Some e →
      usersByID c !! uuid = Some e →
      vless_id (Account_ (User_ e)) = Some uuid →
      Email (User_ e) = email →
      LRU.GetNode uuid (lru c) = lruNode e →
      GetByEmail email now c = Get uuid now c).
  { intros c email uuid e now He Hid Hv Hem Hnode.
    unfold GetByEmail, Get. rewrite He, Hid, Hv, Hnode, Hem. done. }
  split; [done|].
  intros c id R now now' Hv.
  destruct (Set_unfold id R now c) as (h & m & HA & HS).
  destruct (Add_head id (mem (evict c), lru (evict c))) as (h' & m' & HA' & _ & Hmap).
  rewrite HA in HA'. injection HA' as <- <-. simpl in Hmap.
  rewrite HS.
  apply (H1 _ _ _ {| User_ := R; ExpiresAt := now + ttl c;
                     lruNode := Some (length (mem (evict c))) |});
    simpl; try done; by rewrite lookup_insert_eq.
Qed.

End cache_snapshot.

(** ** Setting an identifier that is already resident *)
Section cache_refresh.
Import CacheM.
Implicit Types (c : Cache) (id email uuid k : string) (now : Z).

Lemma omap_get_key_ext (h h' : list LRU.LRUNode) (l : list nat) :
  (∀ p, p ∈ l → LRU.get_key h' p = LRU.get_key h p) →
  omap (LRU.get_key h') l = omap (LRU.get_key h) l.
Proof.
  induction l as [|p l IH]; intros Hk; [done|]. csimpl.
  rewrite (Hk p) by apply list_elem_of_here.
  rewrite IH; [done|]. intros q Hq. apply Hk. by apply list_elem_of_further.
Qed.

(** X8: [Cache.Set] never unlinks a node except the one it evicts.  In a
    cache without a maximum size, [Set] links a new node in front of the
    whole previous recency list, also when the identifier is already
    resident: the entry is overwritten (the number of resident entries
    does not change) while its previous node stays linked, so the
    identifier then occurs twice in the recency list. *)
Theorem X8_Set_keeps_previous_node c id (u : MemoryUser) now (l : list nat) :
  lru_list (mem c) (lru c) l →
  maxSize c ≤ 0 →
  let c' := Set_ id u now c in
  lru_list (mem c') (lru c') (length (mem c) :: l) ∧
  recency c' = id :: recency c ∧
  (is_Some (usersByID c !! id) →
   size (usersByID c') = size (usersByID c) ∧
   length (recency c') = Datatypes.S (length (recency c))).
Proof.
  intros Hl Hmax c'.
  assert (He : evict c = c).
  { unfold evict. replace (0 <? maxSize c) with false; [done|].
    symmetry. apply Z.ltb_ge. lia. }
  destruct (Set_unfold id u now c) as (h & m & HA & HS). rewrite He in HA, HS.
  destruct (lru_list_Add _ _ _ id Hl) as (h' & m' & HA' & Hl' & _ & Hkn & Hkeys & _).
  rewrite HA in HA'. injection HA' as <- <-.
  assert (Hrec : recency c' = id :: recency c).
  { unfold recency, LRU.linked_keys. subst c'. rewrite HS. simpl.
    rewrite (lru_list_linked _ _ _ Hl'), (lru_list_linked _ _ _ Hl). csimpl.
    rewrite Hkn. csimpl. f_equal. apply omap_get_key_ext.
    intros p Hp. apply Hkeys. destruct Hl as (Hseg & _). by eapply dseg_lt. }
  split_and!.
  - subst c'. by rewrite HS.
  - done.
  - intros [e Hid]. split.
    + subst c'. rewrite HS. simpl. apply map_size_insert_Some. by eexists.
    + by rewrite Hrec.
Qed.

End cache_refresh.

(** ** Runs of the LRU index keep the list well formed *)
Section lru_runs.
Implicit Types (h : list LRU.LRUNode) (m : LRU.LRUManager) (p q n : nat)
               (l : list nat) (k : string).

Lemma map_sound_Add h m l k :
  lru_list h m l → map_sound h m l →
  ∃ h' m', LRU.Add k (h, m) = (h', m', length h) ∧
    lru_list h' m' (length h :: l) ∧ map_sound h' m' (length h :: l).
Proof.
  intros Hl Hs.
  destruct (lru_list_Add _ _ _ k Hl) as (h' & m' & HA & Hl' & _ & Hkn & Hkeys & Hmap).
  exists h', m'. split_and!; [done|done|].
  intros k' p. rewrite Hmap. destruct (decide (k = k')) as [<-|Hne].
  - rewrite lookup_insert_eq. intros [= <-]. split; [apply list_elem_of_here|done].
  - rewrite lookup_insert_ne by done. intros [Hp Hk]%Hs.
    split; [by apply list_elem_of_further|].
    rewrite Hkeys; [done|]. destruct Hl as (Hseg & _). by eapply dseg_lt.
Qed.

Lemma map_sound_Remove h m l1 n l2 :
  lru_list h m (l1 ++ n :: l2) → map_sound h m (l1 ++ n :: l2) →
  ∃ h' m', LRU.Remove (Some n) (h, m) = (h', m') ∧
    lru_list h' m' (l1 ++ l2) ∧ map_sound h' m' (l1 ++ l2).
Proof.
  intros Hl Hs.
  destruct (lru_list_Remove _ _ _ _ _ Hl) as (h' & m' & HR & Hl' & _ & Hkey & _ & Hmap).
  exists h', m'. split_and!; [done|done|].
  assert (Hn : n ∈ l1 ++ n :: l2).
  { apply elem_of_app. right. apply list_elem_of_here. }
  destruct (lru_list_get_key _ _ _ _ Hl Hn) as [kn Hkn]. rewrite Hkn in Hmap.
  intros k p. rewrite Hmap, Hkey. intros [Hne [Hp Hk]%Hs]%lookup_delete_Some.
  split; [|done]. rewrite <- Permutation_middle in Hp.
  apply elem_of_cons in Hp as [->|Hp]; [congruence|done].
Qed.

Lemma map_sound_MoveToFront h m l1 n l2 :
  lru_list h m (l1 ++ n :: l2) → map_sound h m (l1 ++ n :: l2) →
  ∃ h' m', LRU.MoveToFront n (h, m) = (h', m') ∧
    lru_list h' m' (n :: l1 ++ l2) ∧ map_sound h' m' (n :: l1 ++ l2).
Proof.
  intros Hl Hs.
  destruct (lru_list_MoveToFront _ _ _ _ _ Hl) as (h' & m' & HM & Hl' & _ & Hkey & Hmap).
  exists h', m'. split_and!; [done|done|].
  intros k p Hk. rewrite Hkey, Permutation_middle. apply Hs.
  rewrite Hmap in Hk. destruct l1; [done|].
  destruct (LRU.get_key h n); [|done].
  by apply lookup_delete_Some in Hk as [_ Hk].
Qed.

(** The state of a run is well formed, with a sound lookup map. *)
Lemma lru_run_sound ops : ∀ h m l,
  lru_list h m l → map_sound h m l →
  ∃ l', lru_list (fst (lru_run ops (h, m))) (snd (lru_run ops (h, m))) l' ∧
        map_sound (fst (lru_run ops (h, m))) (snd (lru_run ops (h, m))) l'.
Proof.
  induction ops as [|o ops IH]; intros h m l Hl Hs; [by exists l|].
  unfold lru_run. cbn [foldl]. fold (lru_run ops (lru_step o (h, m))).
  destruct o as [k|k|k|]; unfold lru_step; cbn [snd].
  - destruct (map_sound_Add _ _ _ k Hl Hs) as (h' & m' & -> & Hl' & Hs').
    simpl. by eapply IH.
  - unfold LRU.GetNode. destruct (LRU.nodeMap m !! k) as [n|] eqn:En.
    + destruct (Hs k n En) as [Hin _].
      apply list_elem_of_split in Hin as (l1 & l2 & ->).
      destruct (map_sound_MoveToFront _ _ _ _ _ Hl Hs) as (h' & m' & -> & Hl' & Hs').
      by eapply IH.
    + by eapply IH.
  - unfold LRU.GetNode. destruct (LRU.nodeMap m !! k) as [n|] eqn:En.
    + destruct (Hs k n En) as [Hin _].
      apply list_elem_of_split in Hin as (l1 & l2 & ->).
      destruct (map_sound_Remove _ _ _ _ _ Hl Hs) as (h' & m' & -> & Hl' & Hs').
      by eapply IH.
    + simpl. by eapply IH.
  - destruct (decide (l = [])) as [->|Hne].
    + rewrite (lru_list_RemoveTail_nil _ _ Hl). by eapply IH.
    + destruct (exists_last Hne) as (l' & t & ->).
      pose proof Hl as (_ & _ & _ & Htl). unfold LRU.RemoveTail. cbn [snd].
      rewrite Htl, last_snoc.
      destruct (map_sound_Remove _ _ _ _ _ Hl Hs) as (h' & m' & -> & Hl' & Hs').
      rewrite app_nil_r in Hl', Hs'. by eapply IH.
Qed.

(** X9: the invariant every run of the LRU index keeps.  After any
    sequence of [Add], [MoveToFront] and [Remove] of the node found for a
    key, and [RemoveTail], from the empty index, the list is a
    nil-terminated doubly-linked list without repetition from [head] to
    [tail], [head] and [tail] are both nil or both set, and every key of
    the lookup map leads to a linked node that carries that key. *)
Theorem X9_lru_run_invariant ops :
  let s := lru_run ops ([], LRU.NewLRUManager) in
  lru_list (fst s) (snd s) (LRU.linked s) ∧
  NoDup (LRU.linked s) ∧
  (LRU.head (snd s) = None ↔ LRU.tail (snd s) = None) ∧
  (∀ k p, LRU.GetNode k (snd s) = Some p →
          p ∈ LRU.linked s ∧ LRU.get_key (fst s) p = Some k).
Proof.
  intros s.
  destruct (lru_run_sound ops [] LRU.NewLRUManager [] (lru_list_New [])) as (l & Hl & Hs).
  { intros k p Hk. simpl in Hk. by rewrite lookup_empty in Hk. }
  fold s in Hl, Hs.
  assert (Hlinked : LRU.linked s = l).
  { rewrite <- (lru_list_linked _ _ _ Hl). by destruct s. }
  rewrite Hlinked. split_and!.
  - done.
  - by destruct Hl as (_ & ? & _).
  - by destruct (lru_list_ends _ _ _ Hl).
  - intros k p Hk. by apply Hs.
Qed.

Lemma lru_run_agrees ops : ∀ h m l,
  lru_list h m l → map_agrees h m l → lru_plain ops (h, m) →
  ∃ l', lru_list (fst (lru_run ops (h, m))) (snd (lru_run ops (h, m))) l' ∧
        map_agrees (fst (lru_run ops (h, m))) (snd (lru_run ops (h, m))) l'.
Proof.
  induction ops as [|o ops IH]; intros h m l Hl Hag Hplain; [by exists l|].
  destruct Hplain as [Ho Hplain].
  unfold lru_run. cbn [foldl]. fold (lru_run ops (lru_step o (h, m))).
  destruct o as [k|k|k|]; unfold lru_step in *; cbn [snd] in *.
  - destruct (map_agrees_Add _ _ _ k Hl Hag) as (h' & m' & HA & Hl' & Hag').
    { intros p Hp Hk. unfold LRU.GetNode in Ho.
      rewrite (proj2 (Hag k p) (conj Hp Hk)) in Ho. done. }
    rewrite HA in *. simpl in *. by eapply IH.
  - done.
  - unfold LRU.GetNode in *. destruct (LRU.nodeMap m !! k) as [n|] eqn:En.
    + destruct (proj1 (Hag k n) En) as [Hin _].
      apply list_elem_of_split in Hin as (l1 & l2 & ->).
      destruct (map_agrees_Remove _ _ _ _ _ Hl Hag) as (h' & m' & HR & Hl' & Hag').
      rewrite HR in *. by eapply IH.
    + simpl in *. by eapply IH.
  - destruct (decide (l = [])) as [->|Hne].
    + rewrite (lru_list_RemoveTail_nil _ _ Hl) in *. by eapply IH.
    + destruct (exists_last Hne) as (l' & t & ->).
      pose proof Hl as (_ & _ & _ & Htl). unfold LRU.RemoveTail in *. cbn [snd] in *.
      rewrite Htl, last_snoc in *.
      destruct (map_agrees_Remove _ _ _ _ _ Hl Hag) as (h' & m' & HR & Hl' & Hag').
      rewrite HR in *. rewrite app_nil_r in Hl', Hag'. by eapply IH.
Qed.

Lemma NoDup_omap_get_key h l :
  NoDup l →
  (∀ p, p ∈ l → is_Some (LRU.get_key h p)) →
  (∀ p q, p ∈ l → q ∈ l → LRU.get_key h p = LRU.get_key h q → p = q) →
  NoDup (omap (LRU.get_key h) l) ∧ length (omap (LRU.get_key h) l) = length l.
Proof.
  induction l as [|p l IH]; intros Hnd Hkey Hinj; [split; [by apply NoDup_nil|done]|].
  apply NoDup_cons in Hnd as [Hp Hnd].
  destruct (Hkey p) as [k Hk]; [apply list_elem_of_here|].
  csimpl. rewrite Hk. csimpl.
  destruct IH as [IH1 IH2]; [done| | |].
  { intros q Hq. apply Hkey. by apply list_elem_of_further. }
  { intros q1 q2 H1 H2. apply Hinj; by apply list_elem_of_further. }
  split; [|by rewrite IH2]. apply NoDup_cons. split; [|done].
  intros (q & Hq & Hkq)%list_elem_of_omap. apply Hp.
  rewrite (Hinj p q); [done|apply list_elem_of_here|by apply list_elem_of_further|congruence].
Qed.

(** X10: without [MoveToFront] the lookup map and the list stay in step.
    After a run from the empty index that never touches and adds a key
    only while [GetNode] does not find it, a key is mapped to a node
    exactly when that node is linked and carries the key, and the linked
    nodes carry pairwise distinct keys. *)
Theorem X10_lru_plain_run_agrees ops :
  lru_plain ops ([], LRU.NewLRUManager) →
  let s := lru_run ops ([], LRU.NewLRUManager) in
  (∀ k p, LRU.GetNode k (snd s) = Some p ↔
          p ∈ LRU.linked s ∧ LRU.get_key (fst s) p = Some k) ∧
  NoDup (LRU.linked_keys s) ∧
  length (LRU.linked_keys s) = length (LRU.linked s).
Proof.
  intros Hplain s.
  destruct (lru_run_agrees ops [] LRU.NewLRUManager [] (lru_list_New []))
    as (l & Hl & Hag); [|done|].
  { intros k p. simpl. rewrite lookup_empty. split; [done|].
    intros [Hp _]. by apply not_elem_of_nil in Hp. }
  fold s in Hl, Hag.
  assert (Hlinked : LRU.linked s = l).
  { rewrite <- (lru_list_linked _ _ _ Hl). by destruct s. }
  unfold LRU.linked_keys. rewrite Hlinked. split; [done|].
  apply NoDup_omap_get_key.
  - by destruct Hl as (_ & ? & _).
  - intros p Hp. by eapply lru_list_get_key.
  - intros p q Hp Hq Hpq.
    destruct (lru_list_get_key _ _ _ _ Hl Hp) as [k Hk].
    assert (H1 : LRU.nodeMap (snd s) !! k = Some p) by by apply Hag.
    assert (H2 : LRU.nodeMap (snd s) !! k = Some q).
    { apply Hag. split; [done|]. by rewrite <- Hpq. }
    congruence.
Qed.

(** X11: [Add] then [Remove] of the new node is a round trip.  On a well
    formed list, for a key that is not mapped, removing the node that
    [Add] returned leaves the list, its ends and the lookup map as they
    were; in between, [GetNode] finds exactly that node, at the head. *)
Theorem X11_Add_Remove_round_trip h m l k :
  lru_list h m l →
  LRU.GetNode k m = None →
  ∃ s1 n s2,
    LRU.Add k (h, m) = (s1, n) ∧
    LRU.GetNode k (snd s1) = Some n ∧
    LRU.head (snd s1) = Some n ∧
    LRU.linked s1 = n :: l ∧
    LRU.Remove (Some n) s1 = s2 ∧
    lru_list (fst s2) (snd s2) l ∧
    LRU.linked s2 = l ∧
    LRU.head (snd s2) = LRU.head m ∧
    LRU.tail (snd s2) = LRU.tail m ∧
    LRU.nodeMap (snd s2) = LRU.nodeMap m.
Proof.
  intros Hl Hk.
  destruct (lru_list_Add _ _ _ k Hl) as (h1 & m1 & HA & Hl1 & _ & Hkn & _ & Hmap).
  destruct (lru_list_Remove h1 m1 [] (length h) l Hl1)
    as (h2 & m2 & HR & Hl2 & _ & _ & _ & Hmap2).
  exists (h1, m1), (length h), (h2, m2). simpl in *.
  pose proof Hl as (_ & _ & Hhd & Htl).
  pose proof Hl1 as (_ & _ & Hhd1 & _).
  pose proof Hl2 as (_ & _ & Hhd2 & Htl2).
  split_and!; try done.
  - unfold LRU.GetNode. by rewrite Hmap, lookup_insert_eq.
  - by apply lru_list_linked.
  - by apply lru_list_linked.
  - congruence.
  - congruence.
  - rewrite Hmap2, Hkn, Hmap. by apply delete_insert_id.
Qed.

(** X12: [MoveToFront] of a linked node.  The node becomes the head, the
    other nodes keep their order, no node is gained or lost, and moving it
    again changes nothing. *)
Theorem X12_MoveToFront_order h m l n :
  lru_list h m l → n ∈ l →
  let s := LRU.MoveToFront n (h, m) in
  LRU.linked s = n :: filter (λ p, p ≠ n) l ∧
  LRU.linked s ≡ₚ l ∧
  LRU.head (snd s) = Some n ∧
  LRU.MoveToFront n s = s.
Proof.
  intros Hl Hn s. apply list_elem_of_split in Hn as (l1 & l2 & ->).
  pose proof Hl as (_ & Hnd & _).
  destruct (lru_list_MoveToFront _ _ _ _ _ Hl) as (h' & m' & HM & Hl' & _).
  subst s. rewrite HM. pose proof Hl' as (_ & _ & Hhd & _).
  rewrite (lru_list_linked _ _ _ Hl'), filter_ne_NoDup by done.
  split_and!; [done|by rewrite Permutation_middle|done|].
  unfold LRU.MoveToFront. simpl. by rewrite decide_True.
Qed.

(** X13: [RemoveTail] drops the last node of the list and nothing else; on
    the empty list it does nothing. *)
Theorem X13_RemoveTail_drops_last h m l :
  lru_list h m l →
  let s := LRU.RemoveTail (h, m) in
  LRU.linked s = removelast l ∧
  lru_list (fst s) (snd s) (removelast l) ∧
  LRU.tail (snd s) = last (removelast l) ∧
  (l = [] → s = (h, m)).
Proof.
  intros Hl s. destruct (decide (l = [])) as [->|Hne].
  - subst s. rewrite (lru_list_RemoveTail_nil _ _ Hl). simpl.
    split_and!; [by apply lru_list_linked|done|by destruct Hl as (_ & _ & _ & ?)|done].
  - destruct (exists_last Hne) as (l' & t & ->).
    destruct (lru_list_RemoveTail _ _ _ _ Hl) as (h' & m' & HR & Hl' & _).
    subst s. rewrite HR, removelast_snoc. simpl.
    split_and!; [by apply lru_list_linked|done|by destruct Hl' as (_ & _ & _ & ?)|].
    intros Hnil. by destruct l'.
Qed.

End lru_runs.

(** ** The validator: reads through the cache *)
Section validator_reads.
Context {S : Type} `{Storage.UserStorage S}.
Implicit Types (v : Validator.Validator S) (user u : MemoryUser) (now : Z)
               (c : CacheM.Cache).

Lemma Cache_Get_config c (k : string) now :
  CacheM.ttl (fst (CacheM.Get k now c)) = CacheM.ttl c ∧
  CacheM.maxSize (fst (CacheM.Get k now c)) = CacheM.maxSize c.
Proof. unfold CacheM.Get. repeat case_match; done. Qed.

Lemma Cache_GetByEmail_config c (k : string) now :
  CacheM.ttl (fst (CacheM.GetByEmail k now c)) = CacheM.ttl c ∧
  CacheM.maxSize (fst (CacheM.GetByEmail k now c)) = CacheM.maxSize c.
Proof. unfold CacheM.GetByEmail. repeat case_match; done. Qed.

(** Right after [Set], and until the entry expires, both lookups return
    the record and change nothing. *)
Lemma Set_then_lookups c (id : string) (R : MemoryUser) now now1 :
  now1 ≤ now + CacheM.ttl c →
  CacheM.Get id now1 (CacheM.Set_ id R now c) = (CacheM.Set_ id R now c, Some R) ∧
  (vless_id (Account_ R) = Some id →
   CacheM.GetByEmail (Email R) now1 (CacheM.Set_ id R now c)
   = (CacheM.Set_ id R now c, Some R)).
Proof.
  intros Hlive.
  destruct (Set_lookup id R now c) as (n & Hid & Hem & Hhd & _).
  assert (HG : CacheM.Get id now1 (CacheM.Set_ id R now c)
               = (CacheM.Set_ id R now c, Some R)).
  { by rewrite (Get_hit_head _ _ _ _ _ Hid eq_refl Hhd). }
  split; [done|]. intros Hv. rewrite <- HG.
  destruct (Set_unfold id R now c) as (h & m & HA & HS).
  destruct (Add_head id (CacheM.mem (CacheM.evict c), CacheM.lru (CacheM.evict c)))
    as (h' & m' & HA' & _ & Hmap).
  rewrite HA in HA'. injection HA' as <- <-. simpl in Hmap.
  rewrite HS. unfold CacheM.GetByEmail, CacheM.Get, LRU.GetNode. simpl.
  rewrite !lookup_insert_eq. cbn [CacheM.User_ CacheM.ExpiresAt CacheM.lruNode].
  by rewrite Hv, Hmap.
Qed.

(** X14: a record added through the validator is then served from the
    cache.  With a cache, after [Add] of a VLESS record succeeded in the
    store, and until the time to live has passed, [Get] of its identifier
    and [GetByEmail] of its alias return the record and leave the
    validator as it is: the store is not called. *)
Theorem X14_Add_then_read_from_cache v user (id : UUID) c st now now1 now2 :
  Validator.cache v = Some c →
  vless_id (Account_ user) = Some (uuid_String id) →
  Storage.AddUser user (Validator.storage v) = (st, None) →
  now1 ≤ now + CacheM.ttl c →
  let v1 := fst (Validator.Add user now v) in
  Validator.storage v1 = st ∧
  Validator.Get id now1 now2 v1 = (v1, Some user) ∧
  Validator.GetByEmail (Email user) now1 now2 v1 = (v1, Some user).
Proof.
  intros Hc Hv Hst Hlive v1.
  assert (Hv1 : v1 = {| Validator.storage := st;
                        Validator.cache := Some (CacheM.Set_ (uuid_String id) user now c) |}).
  { subst v1. unfold Validator.Add. by rewrite Hv, Hst, Hc. }
  destruct (Set_then_lookups c (uuid_String id) user now now1 Hlive) as [HG HE].
  split_and!.
  - by rewrite Hv1.
  - rewrite Hv1. unfold Validator.Get, Validator.lookup_cache. simpl.
    by rewrite HG.
  - rewrite Hv1. unfold Validator.GetByEmail, Validator.lookup_cache. simpl.
    by rewrite (HE Hv).
Qed.

(** X15: read-through backfill of [Validator.Get].  With a cache that
    does not answer, a record that the store returns without error is
    returned to the caller and set in the cache under the rendered
    identifier that was asked for; until its time to live has passed the
    cache finds it, and a second [Get] is served without calling the
    store. *)
Theorem X15_Get_backfills v (id : UUID) c u st now now' now2 now3 :
  Validator.cache v = Some c →
  snd (CacheM.Get (uuid_String id) now c) = None →
  Storage.GetUserByID id (Validator.storage v) = (st, (Some u, None)) →
  now2 ≤ now' + CacheM.ttl c →
  let c2 := CacheM.Set_ (uuid_String id) u now' (fst (CacheM.Get (uuid_String id) now c)) in
  let v' := {| Validator.storage := st; Validator.cache := Some c2 |} in
  Validator.Get id now now' v = (v', Some u) ∧
  CacheM.Get (uuid_String id) now2 c2 = (c2, Some u) ∧
  Validator.Get id now2 now3 v' = (v', Some u).
Proof.
  intros Hc Hmiss Hst Hlive c2 v'.
  destruct (Cache_Get_config c (uuid_String id) now) as [Httl _].
  destruct (Set_then_lookups (fst (CacheM.Get (uuid_String id) now c))
              (uuid_String id) u now' now2) as [HG _]; [by rewrite Httl|].
  fold c2 in HG. split_and!.
  - unfold Validator.Get, Validator.lookup_cache. rewrite Hc.
    destruct (CacheM.Get (uuid_String id) now c) as [c1 r]. simpl in *.
    subst r. by rewrite Hst.
  - done.
  - unfold Validator.Get, Validator.lookup_cache. simpl. by rewrite HG.
Qed.

(** X16: read-through backfill of [Validator.GetByEmail].  With a cache
    that does not answer, a record that the store returns without error is
    returned to the caller; it is set in the cache under the rendered
    identifier of its own account when that is a VLESS account, and is not
    cached at all otherwise. *)
Theorem X16_GetByEmail_backfills v (email : string) c u st now now' :
  Validator.cache v = Some c →
  snd (CacheM.GetByEmail email now c) = None →
  Storage.GetUserByEmail email (Validator.storage v) = (st, (Some u, None)) →
  let c1 := fst (CacheM.GetByEmail email now c) in
  (vless_id (Account_ u) = None →
   Validator.GetByEmail email now now' v =
     ({| Validator.storage := st; Validator.cache := Some c1 |}, Some u)) ∧
  (∀ uuid now2,
      vless_id (Account_ u) = Some uuid →
      now2 ≤ now' + CacheM.ttl c →
      let c2 := CacheM.Set_ uuid u now' c1 in
      Validator.GetByEmail email now now' v =
        ({| Validator.storage := st; Validator.cache := Some c2 |}, Some u) ∧
      CacheM.Get uuid now2 c2 = (c2, Some u) ∧
      CacheM.GetByEmail (Email u) now2 c2 = (c2, Some u)).
Proof.
  intros Hc Hmiss Hst c1.
  assert (HV : ∀ o, vless_id (Account_ u) = o →
      Validator.GetByEmail email now now' v =
        ({| Validator.storage := st;
            Validator.cache := match o with
                               | Some uuid => Some (CacheM.Set_ uuid u now' c1)
                               | None => Some c1
                               end |}, Some u)).
  { intros o Ho. unfold Validator.GetByEmail, Validator.lookup_cache. rewrite Hc.
    subst c1. destruct (CacheM.GetByEmail email now c) as [c1 r]. simpl in *.
    subst r. rewrite Hst, Ho. by destruct o. }
  split.
  - intros Hv. by apply (HV None).
  - intros uuid now2 Hv Hlive c2.
    destruct (Cache_GetByEmail_config c email now) as [Httl _].
    destruct (Set_then_lookups c1 uuid u now' now2) as [HG HE].
    { subst c1. by rewrite Httl. }
    split_and!; [by apply (HV (Some uuid))|done|by apply HE].
Qed.

(** X17: [Validator.Del].  An error of the store is returned as it is and
    the cache is not touched.  When the store succeeds, the alias is
    invalidated in the cache, whether or not the cache held it: afterwards
    the cache does not find that alias at any time. *)
Theorem X17_Del_invalidates v (email : string) :
  (∀ st e,
      Storage.DelUser email (Validator.storage v) = (st, Some e) →
      Validator.Del email v =
        ({| Validator.storage := st; Validator.cache := Validator.cache v |}, Some e)) ∧
  (∀ st,
      Storage.DelUser email (Validator.storage v) = (st, None) →
      Validator.Del email v =
        ({| Validator.storage := st;
            Validator.cache := CacheM.DeleteByEmail email <$> Validator.cache v |}, None) ∧
      ∀ c now, Validator.cache v = Some c →
        CacheM.GetByEmail email now (CacheM.DeleteByEmail email c)
        = (CacheM.DeleteByEmail email c, None)).
Proof.
  split.
  - intros st e Hst. unfold Validator.Del. by rewrite Hst.
  - intros st Hst. split.
    + unfold Validator.Del. by rewrite Hst.
    + intros c now _.
      assert (Hgone : CacheM.usersByEmail (CacheM.DeleteByEmail email c) !! email = None).
      { unfold CacheM.DeleteByEmail.
        destruct (CacheM.usersByEmail c !! email) as [e|] eqn:He; [|done].
        destruct (match CacheM.lruNode e with Some _ => _ | None => _ end).
        simpl. apply lookup_delete_eq. }
      unfold CacheM.GetByEmail. by rewrite Hgone.
Qed.

(** X18: [Validator.GetCount], [Validator.GetAll] and [Validator.Close]
    with a cache.  The count and the listing are those of the cache, the
    count is the length of the listing, and the validator and its store
    are left as they are, whatever the store holds.  [Close] clears the
    cache whether or not closing the store fails, and returns the error of
    the store as it is. *)
Theorem X18_cached_count_listing_close v c now fuel :
  Validator.cache v = Some c →
  Validator.GetCount now v = (v, CacheM.GetCount now c) ∧
  Validator.GetAll fuel now v = Some (v, CacheM.GetAll now c) ∧
  snd (Validator.GetCount now v) = len (CacheM.GetAll now c) ∧
  (∀ st err,
      Storage.Close (Validator.storage v) = (st, err) →
      Validator.Close v =
        ({| Validator.storage := st; Validator.cache := Some (CacheM.Clear c) |}, err) ∧
      Validator.GetCount now (fst (Validator.Close v)) = (fst (Validator.Close v), 0)).
Proof.
  intros Hc.
  assert (HGC : Validator.GetCount now v = (v, CacheM.GetCount now c)).
  { unfold Validator.GetCount. by rewrite Hc. }
  split_and!.
  - done.
  - unfold Validator.GetAll. by rewrite Hc.
  - rewrite HGC. simpl. unfold CacheM.GetCount, CacheM.GetAll, len.
    destruct (CacheM.live now c); [done|]. simpl. by rewrite length_fmap.
  - intros st err Hst.
    assert (HC : Validator.Close v =
              ({| Validator.storage := st; Validator.cache := Some (CacheM.Clear c) |}, err)).
    { unfold Validator.Close. by rewrite Hst, Hc. }
    split; [done|]. rewrite HC. unfold Validator.GetCount. simpl.
    unfold CacheM.GetCount, CacheM.live. simpl. by rewrite map_to_list_empty.
Qed.

Lemma Cache_Set_config c (k : string) (u : MemoryUser) now :
  CacheM.ttl (CacheM.Set_ k u now c) = CacheM.ttl c ∧
  CacheM.maxSize (CacheM.Set_ k u now c) = CacheM.maxSize c.
Proof. destruct (Set_unfold k u now c) as (h & l & _ & ->). done. Qed.

Lemma Cache_DeleteByEmail_config c (k : string) :
  CacheM.ttl (CacheM.DeleteByEmail k c) = CacheM.ttl c ∧
  CacheM.maxSize (CacheM.DeleteByEmail k c) = CacheM.maxSize c.
Proof. unfold CacheM.DeleteByEmail. repeat case_match; done. Qed.

(** X19: a validator never gains, loses or reconfigures its cache.
    [NewValidator] builds a cache exactly when it is given settings, with
    the time to live in seconds and the maximum size of the settings;
    after that, whether there is a cache, its time to live and its maximum
    size are the same after every [Add], [Get], [GetByEmail], [Del],
    [GetCount], [GetAll] and [Close], whatever the store answers. *)
Theorem X19_validator_keeps_cache_settings v :
  let cfg := λ v0 : Validator.Validator S,
    (λ c, (CacheM.ttl c, CacheM.maxSize c)) <$> Validator.cache v0 in
  (∀ (st : S) cs,
      cfg (Validator.NewValidator st cs)
      = (λ x, (Validator.Ttl x * Validator.Second, Validator.MaxSize x)) <$> cs) ∧
  (∀ user now, cfg (fst (Validator.Add user now v)) = cfg v) ∧
  (∀ (id : UUID) now now', cfg (fst (Validator.Get id now now' v)) = cfg v) ∧
  (∀ (email : string) now now', cfg (fst (Validator.GetByEmail email now now' v)) = cfg v) ∧
  (∀ email : string, cfg (fst (Validator.Del email v)) = cfg v) ∧
  (∀ now, cfg (fst (Validator.GetCount now v)) = cfg v) ∧
  (∀ fuel now v' r, Validator.GetAll fuel now v = Some (v', r) → cfg v' = cfg v) ∧
  cfg (fst (Validator.Close v)) = cfg v.
Proof.
  intros cfg. subst cfg. destruct v as [st0 [c|]]; cbn [Validator.cache].
  - split_and!.
    + intros st [cs|]; done.
    + intros user now. unfold Validator.Add.
      destruct (vless_id _); [|done]. simpl.
      destruct (Storage.AddUser _ _) as [st [e|]]; [done|]. simpl.
      by destruct (Cache_Set_config c s user now) as [-> ->].
    + intros id now now'. unfold Validator.Get, Validator.lookup_cache. simpl.
      destruct (Cache_Get_config c (uuid_String id) now) as [Ht Hm].
      destruct (CacheM.Get _ _ _) as [c1 [u|]]; simpl in *; [by rewrite Ht, Hm|].
      destruct (Storage.GetUserByID _ _) as [st [[u|] [e|]]]; simpl;
        try (by rewrite Ht, Hm).
      destruct (Cache_Set_config c1 (uuid_String id) u now') as [-> ->].
      by rewrite Ht, Hm.
    + intros email now now'. unfold Validator.GetByEmail, Validator.lookup_cache. simpl.
      destruct (Cache_GetByEmail_config c email now) as [Ht Hm].
      destruct (CacheM.GetByEmail _ _ _) as [c1 [u|]]; simpl in *; [by rewrite Ht, Hm|].
      destruct (Storage.GetUserByEmail _ _) as [st [[u|] [e|]]]; simpl;
        try (by rewrite Ht, Hm).
      destruct (vless_id _) as [uuid|]; simpl; [|by rewrite Ht, Hm].
      destruct (Cache_Set_config c1 uuid u now') as [-> ->].
      by rewrite Ht, Hm.
    + intros email. unfold Validator.Del. simpl.
      destruct (Storage.DelUser _ _) as [st [e|]]; [done|]. simpl.
      by destruct (Cache_DeleteByEmail_config c email) as [-> ->].
    + done.
    + intros fuel now v' r. unfold Validator.GetAll. simpl. by intros [= <- _].
    + unfold Validator.Close. simpl. by destruct (Storage.Close _).
  - split_and!.
    + intros st [cs|]; done.
    + intros user now. unfold Validator.Add.
      destruct (vless_id _); [|done]. simpl.
      by destruct (Storage.AddUser _ _) as [st [e|]].
    + intros id now now'. unfold Validator.Get, Validator.lookup_cache. simpl.
      by destruct (Storage.GetUserByID _ _) as [st [[u|] [e|]]].
    + intros email now now'. unfold Validator.GetByEmail, Validator.lookup_cache. simpl.
      destruct (Storage.GetUserByEmail _ _) as [st [[u|] [e|]]]; simpl; try done.
      by destruct (vless_id _).
    + intros email. unfold Validator.Del. simpl.
      by destruct (Storage.DelUser _ _) as [st [e|]].
    + intros now. unfold Validator.GetCount. simpl.
      by destruct (Storage.GetCount _) as [st [n [e|]]].
    + intros fuel now v' r. unfold Validator.GetAll. simpl.
      destruct (Validator.GetAll_loop _ _ _ _ _) as [[st r']|]; [|done].
      by intros [= <- _].
    + unfold Validator.Close. simpl. by destruct (Storage.Close _).
Qed.

End validator_reads.

(** ** The validator without a cache: how many requests [GetAll] makes *)
Section paging_requests.
Context {S : Type} `{Storage.UserStorage S}.
Implicit Types (st : S) (acc users : slice MemoryUser) (db : list MemoryUser).

(** Over a paging store the loop runs out of fuel while whole pages are
    left. *)
Lemma GetAll_loop_out_of_fuel (holds : S → list MemoryUser) db :
  paging holds → Z.of_nat (length db) < 2 ^ 62 →
  ∀ fuel st (o : nat) acc,
    holds st = db → (100 * fuel ≤ length db - o)%nat →
    Validator.GetAll_loop fuel st (Z.of_nat o) 100 acc = None.
Proof.
  intros Hp Hsmall. induction fuel as [|fuel IH]; intros st o acc Hst Hfuel; [done|].
  destruct (Hp st (Z.of_nat o) 100) as (st1 & users & HG & Hus & Hst1); [lia..|].
  simpl. rewrite HG. rewrite Hst in Hus, Hst1.
  assert (Hlen : len users = 100).
  { unfold len. rewrite Hus. unfold page.
    rewrite length_take, length_drop, Nat2Z.id.
    replace (Z.to_nat 100) with 100%nat by lia. lia. }
  rewrite Hlen. simpl. rewrite int_small by lia.
  replace (Z.of_nat o + 100) with (Z.of_nat (o + 100)) by lia.
  apply IH; [done|lia].
Qed.

(** X20: the number of page requests of [Validator.GetAll] without a
    cache.  Over a store that pages through the [L] records it holds, the
    call needs exactly [L / 100 + 1] requests: it runs out of fuel exactly
    when [100 * fuel <= L], so that a store holding a whole number of full
    pages costs one more, empty, request.  When it returns, the result is
    the sequence held, and it is the nil slice exactly when the store holds
    nothing. *)
Theorem X20_GetAll_request_count (v : Validator.Validator S) (now : Z)
        (holds : S → list MemoryUser) :
  Validator.cache v = None →
  paging holds →
  Z.of_nat (length (holds (Validator.storage v))) < 2 ^ 62 →
  (∀ fuel, Validator.GetAll fuel now v = None
           ↔ (100 * fuel ≤ length (holds (Validator.storage v)))%nat) ∧
  (∀ fuel v' r, Validator.GetAll fuel now v = Some (v', r) →
                elems r = holds (Validator.storage v) ∧
                (r = None ↔ holds (Validator.storage v) = [])).
Proof.
  intros Hc Hp Hsmall.
  assert (Hsome : ∀ fuel, (length (holds (Validator.storage v)) < 100 * fuel)%nat →
            ∃ st' r, Validator.GetAll_loop fuel (Validator.storage v) 0 100 None
                     = Some (st', r) ∧ elems r = holds (Validator.storage v)).
  { intros fuel Hfuel.
    destruct (GetAll_loop_paging holds (holds (Validator.storage v)) Hp Hsmall
                fuel (Validator.storage v) 0%nat None)
      as (st' & r & HL & Hr & _); [done|lia|done|lia|].
    change (Z.of_nat 0) with 0 in HL. by exists st', r. }
  assert (Hnone : ∀ fuel, (100 * fuel ≤ length (holds (Validator.storage v)))%nat →
            Validator.GetAll_loop fuel (Validator.storage v) 0 100 None = None).
  { intros fuel Hfuel.
    apply (GetAll_loop_out_of_fuel holds (holds (Validator.storage v)) Hp Hsmall
             fuel (Validator.storage v) 0%nat None); [done|lia]. }
  split.
  - intros fuel. unfold Validator.GetAll. rewrite Hc. split.
    + intros Hn.
      destruct (decide (100 * fuel ≤ length (holds (Validator.storage v)))%nat)
        as [|Hgt]; [done|].
      destruct (Hsome fuel) as (st' & r & HL & _); [lia|]. by rewrite HL in Hn.
    + intros Hle. by rewrite (Hnone fuel Hle).
  - intros fuel v' r. unfold Validator.GetAll. rewrite Hc. intros HG.
    destruct (decide (100 * fuel ≤ length (holds (Validator.storage v)))%nat)
      as [Hle|Hgt].
    { by rewrite (Hnone fuel Hle) in HG. }
    destruct (Hsome fuel) as (st' & r' & HL & Hr'); [lia|].
    rewrite HL in HG. injection HG as <- <-. split; [done|]. split.
    + intros ->. by rewrite <- Hr'.
    + intros Hempty. destruct fuel as [|fuel]; [done|].
      destruct (Hp (Validator.storage v) 0 100) as (st1 & users & HGU & Hus & _); [lia..|].
      simpl in HL. rewrite HGU in HL.
      assert (Hlen : len users = 0).
      { unfold len. rewrite Hus, Hempty. unfold page. by rewrite drop_nil, take_nil. }
      rewrite Hlen in HL. simpl in HL. by injection HL as _ <-.
Qed.

End paging_requests.

(** ** Counting after a run *)
Section count_refinement.
Import CacheM.
Implicit Types (c : Cache) (st : list (string * Z)) (now : Z).

(** The resident entries, as identifiers with expiry instants, are the
    entries of the reference list in some order. *)
Lemma Inv_entries c st :
  Inv c st →
  (λ kv : string * User, (fst kv, ExpiresAt (snd kv))) <$> map_to_list (usersByID c)
  ≡ₚ st.
Proof.
  intros HI. pose proof HI as (l & -> & _ & Hent & Hnd & Hcov & _).
  apply NoDup_Permutation.
  - apply NoDup_fmap_2_strong; [|apply NoDup_map_to_list].
    intros [k e] [k' e'] Hin Hin' [= <- _]. simpl in *.
    apply elem_of_map_to_list in Hin, Hin'. congruence.
  - by apply (NoDup_fmap_1 fst).
  - intros [k t]. rewrite list_elem_of_fmap. split.
    + intros ([k' e] & [= -> ->] & He%elem_of_map_to_list). simpl in *.
      assert (Hk : k' ∈ fst <$> (snd <$> l)) by (apply Hcov; by eexists).
      apply list_elem_of_fmap in Hk as ([k2 t2] & Hk2 & Hin). simpl in Hk2. subst k2.
      pose proof Hin as Hin0.
      apply list_elem_of_fmap in Hin as ([p [k3 t3]] & [= <- <-] & Hin).
      destruct (Hent p k' t2 Hin) as (_ & u & Hu). rewrite He in Hu.
      injection Hu as ->. done.
    + intros ([p [k' t']] & [= <- <-] & Hin)%list_elem_of_fmap.
      destruct (Hent p k t Hin) as (_ & u & Hu).
      exists (k, {| User_ := u; ExpiresAt := t; lruNode := Some p |}).
      split; [done|]. by apply elem_of_map_to_list.
Qed.

Lemma length_filter_fmap {A B} (f : A → B) (P : B → Prop)
      `{∀ x, Decision (P x)} (l : list A) :
  length (filter P (f <$> l)) = length (filter (λ x, P (f x)) l).
Proof.
  induction l as [|x l IH]; [done|]. rewrite fmap_cons.
  destruct (decide (P (f x))).
  - rewrite (filter_cons_True P), (filter_cons_True (λ x, P (f x))) by done.
    simpl. by rewrite IH.
  - by rewrite (filter_cons_False P), (filter_cons_False (λ x, P (f x))) by done.
Qed.

Lemma Inv_GetCount c st now :
  Inv c st →
  GetCount now c = Z.of_nat (length (filter (λ kv : string * Z, now ≤ snd kv) st)).
Proof.
  intros HI. rewrite <- (Inv_entries c st HI).
  unfold GetCount, live. f_equal.
  rewrite length_filter_fmap. f_equal.
  apply list_filter_iff. intros [k e]. simpl. apply After_false.
Qed.

(** X21: [Cache.GetCount] after a run.  After a run of [Set]s (identifiers
    not resident when set) and [Get]s from the empty cache, the count at
    time [now] is the number of entries of the reference LRU list whose
    expiry instant is not before [now]: entries that expired but were
    never looked up again are resident but not counted. *)
Theorem X21_GetCount_refines n ttl0 ops now :
  n < 2 ^ 31 → fresh_sets n ttl0 ops [] →
  let c := run ops (NewCache ttl0 n) in
  let st := ref_run n ttl0 ops [] in
  GetCount now c = Z.of_nat (length (filter (λ kv : string * Z, now ≤ snd kv) st)) ∧
  Z.of_nat (size (usersByID c)) - GetCount now c
  = Z.of_nat (length (filter (λ kv : string * Z, snd kv < now) st)).
Proof.
  intros Hn Hfresh c st.
  assert (HI : Inv c st).
  { apply (Inv_run ops (NewCache ttl0 n) []); [by apply Inv_New|done]. }
  pose proof (Inv_GetCount c st now HI) as HG. split; [done|].
  rewrite HG, (Inv_size _ _ HI). clear.
  induction st as [|[k t] st IH]; [done|].
  destruct (decide (now ≤ t)).
  - rewrite (filter_cons_True (λ kv : string * Z, now ≤ snd kv)) by done.
    rewrite (filter_cons_False (λ kv : string * Z, snd kv < now)) by (simpl; lia).
    simpl length. lia.
  - rewrite (filter_cons_False (λ kv : string * Z, now ≤ snd kv)) by done.
    rewrite (filter_cons_True (λ kv : string * Z, snd kv < now)) by (simpl; lia).
    simpl length. lia.
Qed.

End count_refinement.

(** ** The mock store *)
Section mock_store.
Implicit Types (m : Mock.MockUserStorage) (user u : MemoryUser) (email : string).

(** X22: [MockUserStorage.AddUser] and [GetUserByID].  Adding a VLESS
    record never fails and stores it under the rendered identifier of its
    account, where [GetUserByID] then finds it; the records under other
    identifiers are kept, and the count grows by one exactly when the
    identifier was not stored before.  A record without a VLESS account is
    not stored, and no error is reported for it. *)
Theorem X22_Mock_AddUser_GetUserByID m user :
  (∀ id : UUID,
      vless_id (Account_ user) = Some (uuid_String id) →
      let m' := fst (Mock.AddUser user m) in
      snd (Mock.AddUser user m) = None ∧
      Mock.GetUserByID id m' = (m', (Some user, None)) ∧
      (∀ id' : UUID, uuid_String id' ≠ uuid_String id →
                     snd (Mock.GetUserByID id' m') = snd (Mock.GetUserByID id' m)) ∧
      fst (snd (Mock.GetCount m')) =
        fst (snd (Mock.GetCount m))
        + (if decide (is_Some (Mock.users m !! uuid_String id)) then 0 else 1)) ∧
  (vless_id (Account_ user) = None → Mock.AddUser user m = (m, None)).
Proof.
  split.
  - intros id Hv m'. subst m'. unfold Mock.AddUser. rewrite Hv. simpl.
    unfold Mock.GetUserByID, Mock.GetCount. simpl. split_and!.
    + done.
    + by rewrite lookup_insert_eq.
    + intros id' Hne. by rewrite lookup_insert_ne.
    + rewrite map_size_insert. destruct (Mock.users m !! uuid_String id) as [u|] eqn:E.
      * rewrite decide_True by by eexists. unfold Datatypes.id. lia.
      * rewrite decide_False by (by intros [? ?]). lia.
  - intros Hv. unfold Mock.AddUser. by rewrite Hv.
Qed.

(** X23: the by-alias operations of [MockUserStorage].  Neither fails.
    [GetUserByEmail] returns a stored record that carries the alias when
    there is one, and nil when there is none.  [DelUser] deletes exactly
    one stored record that carries the alias when there is one (the count
    falls by one), and leaves the store as it is when there is none. *)
Theorem X23_Mock_by_alias m email :
  ((∃ (id : string) u, Mock.users m !! id = Some u ∧ Email u = email ∧
      Mock.GetUserByEmail email m = (m, (Some u, None))) ∨
   ((∀ (id : string) u, Mock.users m !! id = Some u → Email u ≠ email) ∧
    Mock.GetUserByEmail email m = (m, (None, None)))) ∧
  ((∃ (id : string) u, Mock.users m !! id = Some u ∧ Email u = email ∧
      Mock.DelUser email m = ({| Mock.users := delete id (Mock.users m) |}, None) ∧
      fst (snd (Mock.GetCount (fst (Mock.DelUser email m))))
      = fst (snd (Mock.GetCount m)) - 1) ∨
   ((∀ (id : string) u, Mock.users m !! id = Some u → Email u ≠ email) ∧
    Mock.DelUser email m = (m, None))).
Proof.
  unfold Mock.GetUserByEmail, Mock.DelUser.
  destruct (list_find _ _) as [[i [id u]]|] eqn:Ef.
  - apply list_find_Some in Ef as (Hi & Hem & _). simpl in Hem.
    assert (Hid : Mock.users m !! id = Some u).
    { apply elem_of_map_to_list, list_elem_of_lookup. by exists i. }
    split; left; exists id, u; split_and!; try done.
    simpl. unfold Mock.GetCount. simpl.
    rewrite map_size_delete, Hid.
    assert (size (Mock.users m) ≠ 0%nat).
    { intros Hz. apply map_size_empty_inv in Hz. rewrite Hz in Hid.
      by rewrite lookup_empty in Hid. }
    lia.
  - assert (Hnone : ∀ (id : string) u, Mock.users m !! id = Some u → Email u ≠ email).
    { intros id u Hid Hem. apply list_find_None in Ef.
      rewrite Forall_forall in Ef. apply (Ef (id, u)); [|done].
      by apply elem_of_map_to_list. }
    split; right; by split.
Qed.

(** X24: [MockUserStorage.GetUsers] and the validator without a cache.
    A page holds at most [limit] records, each of them stored, and is nil
    when [limit] is not positive.  When the store holds fewer than 100
    records, [Validator.GetAll] returns them all, each once, with a single
    request, and as many as [Validator.GetCount] counts. *)
Theorem X24_Mock_GetUsers_GetAll m (now : Z) :
  (∀ offset limit,
      ∃ r, Mock.GetUsers offset limit m = (m, (r, None)) ∧
        len r ≤ Z.max 0 limit ∧
        (limit ≤ 0 → r = None) ∧
        (∀ u, u ∈ elems r → ∃ id : string, Mock.users m !! id = Some u)) ∧
  ((size (Mock.users m) < 100)%nat →
   let v := Validator.NewValidator m None in
   ∃ r, Validator.GetAll 1 now v = Some (v, r) ∧
     elems r ≡ₚ snd <$> map_to_list (Mock.users m) ∧
     len r = snd (Validator.GetCount now v)).
Proof.
  assert (Hpage : ∀ offset limit,
    ∃ r, Mock.GetUsers offset limit m = (m, (r, None)) ∧
      elems r = take (Z.to_nat limit) (drop (Z.to_nat offset) (snd <$> map_to_list (Mock.users m)))).
  { intros offset limit. unfold Mock.GetUsers.
    destruct (take _ _) as [|u l] eqn:E; eexists; by split. }
  split.
  - intros offset limit. destruct (Hpage offset limit) as (r & HG & Hr).
    exists r. split_and!; [done| | |].
    + unfold len. rewrite Hr, length_take. lia.
    + intros Hlim. unfold Mock.GetUsers in HG.
      replace (Z.to_nat limit) with 0%nat in HG by lia.
      rewrite take_0 in HG. by injection HG as <-.
    + intros u Hu. rewrite Hr in Hu.
      apply subseteq_take, subseteq_drop in Hu.
      apply list_elem_of_fmap in Hu as ([id u'] & -> & Hin).
      exists id. by apply elem_of_map_to_list.
  - intros Hsize v.
    assert (HL : length (snd <$> map_to_list (Mock.users m)) = size (Mock.users m)).
    { by rewrite length_fmap, length_map_to_list. }
    assert (HG : Mock.GetUsers 0 100 m =
                 match snd <$> map_to_list (Mock.users m) with
                 | [] => (m, (None, None))
                 | l => (m, (Some l, None))
                 end).
    { unfold Mock.GetUsers. change (Z.to_nat 0) with 0%nat.
      rewrite drop_0, take_ge; [done|].
      rewrite HL. replace (Z.to_nat 100) with 100%nat by lia. lia. }
    unfold Validator.GetAll, Validator.GetCount. simpl.
    change (Storage.GetUsers 0 100 m) with (Mock.GetUsers 0 100 m).
    change (Storage.GetCount m) with (Mock.GetCount m).
    rewrite HG. unfold Mock.GetCount. simpl. rewrite <- HL.
    destruct (snd <$> map_to_list (Mock.users m)) as [|u l] eqn:El.
    + exists None. by split_and!.
    + exists (Some (u :: l)). simpl in HL.
      assert (Hlen : len (Some (u :: l)) = Z.of_nat (Datatypes.S (length l))) by done.
      rewrite Hlen.
      replace (Z.of_nat (Datatypes.S (length l)) =? 0) with false
        by (symmetry; apply Z.eqb_neq; lia).
      replace (Z.of_nat (Datatypes.S (length l)) <? 100) with true
        by (symmetry; apply Z.ltb_lt; lia).
      by split_and!.
Qed.

End mock_store.

(** ** The SQL drivers and the SQL store *)
Section sql_store.
Import SQL.
Context {D : Type} `{Database D} `{Parser}.
Implicit Types (s : SQLStorage D) (err e : goerror) (d : D).

(** X25: the error classifiers of the two SQL drivers.  No error is both
    a connection error and a duplicate-key error for a driver, and a
    driver classifies only errors of its own error type: the PostgreSQL
    driver never classifies a MySQL error or any other error, and the
    MySQL driver never classifies a PostgreSQL error or any other error. *)
Theorem X25_driver_classification (drv : SQLDriver) err :
  (IsConnectionError drv err = true → IsDuplicateKeyError drv err = false) ∧
  (IsConnectionError drv err = true ∨ IsDuplicateKeyError drv err = true →
   match drv, err with
   | PostgresDriver, PqError _ => True
   | MySQLDriver, MySQLError _ => True
   | _, _ => False
   end) ∧
  (∀ c n, IsConnectionError PostgresDriver (MySQLError n) = false ∧
          IsDuplicateKeyError PostgresDriver (MySQLError n) = false ∧
          IsConnectionError MySQLDriver (PqError c) = false ∧
          IsDuplicateKeyError MySQLDriver (PqError c) = false).
Proof.
  split_and!.
  - destruct drv, err as [|c|n|msg|msg base sev]; simpl; try done.
    + intros Hc%bool_decide_eq_true. apply bool_decide_eq_false. intros ->.
      revert Hc. compute_done.
    + intros Hc%bool_decide_eq_true. apply bool_decide_eq_false. intros ->.
      revert Hc. compute_done.
  - destruct drv, err; simpl; intros [?|?]; done.
  - done.
Qed.

Lemma toMemoryUser_shape (model : sqlUserModel) (u : MemoryUser) :
  toMemoryUser model = inl u →
  ∃ uuid, ParseString (ID model) = inl uuid ∧
    u = {| Account_ := VlessAccount uuid (Flow model) "none";
           Email := Email_ model; Level := 0 |}.
Proof.
  unfold toMemoryUser. destruct (ParseString (ID model)) as [uuid|e]; [|done].
  intros [= <-]. by exists uuid.
Qed.

Lemma toMemoryUser_error (model : sqlUserModel) e :
  toMemoryUser model = inr e → ∃ msg base sev, e = Xray msg base sev.
Proof.
  unfold toMemoryUser. destruct (ParseString (ID model)); [done|].
  intros [= <-]. by eexists _, _, _.
Qed.

Lemma pair_of_toMemoryUser_shaped (model : sqlUserModel) :
  well_shaped (pair_of (toMemoryUser model)).
Proof.
  destruct (toMemoryUser model) as [u|e] eqn:E; simpl; split_and!; simpl.
  - split; [done|by eexists].
  - intros u' [= <-]. destruct (toMemoryUser_shape _ _ E) as (uuid & _ & ->).
    by eexists _, _.
  - done.
  - split; [by intros [? ?]|done].
  - done.
  - intros e' [= <-]. by eapply toMemoryUser_error.
Qed.

Lemma built_error_shaped msg base sev :
  well_shaped (None, Some (Xray msg base sev)).
Proof.
  split_and!; simpl; [split; [by intros [? ?]|done]|done|].
  intros e [= <-]. by eexists _, _, _.
Qed.

(** X26: what the look-ups of the SQL store return.  Whatever the
    database answers, [GetUserByID] and [GetUserByEmail] return either a
    record and a nil error or a nil record and an error, never both and
    never neither; a returned record has a VLESS account with encryption
    "none" and level zero; a returned error is one the store built, never
    the bare error of the database.  A look-up that finds no row reports
    an error of severity debug without a base error. *)
Theorem X26_SQL_lookups_shape s :
  (∀ id : UUID, well_shaped (snd (GetUserByID id s))) ∧
  (∀ email : string, well_shaped (snd (GetUserByEmail email s))) ∧
  (∀ (id : UUID) d (model : sqlUserModel),
      SelectByID (tableName s +:+ " AS vu") (uuid_String id) (db s)
      = (d, (model, Some ErrNoRows)) →
      GetUserByID id s =
        (with_db s d,
         (None, Some (Xray ("user not found with ID: " +:+ uuid_String id) None SevDebug)))) ∧
  (∀ (email : string) d (model : sqlUserModel),
      SelectByEmail (tableName s +:+ " AS vu") email (db s)
      = (d, (model, Some ErrNoRows)) →
      GetUserByEmail email s =
        (with_db s d,
         (None, Some (Xray ("user not found with email: " +:+ email) None SevDebug)))).
Proof.
  split_and!.
  - intros id. unfold GetUserByID.
    destruct (SelectByID _ _ _) as [d [model [e|]]]; simpl.
    + destruct e; simpl; try apply built_error_shaped;
        destruct (IsConnectionError _ _); apply built_error_shaped.
    + apply pair_of_toMemoryUser_shaped.
  - intros email. unfold GetUserByEmail.
    destruct (SelectByEmail _ _ _) as [d [model [e|]]]; simpl.
    + destruct e; simpl; try apply built_error_shaped;
        destruct (IsConnectionError _ _); apply built_error_shaped.
    + apply pair_of_toMemoryUser_shaped.
  - intros id d model Hsel. unfold GetUserByID. by rewrite Hsel.
  - intros email d model Hsel. unfold GetUserByEmail. by rewrite Hsel.
Qed.

(** X27: [SQLStorage.AddUser].  A record without a VLESS account is
    rejected and the database is not touched.  For a VLESS record the row
    inserted holds the rendered identifier, the alias and the flow; when
    the insert fails, the error is classified by the driver: a
    duplicate-key error gives "user already exists" with severity warning,
    any other error gives "database insert error" with severity error,
    both with the database error as base.  Reading the row back gives the
    record with encryption "none" and level zero, so that the round trip
    returns the record itself exactly when it had these. *)
Theorem X27_SQL_AddUser s (user : MemoryUser) :
  (vless_id (Account_ user) = None →
   AddUser user s = (s, Some (Xray "not a VLESS user" None SevError))) ∧
  (∀ (id : UUID) flow enc,
      Account_ user = VlessAccount id flow enc →
      let model := {| ID := uuid_String id; Email_ := Email user; Flow := flow |} in
      (∀ d, Insert (tableName s +:+ " AS vu") model (db s) = (d, None) →
            AddUser user s = (with_db s d, None)) ∧
      (∀ d e, Insert (tableName s +:+ " AS vu") model (db s) = (d, Some e) →
              AddUser user s =
                (with_db s d,
                 Some (if IsDuplicateKeyError (adapter s) e
                       then Xray "user already exists" (Some e) SevWarning
                       else Xray "database insert error" (Some e) SevError))) ∧
      (ParseString (uuid_String id) = inl id →
       toMemoryUser model =
         inl {| Account_ := VlessAccount id flow "none";
                Email := Email user; Level := 0 |} ∧
       (toMemoryUser model = inl user ↔ enc = "none" ∧ Level user = 0))).
Proof.
  split.
  - intros Hv. unfold AddUser. by destruct (Account_ user).
  - intros id flow enc Hacc model. split_and!.
    + intros d Hins. unfold AddUser. rewrite Hacc. fold model. by rewrite Hins.
    + intros d e Hins. unfold AddUser. rewrite Hacc. fold model. rewrite Hins.
      by destruct (IsDuplicateKeyError _ _).
    + intros Hparse. unfold toMemoryUser. simpl. rewrite Hparse.
      split; [done|]. destruct user as [acc em lv]. simpl in *. subst acc.
      split.
      * by intros [= -> ->].
      * by intros [-> ->].
Qed.

(** X28: errors of [DelUser], [GetCount] and [Close] of the SQL store.
    Each fails exactly when the database statement fails; in particular
    deleting an alias that matches no row (zero rows affected) is a
    success.  A failing count is reported as zero, whatever number came
    with the error, and every error returned has the database error as
    base. *)
Theorem X28_SQL_statement_errors s :
  (∀ (email : string),
      (snd (DelUser email s) = None ↔
       snd (snd (DeleteByEmail (tableName s +:+ " AS vu") email (db s))) = None) ∧
      (∀ e, snd (snd (DeleteByEmail (tableName s +:+ " AS vu") email (db s))) = Some e →
            ∃ msg, snd (DelUser email s) = Some (Xray msg (Some e) SevError))) ∧
  ((snd (snd (GetCount s)) = None ↔
    snd (snd (Count (tableName s +:+ " AS vu") (db s))) = None) ∧
   (snd (snd (Count (tableName s +:+ " AS vu") (db s))) = None →
    fst (snd (GetCount s)) = fst (snd (Count (tableName s +:+ " AS vu") (db s)))) ∧
   (∀ e, snd (snd (Count (tableName s +:+ " AS vu") (db s))) = Some e →
         ∃ msg, snd (GetCount s) = (0, Some (Xray msg (Some e) SevError)))) ∧
  ((snd (Close s) = None ↔ snd (CloseDB (db s)) = None) ∧
   (∀ e, snd (CloseDB (db s)) = Some e →
         snd (Close s) = Some (Xray "failed to close database connection" (Some e) SevError))).
Proof.
  split_and!.
  - intros email. unfold DelUser.
    destruct (DeleteByEmail _ _ _) as [d [n [e|]]]; simpl.
    + split.
      * destruct (IsConnectionError _ _); simpl; split; done.
      * intros e' [= <-]. destruct (IsConnectionError _ _); by eexists.
    + split; [done|]. done.
  - unfold GetCount. destruct (Count _ _) as [d [n [e|]]]; simpl; [|done].
    destruct (IsConnectionError _ _); simpl; split; done.
  - unfold GetCount. destruct (Count _ _) as [d [n [e|]]]; simpl; done.
  - intros e. unfold GetCount. destruct (Count _ _) as [d [n [e'|]]]; simpl; [|done].
    intros [= <-]. destruct (IsConnectionError _ _); by eexists.
  - unfold Close. destruct (CloseDB _) as [d [e|]]; simpl; split; done.
  - intros e. unfold Close. destruct (CloseDB _) as [d [e'|]]; simpl; [|done].
    by intros [= <-].
Qed.

Lemma convert_ok (models : list sqlUserModel) : ∀ i,
  Forall (λ model, ∃ uuid, ParseString (ID model) = inl uuid) models →
  ∃ users, convert i models = inl users ∧
    length users = length models ∧
    Email <$> users = Email_ <$> models ∧
    Forall (λ u, ∃ uuid flow, Account_ u = VlessAccount uuid flow "none" ∧ Level u = 0) users.
Proof.
  induction models as [|model models IH]; intros i Hall.
  - exists []. by split_and!.
  - apply Forall_cons in Hall as [[uuid Hp] Hall].
    destruct (IH (Datatypes.S i) Hall) as (users & Hc & Hlen & Hem & Hacc).
    simpl. unfold toMemoryUser. rewrite Hp, Hc. eexists. split; [done|].
    split; [by simpl; rewrite Hlen|]. split; [by rewrite !fmap_cons, Hem|].
    apply Forall_cons. split; [by eexists _, _|done].
Qed.

Lemma convert_error (models : list sqlUserModel) : ∀ i (j : nat) (model : sqlUserModel) err,
  models !! j = Some model →
  ParseString (ID model) = inr err →
  (∀ (k : nat) (model' : sqlUserModel), (k < j)%nat → models !! k = Some model' →
        ∃ uuid, ParseString (ID model') = inl uuid) →
  convert i models =
    inr (Xray ("invalid user model data in position " +:+ pretty (i + j)%nat)
              (Some (Xray ("invalid UUID in database: " +:+ ID model) (Some err) SevError))
              SevError).
Proof.
  induction models as [|m0 models IH]; intros i j model err Hj Hp Hbefore; [done|].
  destruct j as [|j]; simpl in Hj.
  - injection Hj as ->. simpl. unfold toMemoryUser. rewrite Hp.
    by rewrite Nat.add_0_r.
  - destruct (Hbefore 0%nat m0) as [uuid Hu]; [lia|done|].
    simpl. unfold toMemoryUser at 1. rewrite Hu.
    rewrite (IH (Datatypes.S i) j model err Hj Hp).
    + by replace (Datatypes.S i + j)%nat with (i + Datatypes.S j)%nat by lia.
    + intros k model' Hk Hm. apply (Hbefore (Datatypes.S k) model'); [lia|done].
Qed.

(** X29: [SQLStorage.GetUsers] converts a page all or nothing.  When the
    identifier of every row of the page parses, the result is a non-nil
    slice with one record per row, in order, each with a VLESS account
    with encryption "none" and level zero (an empty page gives an empty,
    non-nil slice).  When some identifier does not parse, the result is a
    nil slice and an error that names the position of the first such row
    and has the error of that row as base. *)
Theorem X29_SQL_GetUsers_all_or_nothing s (offset limit : Z) d (models : list sqlUserModel) :
  SelectPage (tableName s +:+ " AS vu") offset limit (db s) = (d, (models, None)) →
  (Forall (λ model, ∃ uuid, ParseString (ID model) = inl uuid) models →
   ∃ users, GetUsers offset limit s = (with_db s d, (Some users, None)) ∧
     length users = length models ∧
     Email <$> users = Email_ <$> models ∧
     Forall (λ u, ∃ uuid flow, Account_ u = VlessAccount uuid flow "none" ∧ Level u = 0)
            users) ∧
  (∀ (j : nat) (model : sqlUserModel) err,
      models !! j = Some model →
      ParseString (ID model) = inr err →
      (∀ (k : nat) (model' : sqlUserModel), (k < j)%nat → models !! k = Some model' →
            ∃ uuid, ParseString (ID model') = inl uuid) →
      GetUsers offset limit s =
        (with_db s d,
         (None,
          Some (Xray ("invalid user model data in position " +:+ pretty j)
                     (Some (Xray ("invalid UUID in database: " +:+ ID model)
                                 (Some err) SevError))
                     SevError)))).
Proof.
  intros Hsel. split.
  - intros Hall. destruct (convert_ok models 0 Hall) as (users & Hc & Hrest).
    exists users. split; [|done]. unfold GetUsers. by rewrite Hsel, Hc.
  - intros j model err Hj Hp Hbefore. unfold GetUsers. rewrite Hsel.
    by rewrite (convert_error models 0 j model err Hj Hp Hbefore).
Qed.

(** X30: [NewSQLStorage].  A store is built exactly when the type is
    "postgres" or "mysql" and the driver of that type connects; the store
    then holds the handle the driver returned, the table of the settings
    and the driver of the type.  Any other type is refused with an error
    without a base error; a failed connection is reported with the error
    of the driver as base and a message that names the driver; every error
    has severity error. *)
Theorem X30_NewSQLStorage `{Connector D} (type dsn table : string) (pool : Z) :
  (∀ s, NewSQLStorage type dsn table pool = inl s ↔
        ∃ drv, (type = "postgres" ∧ drv = PostgresDriver ∨
                type = "mysql" ∧ drv = MySQLDriver) ∧
               ∃ d, Connect drv dsn pool = inl d ∧
                    s = {| db := d; tableName := table; adapter := drv |}) ∧
  (type ≠ "postgres" → type ≠ "mysql" →
   NewSQLStorage type dsn table pool
   = inr (Xray ("unsupported SQL driver: " +:+ type) None SevError)) ∧
  (∀ e, NewSQLStorage type dsn table pool = inr e →
        ∃ msg base, e = Xray msg base SevError ∧
          (base = None ↔ type ≠ "postgres" ∧ type ≠ "mysql") ∧
          (∀ err, base = Some err →
             ∃ drv, Connect drv dsn pool = inr err ∧
                    msg = "failed to connect to " +:+ GetType drv +:+ " database")).
Proof.
  unfold NewSQLStorage. split_and!.
  - intros s. destruct (decide (type = "postgres")) as [->|Hp].
    + destruct (Connect PostgresDriver dsn pool) as [d|err] eqn:Ec; split.
      * intros [= <-]. exists PostgresDriver. split; [by left|]. by exists d.
      * intros (drv & [[_ ->]|[? _]] & d' & Hd & ->); [|done]. congruence.
      * done.
      * intros (drv & [[_ ->]|[? _]] & d' & Hd & ->); [|done]. congruence.
    + destruct (decide (type = "mysql")) as [->|Hm].
      * destruct (Connect MySQLDriver dsn pool) as [d|err] eqn:Ec; split.
        -- intros [= <-]. exists MySQLDriver. split; [by right|]. by exists d.
        -- intros (drv & [[? _]|[_ ->]] & d' & Hd & ->); [done|]. congruence.
        -- done.
        -- intros (drv & [[? _]|[_ ->]] & d' & Hd & ->); [done|]. congruence.
      * split; [done|]. by intros (drv & [[? _]|[? _]] & _).
  - intros Hp Hm. by rewrite !decide_False.
  - intros e. destruct (decide (type = "postgres")) as [->|Hp].
    + destruct (Connect PostgresDriver dsn pool) as [d|err] eqn:Ec; [done|].
      intros [= <-]. eexists _, _. split_and!; [done| |].
      * split; [done|]. by intros [? _].
      * intros err' [= <-]. by exists PostgresDriver.
    + destruct (decide (type = "mysql")) as [->|Hm].
      * destruct (Connect MySQLDriver dsn pool) as [d|err] eqn:Ec; [done|].
        intros [= <-]. eexists _, _. split_and!; [done| |].
        -- split; [done|]. by intros [_ ?].
        -- intros err' [= <-]. by exists MySQLDriver.
      * intros [= <-]. eexists _, _. split_and!; [done| |done].
        by split.
Qed.

End sql_store.

(** ** The properties above at sample inputs *)
Section cache_instances.
Import CacheM.

(** The cache that holds the first sample record, set at time 0 with a
    time to live of 5. *)
Lemma one_entry_cache :
  let R := sample_user 1 in
  let c := Set_ "id-1" R 0 (NewCache 5 100) in
  let e := {| User_ := R; ExpiresAt := 5; lruNode := Some 0%nat |} in
  usersByID c !! "id-1" = Some e ∧
  usersByEmail c !! "user1@example.com" = Some e ∧
  lru_list (mem c) (lru c) [0%nat] ∧
  (∀ n, lruNode e = Some n → n ∈ [0%nat]).
Proof.
  intros R c e. split_and!; [by vm_compute|by vm_compute| |].
  - split_and!; [|apply NoDup_singleton|done|done].
    split; [|done]. by exists "id-1".
  - intros n [= <-]. apply list_elem_of_here.
Defined.

(** [X1_Delete_removes_entry] on the cache that holds the first sample
    record: deleting another identifier, deleting the record, and looking
    the record up after it expired. *)
Lemma X1_Delete_removes_entry_witness :
  let R := sample_user 1 in
  let c := Set_ "id-1" R 0 (NewCache 5 100) in
  let e := {| User_ := R; ExpiresAt := 5; lruNode := Some 0%nat |} in
  (usersByID c !! "id-2" = None ∧ Delete "id-2" c = c) ∧
  (usersByID c !! "id-1" = Some e ∧ lru_list (mem c) (lru c) [0%nat] ∧
   usersByID (Delete "id-1" c) = delete "id-1" (usersByID c) ∧
   lru_list (mem (Delete "id-1" c)) (lru (Delete "id-1" c)) [] ∧
   Get "id-1" 1 (Delete "id-1" c) = (Delete "id-1" c, None) ∧
   GetByEmail "user1@example.com" 1 (Delete "id-1" c) = (Delete "id-1" c, None)) ∧
  (ExpiresAt e < 6 ∧ fst (Get "id-1" 6 c) = Delete "id-1" c).
Proof.
  intros R c e. destruct one_entry_cache as (Hid & _ & Hl & Hin).
  assert (Hno : usersByID c !! "id-2" = None) by (by vm_compute).
  assert (Hexp : ExpiresAt e < 6) by (simpl; lia).
  destruct (X1_Delete_removes_entry c "id-2" e [0%nat]) as (H1 & _ & _).
  destruct (X1_Delete_removes_entry c "id-1" e [0%nat]) as (_ & H2 & H3).
  destruct (H2 Hid Hl Hin) as (HI & _ & Hn & Hmiss).
  destruct (Hmiss 1) as [HG HE].
  split_and!;
    [exact Hno|exact (H1 Hno)|exact Hid|exact Hl|exact HI|exact (Hn 0%nat eq_refl)
    |exact HG|exact HE|exact Hexp|exact (H3 6 Hid Hexp)].
Defined.

(** [X2_Delete_refines] after the run of the capacity test with a read of
    the first record: the third record is deleted. *)
Lemma X2_Delete_refines_witness :
  let ops := [OpSet "id-1" (sample_user 1) 0; OpSet "id-2" (sample_user 2) 1;
              OpGet "id-1" 2; OpSet "id-3" (sample_user 3) 3] in
  let c := Delete "id-3" (run ops (NewCache 5 2)) in
  2 < 2 ^ 31 ∧ fresh_sets 2 5 ops [] ∧
  recency c = ["id-1"] ∧
  size (usersByID c) = 1%nat ∧
  usersByID c !! "id-3" = None.
Proof.
  intros ops c.
  assert (Hn : 2 < 2 ^ 31) by lia.
  assert (Hfresh : fresh_sets 2 5 ops []).
  { simpl. split_and!; try done; compute_done. }
  destruct (X2_Delete_refines 2 5 ops "id-3" Hn Hfresh) as (Hrec & _ & Hsize & Hnone).
  split_and!; [exact Hn|exact Hfresh| | |exact Hnone].
  - etransitivity; [exact Hrec|]. by vm_compute.
  - etransitivity; [exact Hsize|]. by vm_compute.
Defined.

(** [X3_DeleteByEmail_removes_entry] on the cache that holds the first
    sample record. *)
Lemma X3_DeleteByEmail_removes_entry_witness :
  let R := sample_user 1 in
  let c := Set_ "id-1" R 0 (NewCache 5 100) in
  let e := {| User_ := R; ExpiresAt := 5; lruNode := Some 0%nat |} in
  let c' := DeleteByEmail "user1@example.com" c in
  (usersByEmail c !! "nobody@example.com" = None ∧
   DeleteByEmail "nobody@example.com" c = c) ∧
  usersByEmail c !! "user1@example.com" = Some e ∧
  vless_id (Account_ (User_ e)) = Some "id-1" ∧
  usersByID c !! "id-1" = Some e ∧
  Email (User_ e) = "user1@example.com" ∧
  usersByID c' = delete "id-1" (usersByID c) ∧
  Get "id-1" 1 c' = (c', None) ∧
  GetByEmail "user1@example.com" 1 c' = (c', None) ∧
  c' = Delete "id-1" c.
Proof.
  intros R c e c'. destruct one_entry_cache as (Hid & Hem & _ & _).
  assert (Hno : usersByEmail c !! "nobody@example.com" = None) by (by vm_compute).
  assert (Hv : vless_id (Account_ (User_ e)) = Some "id-1") by done.
  assert (Hal : Email (User_ e) = "user1@example.com") by done.
  destruct (X3_DeleteByEmail_removes_entry c "nobody@example.com" e "id-1") as (H1 & _).
  destruct (X3_DeleteByEmail_removes_entry c "user1@example.com" e "id-1") as (_ & H2).
  destruct (H2 Hem Hv) as (_ & HI & Hmiss & Hsame).
  destruct (Hmiss 1) as [HE HG].
  split_and!;
    [exact Hno|exact (H1 Hno)|exact Hem|exact Hv|exact Hid|exact Hal|exact HI
    |exact HG|exact HE|exact (Hsame Hid Hal)].
Defined.

(** [X4_DeleteByEmail_fallback] on a cache that holds one record without
    a VLESS account: the scan finds it and the cache is left empty. *)
Lemma X4_DeleteByEmail_fallback_witness :
  let other := mkUser (OtherAccount "vmess") "x@example.com" 0 in
  let c := Set_ "k" other 0 (NewCache 5 100) in
  let e := {| User_ := other; ExpiresAt := 5; lruNode := Some 0%nat |} in
  usersByEmail c !! "x@example.com" = Some e ∧
  vless_id (Account_ (User_ e)) = None ∧
  usersByEmail (DeleteByEmail "x@example.com" c) = delete "x@example.com" (usersByEmail c) ∧
  size (usersByID (DeleteByEmail "x@example.com" c)) = 0%nat.
Proof.
  intros other c e.
  assert (Hem : usersByEmail c !! "x@example.com" = Some e) by (by vm_compute).
  assert (Hid : usersByID c !! "k" = Some e) by (by vm_compute).
  assert (Hv : vless_id (Account_ (User_ e)) = None) by done.
  destruct (X4_DeleteByEmail_fallback c "x@example.com" e Hem Hv) as (HE & Hscan).
  split_and!; [exact Hem|exact Hv|exact HE|].
  destruct Hscan as [(k & e' & _ & _ & _ & Hsize)|[Hnone _]].
  - etransitivity; [exact Hsize|]. by vm_compute.
  - by destruct (Hnone "k" e Hid).
Defined.


(** [X6_GetCount_GetAll] on the cache that holds the first sample record,
    before and after it expires. *)
Lemma X6_GetCount_GetAll_witness :
  let R := sample_user 1 in
  let c := Set_ "id-1" R 0 (NewCache 5 100) in
  3 ≤ 6 ∧ GetCount 6 c ≤ GetCount 3 c ∧
  GetCount 3 c = len (GetAll 3 c) ∧
  (GetAll 6 c = None ↔ GetCount 6 c = 0) ∧
  R ∈ elems (GetAll 3 c).
Proof.
  intros R c. destruct one_entry_cache as (Hid & _ & _ & _).
  destruct (X6_GetCount_GetAll c 3) as (Hlen & _ & _ & Hin & Hmono).
  destruct (X6_GetCount_GetAll c 6) as (_ & Hnil & _).
  assert (Hle : 3 ≤ 6) by lia.
  split_and!; [exact Hle|exact (Hmono 6 Hle)|exact Hlen|exact Hnil|].
  apply Hin. eexists "id-1", _. split; [exact Hid|]. split; [simpl; lia|done].
Defined.

(** [X7_GetByEmail_agrees_with_Get] right after the first sample record
    was set. *)
Lemma X7_GetByEmail_agrees_with_Get_witness :
  let R := sample_user 1 in
  let c := Set_ "id-1" R 0 (NewCache 5 100) in
  let e := {| User_ := R; ExpiresAt := 5; lruNode := Some 0%nat |} in
  usersByEmail c !! "user1@example.com" = Some e ∧
  usersByID c !! "id-1" = Some e ∧
  vless_id (Account_ (User_ e)) = Some "id-1" ∧
  Email (User_ e) = "user1@example.com" ∧
  LRU.GetNode "id-1" (lru c) = lruNode e ∧
  GetByEmail "user1@example.com" 3 c = Get "id-1" 3 c ∧
  GetByEmail (Email R) 9 c = Get "id-1" 9 c.
Proof.
  intros R c e. destruct one_entry_cache as (Hid & Hem & _ & _).
  assert (Hv : vless_id (Account_ (User_ e)) = Some "id-1") by done.
  assert (Hal : Email (User_ e) = "user1@example.com") by done.
  assert (Hnode : LRU.GetNode "id-1" (lru c) = lruNode e) by (by vm_compute).
  destruct X7_GetByEmail_agrees_with_Get as [H1 H2].
  split_and!;
    [exact Hem|exact Hid|exact Hv|exact Hal|exact Hnode
    |exact (H1 c "user1@example.com" "id-1" e 3 Hem Hid Hv Hal Hnode)
    |exact (H2 (NewCache 5 100) "id-1" R 0 9 Hv)].
Defined.

(** [X8_Set_keeps_previous_node] on a cache without a maximum size that
    holds the first sample record, when that record is set again. *)
Lemma X8_Set_keeps_previous_node_witness :
  let R := sample_user 1 in
  let c := Set_ "id-1" R 0 (NewCache 5 0) in
  let c' := Set_ "id-1" R 1 c in
  lru_list (mem c) (lru c) [0%nat] ∧ maxSize c ≤ 0 ∧
  is_Some (usersByID c !! "id-1") ∧
  lru_list (mem c') (lru c') [1%nat; 0%nat] ∧
  recency c' = ["id-1"; "id-1"] ∧
  size (usersByID c') = 1%nat.
Proof.
  intros R c c'.
  assert (Hl : lru_list (mem c) (lru c) [0%nat]).
  { split_and!; [|apply NoDup_singleton|done|done].
    split; [|done]. by exists "id-1". }
  assert (Hm : maxSize c ≤ 0) by (by vm_compute).
  assert (Hid : is_Some (usersByID c !! "id-1")) by (by eexists; vm_compute).
  destruct (X8_Set_keeps_previous_node c "id-1" R 1 [0%nat] Hl Hm) as (Hl' & Hrec & Hsame).
  destruct (Hsame Hid) as [Hsize _].
  split_and!; [exact Hl|exact Hm|exact Hid|exact Hl'| |].
  - etransitivity; [exact Hrec|]. by vm_compute.
  - etransitivity; [exact Hsize|]. by vm_compute.
Defined.

End cache_instances.

Section lru_instances.

(** The index after the keys "a" and "b" were added: the node of "b" in
    front of the node of "a". *)
Lemma two_node_list :
  let s0 := fst (LRU.Add "b" (fst (LRU.Add "a" ([], LRU.NewLRUManager)))) in
  lru_list (fst s0) (snd s0) [1%nat; 0%nat].
Proof.
  intros s0. split_and!; [|compute_done|reflexivity|reflexivity].
  split; [by exists "b"|]. split; [by exists "a"|exact I].
Defined.

(** [X9_lru_run_invariant] on a run that touches a key: the key "b" is
    still mapped, to a linked node that carries it. *)
Lemma X9_lru_run_invariant_witness :
  let s := lru_run [LAdd "a"; LAdd "b"; LTouch "a"] ([], LRU.NewLRUManager) in
  LRU.GetNode "b" (snd s) = Some 1%nat ∧
  1%nat ∈ LRU.linked s ∧
  LRU.get_key (fst s) 1%nat = Some "b" ∧
  NoDup (LRU.linked s).
Proof.
  intros s.
  assert (Hb : LRU.GetNode "b" (snd s) = Some 1%nat) by (vm_compute; reflexivity).
  destruct (X9_lru_run_invariant [LAdd "a"; LAdd "b"; LTouch "a"])
    as (_ & Hnd & _ & Hmap).
  destruct (Hmap "b" 1%nat Hb) as [Hin Hkey].
  split_and!; [exact Hb|exact Hin|exact Hkey|exact Hnd].
Defined.

(** [X10_lru_plain_run_agrees] on a run without touches that leaves the
    node of "c". *)
Lemma X10_lru_plain_run_agrees_witness :
  let ops := [LAdd "a"; LAdd "b"; LAdd "c"; LRemove "b"; LRemoveTail] in
  let s := lru_run ops ([], LRU.NewLRUManager) in
  lru_plain ops ([], LRU.NewLRUManager) ∧
  LRU.GetNode "c" (snd s) = Some 2%nat ∧
  LRU.GetNode "a" (snd s) = None ∧
  NoDup (LRU.linked_keys s) ∧
  length (LRU.linked_keys s) = length (LRU.linked s).
Proof.
  intros ops s.
  assert (Hplain : lru_plain ops ([], LRU.NewLRUManager)).
  { vm_compute. repeat split. }
  destruct (X10_lru_plain_run_agrees ops Hplain) as (Hag & Hnd & Hlen).
  split_and!; [exact Hplain| |vm_compute; reflexivity|exact Hnd|exact Hlen].
  apply Hag. split; [|vm_compute; reflexivity].
  assert (Hl : LRU.linked (lru_run ops ([], LRU.NewLRUManager)) = [2%nat])
    by (vm_compute; reflexivity).
  rewrite Hl. apply list_elem_of_here.
Defined.

(** [X11_Add_Remove_round_trip] on the index that holds the key "a", for
    the key "b". *)
Lemma X11_Add_Remove_round_trip_witness :
  let s0 := fst (LRU.Add "a" ([], LRU.NewLRUManager)) in
  lru_list (fst s0) (snd s0) [0%nat] ∧
  LRU.GetNode "b" (snd s0) = None ∧
  ∃ s1 n, LRU.Add "b" (fst s0, snd s0) = (s1, n) ∧
    LRU.linked s1 = [n; 0%nat] ∧
    LRU.linked (LRU.Remove (Some n) s1) = [0%nat] ∧
    LRU.nodeMap (snd (LRU.Remove (Some n) s1)) = LRU.nodeMap (snd s0).
Proof.
  intros s0.
  assert (Hl : lru_list (fst s0) (snd s0) [0%nat]).
  { split_and!; [|apply NoDup_singleton|reflexivity|reflexivity].
    split; [by exists "a"|exact I]. }
  assert (Hk : LRU.GetNode "b" (snd s0) = None) by (vm_compute; reflexivity).
  destruct (X11_Add_Remove_round_trip (fst s0) (snd s0) [0%nat] "b" Hl Hk)
    as (s1 & n & s2 & HA & _ & _ & Hlk & HR & _ & Hlk2 & _ & _ & Hmap).
  split_and!; [exact Hl|exact Hk|].
  exists s1, n. subst s2. split_and!; [exact HA|exact Hlk|exact Hlk2|exact Hmap].
Defined.

(** [X12_MoveToFront_order] on the index that holds "b" in front of "a":
    the node of "a" is moved to the front. *)
Lemma X12_MoveToFront_order_witness :
  let s0 := fst (LRU.Add "b" (fst (LRU.Add "a" ([], LRU.NewLRUManager)))) in
  let s := LRU.MoveToFront 0%nat (fst s0, snd s0) in
  lru_list (fst s0) (snd s0) [1%nat; 0%nat] ∧
  0%nat ∈ [1%nat; 0%nat] ∧
  LRU.linked s = [0%nat; 1%nat] ∧
  LRU.head (snd s) = Some 0%nat ∧
  LRU.MoveToFront 0%nat s = s.
Proof.
  intros s0 s. pose proof two_node_list as Hl.
  assert (Hin : 0%nat ∈ [1%nat; 0%nat]).
  { apply list_elem_of_further, list_elem_of_here. }
  destruct (X12_MoveToFront_order (fst s0) (snd s0) [1%nat; 0%nat] 0%nat Hl Hin)
    as (Hlk & _ & Hhd & Hidem).
  split_and!; [exact Hl|exact Hin| |exact Hhd|exact Hidem].
  etransitivity; [exact Hlk|]. vm_compute. reflexivity.
Defined.

(** [X13_RemoveTail_drops_last] on the index that holds "b" in front of
    "a": the node of "a" is dropped. *)
Lemma X13_RemoveTail_drops_last_witness :
  let s0 := fst (LRU.Add "b" (fst (LRU.Add "a" ([], LRU.NewLRUManager)))) in
  let s := LRU.RemoveTail (fst s0, snd s0) in
  lru_list (fst s0) (snd s0) [1%nat; 0%nat] ∧
  LRU.linked s = [1%nat] ∧
  lru_list (fst s) (snd s) [1%nat] ∧
  LRU.tail (snd s) = Some 1%nat.
Proof.
  intros s0 s. pose proof two_node_list as Hl.
  destruct (X13_RemoveTail_drops_last (fst s0) (snd s0) [1%nat; 0%nat] Hl)
    as (Hlk & Hl' & Htl & _).
  split_and!; [exact Hl|exact Hlk|exact Hl'|exact Htl].
Defined.

End lru_instances.

Section validator_instances.

(** [X14_Add_then_read_from_cache] on the empty mock store with a cache of
    300 seconds. *)
Lemma X14_Add_then_read_from_cache_witness :
  let v := Validator.NewValidator (sample_store 0)
             (Some (Validator.mkSettings 300 100)) in
  let c := CacheM.NewCache (300 * Validator.Second) 100 in
  let st := Mock.mkMock {[ "id-1" := sample_user 1 ]} in
  let v1 := fst (Validator.Add (sample_user 1) 0 v) in
  Validator.cache v = Some c ∧
  vless_id (Account_ (sample_user 1)) = Some (uuid_String "id-1") ∧
  Storage.AddUser (sample_user 1) (Validator.storage v) = (st, None) ∧
  1 ≤ 0 + CacheM.ttl c ∧
  Validator.storage v1 = st ∧
  Validator.Get "id-1" 1 2 v1 = (v1, Some (sample_user 1)) ∧
  Validator.GetByEmail (Email (sample_user 1)) 1 2 v1 = (v1, Some (sample_user 1)).
Proof.
  intros v c st v1.
  assert (Hc : Validator.cache v = Some c) by reflexivity.
  assert (Hv : vless_id (Account_ (sample_user 1)) = Some (uuid_String "id-1"))
    by reflexivity.
  assert (Hst : Storage.AddUser (sample_user 1) (Validator.storage v) = (st, None))
    by (vm_compute; reflexivity).
  assert (Hlive : 1 ≤ 0 + CacheM.ttl c) by (vm_compute; intros Hgt; discriminate Hgt).
  destruct (X14_Add_then_read_from_cache v (sample_user 1) "id-1" c st 0 1 2
              Hc Hv Hst Hlive) as (Hs & HG & HE).
  split_and!; [exact Hc|exact Hv|exact Hst|exact Hlive|exact Hs|exact HG|exact HE].
Defined.

(** [X15_Get_backfills] on the mock store that holds the sample record 0,
    with an empty cache. *)
Lemma X15_Get_backfills_witness :
  let c := CacheM.NewCache 300 100 in
  let v := {| Validator.storage := sample_store 1; Validator.cache := Some c |} in
  let c2 := CacheM.Set_ (uuid_String "id-0") (sample_user 0) 5
              (fst (CacheM.Get (uuid_String "id-0") 0 c)) in
  let v' := {| Validator.storage := sample_store 1; Validator.cache := Some c2 |} in
  snd (CacheM.Get (uuid_String "id-0") 0 c) = None ∧
  Storage.GetUserByID "id-0" (Validator.storage v)
    = (sample_store 1, (Some (sample_user 0), None)) ∧
  7 ≤ 5 + CacheM.ttl c ∧
  Validator.Get "id-0" 0 5 v = (v', Some (sample_user 0)) ∧
  CacheM.Get (uuid_String "id-0") 7 c2 = (c2, Some (sample_user 0)) ∧
  Validator.Get "id-0" 7 8 v' = (v', Some (sample_user 0)).
Proof.
  intros c v c2 v'.
  assert (Hc : Validator.cache v = Some c) by reflexivity.
  assert (Hmiss : snd (CacheM.Get (uuid_String "id-0") 0 c) = None) by reflexivity.
  assert (Hst : Storage.GetUserByID "id-0" (Validator.storage v)
                = (sample_store 1, (Some (sample_user 0), None)))
    by (vm_compute; reflexivity).
  assert (Hlive : 7 ≤ 5 + CacheM.ttl c) by (vm_compute; intros Hgt; discriminate Hgt).
  destruct (X15_Get_backfills v "id-0" c (sample_user 0) (sample_store 1) 0 5 7 8
              Hc Hmiss Hst Hlive) as (H1 & H2 & H3).
  split_and!; [exact Hmiss|exact Hst|exact Hlive|exact H1|exact H2|exact H3].
Defined.

(** [X16_GetByEmail_backfills] on the mock store that holds the sample
    record 0, and on a store that holds a record without a VLESS account. *)
Lemma X16_GetByEmail_backfills_witness :
  let other := mkUser (OtherAccount "vmess") "x@example.com" 0 in
  let c := CacheM.NewCache 300 100 in
  let v := {| Validator.storage := sample_store 1; Validator.cache := Some c |} in
  let so := Mock.mkMock {[ "k" := other ]} in
  let vo := {| Validator.storage := so; Validator.cache := Some c |} in
  let c2 := CacheM.Set_ "id-0" (sample_user 0) 5
              (fst (CacheM.GetByEmail "user0@example.com" 0 c)) in
  (snd (CacheM.GetByEmail "user0@example.com" 0 c) = None ∧
   Storage.GetUserByEmail "user0@example.com" (Validator.storage v)
     = (sample_store 1, (Some (sample_user 0), None)) ∧
   vless_id (Account_ (sample_user 0)) = Some "id-0" ∧
   7 ≤ 5 + CacheM.ttl c ∧
   Validator.GetByEmail "user0@example.com" 0 5 v =
     ({| Validator.storage := sample_store 1; Validator.cache := Some c2 |},
      Some (sample_user 0)) ∧
   CacheM.Get "id-0" 7 c2 = (c2, Some (sample_user 0))) ∧
  (snd (CacheM.GetByEmail "x@example.com" 0 c) = None ∧
   Storage.GetUserByEmail "x@example.com" (Validator.storage vo)
     = (so, (Some other, None)) ∧
   vless_id (Account_ other) = None ∧
   Validator.GetByEmail "x@example.com" 0 5 vo =
     ({| Validator.storage := so;
         Validator.cache := Some (fst (CacheM.GetByEmail "x@example.com" 0 c)) |},
      Some other)).
Proof.
  intros other c v so vo c2.
  assert (Hc : Validator.cache v = Some c) by reflexivity.
  assert (Hco : Validator.cache vo = Some c) by reflexivity.
  assert (Hm : snd (CacheM.GetByEmail "user0@example.com" 0 c) = None) by reflexivity.
  assert (Hmo : snd (CacheM.GetByEmail "x@example.com" 0 c) = None) by reflexivity.
  assert (Hst : Storage.GetUserByEmail "user0@example.com" (Validator.storage v)
                = (sample_store 1, (Some (sample_user 0), None)))
    by (vm_compute; reflexivity).
  assert (Hsto : Storage.GetUserByEmail "x@example.com" (Validator.storage vo)
                 = (so, (Some other, None)))
    by (vm_compute; reflexivity).
  assert (Hv : vless_id (Account_ (sample_user 0)) = Some "id-0") by reflexivity.
  assert (Hvo : vless_id (Account_ other) = None) by reflexivity.
  assert (Hlive : 7 ≤ 5 + CacheM.ttl c) by (vm_compute; intros Hgt; discriminate Hgt).
  destruct (X16_GetByEmail_backfills v "user0@example.com" c (sample_user 0)
              (sample_store 1) 0 5 Hc Hm Hst) as (_ & H2).
  destruct (H2 "id-0" 7 Hv Hlive) as (HG & HC & _).
  destruct (X16_GetByEmail_backfills vo "x@example.com" c other so 0 5 Hco Hmo Hsto)
    as (H1 & _).
  split; split_and!;
    [exact Hm|exact Hst|exact Hv|exact Hlive|exact HG|exact HC
    |exact Hmo|exact Hsto|exact Hvo|exact (H1 Hvo)].
Defined.

(** [X17_Del_invalidates] on a store whose delete fails and on the mock
    store that holds the sample records 0 and 1, with the record 1 cached. *)
Lemma X17_Del_invalidates_witness :
  let c := CacheM.Set_ "id-1" (sample_user 1) 0 (CacheM.NewCache 300 100) in
  let sf := Failing.mkFailing (QueryError "database delete error") in
  let vf := {| Validator.storage := sf; Validator.cache := Some c |} in
  let v := {| Validator.storage := sample_store 2; Validator.cache := Some c |} in
  let st := Mock.mkMock {[ "id-0" := sample_user 0 ]} in
  let c' := CacheM.DeleteByEmail "user1@example.com" c in
  Storage.DelUser "user1@example.com" (Validator.storage vf)
    = (sf, Some (QueryError "database delete error")) ∧
  Validator.Del "user1@example.com" vf =
    ({| Validator.storage := sf; Validator.cache := Validator.cache vf |},
     Some (QueryError "database delete error")) ∧
  Storage.DelUser "user1@example.com" (Validator.storage v) = (st, None) ∧
  Validator.Del "user1@example.com" v =
    ({| Validator.storage := st;
        Validator.cache := CacheM.DeleteByEmail "user1@example.com" <$> Validator.cache v |},
     None) ∧
  CacheM.GetByEmail "user1@example.com" 1 c' = (c', None).
Proof.
  intros c sf vf v st c'.
  assert (Hf : Storage.DelUser "user1@example.com" (Validator.storage vf)
               = (sf, Some (QueryError "database delete error"))) by reflexivity.
  assert (Hst : Storage.DelUser "user1@example.com" (Validator.storage v) = (st, None))
    by (vm_compute; reflexivity).
  destruct (X17_Del_invalidates vf "user1@example.com") as (H1 & _).
  destruct (X17_Del_invalidates v "user1@example.com") as (_ & H2).
  destruct (H2 st Hst) as (HD & Hgone).
  split_and!;
    [exact Hf|exact (H1 sf (QueryError "database delete error") Hf)|exact Hst|exact HD
    |exact (Hgone c 1 eq_refl)].
Defined.

(** [X18_cached_count_listing_close] on the mock store with the sample
    record 1 cached. *)
Lemma X18_cached_count_listing_close_witness :
  let c := CacheM.Set_ "id-1" (sample_user 1) 0 (CacheM.NewCache 300 100) in
  let v := {| Validator.storage := sample_store 1; Validator.cache := Some c |} in
  Validator.cache v = Some c ∧
  Validator.GetCount 3 v = (v, CacheM.GetCount 3 c) ∧
  CacheM.GetCount 3 c = 1 ∧
  Validator.GetAll 0 3 v = Some (v, CacheM.GetAll 3 c) ∧
  Storage.Close (Validator.storage v) = (sample_store 1, None) ∧
  Validator.Close v =
    ({| Validator.storage := sample_store 1;
        Validator.cache := Some (CacheM.Clear c) |}, None) ∧
  Validator.GetCount 3 (fst (Validator.Close v)) = (fst (Validator.Close v), 0).
Proof.
  intros c v.
  assert (Hc : Validator.cache v = Some c) by reflexivity.
  assert (Hcl : Storage.Close (Validator.storage v) = (sample_store 1, None))
    by reflexivity.
  destruct (X18_cached_count_listing_close v c 3 0%nat Hc) as (H1 & H2 & _ & H4).
  destruct (H4 (sample_store 1) None Hcl) as (H5 & H6).
  split_and!;
    [exact Hc|exact H1|vm_compute; reflexivity|exact H2|exact Hcl|exact H5|exact H6].
Defined.

(** [X19_validator_keeps_cache_settings] on the mock store, with and
    without a cache. *)
Lemma X19_validator_keeps_cache_settings_witness :
  let cfg := λ v0 : Validator.Validator Mock.MockUserStorage,
    (λ c, (CacheM.ttl c, CacheM.maxSize c)) <$> Validator.cache v0 in
  let v := Validator.NewValidator (sample_store 1)
             (Some (Validator.mkSettings 300 100)) in
  let v0 := Validator.NewValidator (sample_store 1) None in
  cfg v = Some (300 * Validator.Second, 100) ∧
  cfg (fst (Validator.Add (sample_user 5) 0 v)) = cfg v ∧
  cfg (fst (Validator.Close v)) = cfg v ∧
  Validator.GetAll 1 0 v0 = Some (v0, Some [sample_user 0]) ∧
  cfg v0 = None.
Proof.
  intros cfg v v0.
  assert (HG : Validator.GetAll 1 0 v0 = Some (v0, Some [sample_user 0]))
    by (vm_compute; reflexivity).
  destruct (X19_validator_keeps_cache_settings v)
    as (Hnew & Hadd & _ & _ & _ & _ & _ & Hclose).
  destruct (X19_validator_keeps_cache_settings v0)
    as (_ & _ & _ & _ & _ & _ & Hall & _).
  split_and!;
    [exact (Hnew (sample_store 1) (Some (Validator.mkSettings 300 100)))
    |exact (Hadd (sample_user 5) 0)|exact Hclose|exact HG
    |exact (Hall 1%nat 0 v0 (Some [sample_user 0]) HG)].
Defined.

(** [X20_GetAll_request_count] on the mock store that holds 101 records:
    one request is not enough, two are. *)
Lemma X20_GetAll_request_count_witness :
  let v := Validator.NewValidator (sample_store 101) None in
  let holds := λ m : Mock.MockUserStorage, snd <$> map_to_list (Mock.users m) in
  Validator.cache v = None ∧
  Z.of_nat (length (holds (Validator.storage v))) < 2 ^ 62 ∧
  length (holds (Validator.storage v)) = 101%nat ∧
  Validator.GetAll 1 0 v = None ∧
  Validator.GetAll 2 0 v ≠ None.
Proof.
  intros v holds.
  assert (Hc : Validator.cache v = None) by reflexivity.
  assert (Hlen : length (holds (Validator.storage v)) = 101%nat)
    by (vm_compute; reflexivity).
  assert (Hsmall : Z.of_nat (length (holds (Validator.storage v))) < 2 ^ 62)
    by (rewrite Hlen; vm_compute; reflexivity).
  destruct (X20_GetAll_request_count v 0 holds Hc Mock_paging Hsmall) as (Hfuel & _).
  split_and!; [exact Hc|exact Hsmall|exact Hlen| |].
  - apply (Hfuel 1%nat). rewrite Hlen. lia.
  - intros Hnone. apply (Hfuel 2%nat) in Hnone. rewrite Hlen in Hnone. lia.
Defined.

End validator_instances.

Section count_instances.
Import CacheM.

(** [X21_GetCount_refines] after the run of the capacity test with a read
    of the first record, at a time when that record has expired. *)
Lemma X21_GetCount_refines_witness :
  let ops := [OpSet "id-1" (sample_user 1) 0; OpSet "id-2" (sample_user 2) 1;
              OpGet "id-1" 2; OpSet "id-3" (sample_user 3) 3] in
  let c := run ops (NewCache 5 2) in
  2 < 2 ^ 31 ∧ fresh_sets 2 5 ops [] ∧
  GetCount 7 c = 1 ∧
  Z.of_nat (size (usersByID c)) - GetCount 7 c = 1.
Proof.
  intros ops c.
  assert (Hfresh : fresh_sets 2 5 ops []).
  { simpl. split_and!; try done; compute_done. }
  assert (Hn : 2 < 2 ^ 31) by lia.
  destruct (X21_GetCount_refines 2 5 ops 7 Hn Hfresh) as (H1 & H2).
  split_and!; [exact Hn|exact Hfresh| |].
  - etransitivity; [exact H1|]. vm_compute. reflexivity.
  - etransitivity; [exact H2|]. vm_compute. reflexivity.
Defined.

End count_instances.

Section mock_instances.

(** [X22_Mock_AddUser_GetUserByID] on the mock store that holds the sample
    record 0. *)
Lemma X22_Mock_AddUser_GetUserByID_witness :
  let other := mkUser (OtherAccount "vmess") "x@example.com" 0 in
  let m := sample_store 1 in
  let m' := fst (Mock.AddUser (sample_user 1) m) in
  vless_id (Account_ (sample_user 1)) = Some (uuid_String "id-1") ∧
  uuid_String "id-0" ≠ uuid_String "id-1" ∧
  snd (Mock.AddUser (sample_user 1) m) = None ∧
  Mock.GetUserByID "id-1" m' = (m', (Some (sample_user 1), None)) ∧
  snd (Mock.GetUserByID "id-0" m') = snd (Mock.GetUserByID "id-0" m) ∧
  fst (snd (Mock.GetCount m')) = 2 ∧
  vless_id (Account_ other) = None ∧
  Mock.AddUser other m = (m, None).
Proof.
  intros other m m'.
  assert (Hv : vless_id (Account_ (sample_user 1)) = Some (uuid_String "id-1"))
    by reflexivity.
  assert (Hne : uuid_String "id-0" ≠ uuid_String "id-1").
  { intros Heq. discriminate Heq. }
  assert (Hvo : vless_id (Account_ other) = None) by reflexivity.
  destruct (X22_Mock_AddUser_GetUserByID m (sample_user 1)) as (H1 & _).
  destruct (X22_Mock_AddUser_GetUserByID m other) as (_ & H2).
  destruct (H1 "id-1" Hv) as (Hok & Hget & Hkeep & Hcount).
  split_and!;
    [exact Hv|exact Hne|exact Hok|exact Hget|exact (Hkeep "id-0" Hne)| |exact Hvo
    |exact (H2 Hvo)].
  etransitivity; [exact Hcount|]. vm_compute. reflexivity.
Defined.

(** [X24_Mock_GetUsers_GetAll] on the mock store that holds three
    records. *)
Lemma X24_Mock_GetUsers_GetAll_witness :
  let m := sample_store 3 in
  let v := Validator.NewValidator m None in
  (size (Mock.users m) < 100)%nat ∧
  (∃ r, Validator.GetAll 1 0 v = Some (v, r) ∧ len r = 3) ∧
  0 ≤ 0 ∧
  (∃ r, Mock.GetUsers 0 0 m = (m, (r, None)) ∧ r = None).
Proof.
  intros m v.
  assert (Hs : size (Mock.users m) = 3%nat) by (vm_compute; reflexivity).
  assert (Hsize : (size (Mock.users m) < 100)%nat) by (rewrite Hs; lia).
  assert (Hz : 0 ≤ 0) by lia.
  destruct (X24_Mock_GetUsers_GetAll m 0) as [Hpage Hall].
  destruct (Hall Hsize) as (r & HG & _ & Hlen).
  destruct (Hpage 0 0) as (r0 & HG0 & _ & Hnil & _).
  split_and!; [exact Hsize| |exact Hz|].
  - exists r. split; [exact HG|]. etransitivity; [exact Hlen|].
    vm_compute. reflexivity.
  - exists r0. split; [exact HG0|exact (Hnil Hz)].
Defined.

End mock_instances.

Section sql_instances.
Import SQL.
#[local] Existing Instance sample_parser.
#[local] Existing Instance sample_connector.

(** [X25_driver_classification] on a PostgreSQL connection failure. *)
Lemma X25_driver_classification_witness :
  IsConnectionError PostgresDriver (PqError "08006") = true ∧
  IsDuplicateKeyError PostgresDriver (PqError "08006") = false ∧
  IsConnectionError MySQLDriver (PqError "08006") = false.
Proof.
  assert (Hc : IsConnectionError PostgresDriver (PqError "08006") = true)
    by (vm_compute; reflexivity).
  destruct (X25_driver_classification PostgresDriver (PqError "08006"))
    as (H1 & _ & H3).
  destruct (H3 "08006" 0) as (_ & _ & H4 & _).
  split_and!; [exact Hc|exact (H1 Hc)|exact H4].
Defined.

(** [X26_SQL_lookups_shape] on a database that finds no row, and on one
    that answers with the row of the sample record 1. *)
Lemma X26_SQL_lookups_shape_witness :
  let dn := mkCanned (mkRow "" "" "") [] 0 (Some ErrNoRows) in
  let dok := mkCanned (mkRow "id-1" "user1@example.com" "") [] 1 None in
  let sn := {| db := dn; tableName := "vless_users"; adapter := PostgresDriver |} in
  let sok := {| db := dok; tableName := "vless_users"; adapter := PostgresDriver |} in
  SelectByID (tableName sn +:+ " AS vu") (uuid_String "id-1") (db sn)
    = (dn, (mkRow "" "" "", Some ErrNoRows)) ∧
  GetUserByID "id-1" sn =
    (with_db sn dn,
     (None, Some (Xray ("user not found with ID: " +:+ uuid_String "id-1") None SevDebug))) ∧
  SelectByEmail (tableName sn +:+ " AS vu") "a@example.com" (db sn)
    = (dn, (mkRow "" "" "", Some ErrNoRows)) ∧
  GetUserByEmail "a@example.com" sn =
    (with_db sn dn,
     (None, Some (Xray ("user not found with email: " +:+ "a@example.com") None SevDebug))) ∧
  snd (GetUserByID "id-1" sok) = (Some (sample_user 1), None) ∧
  well_shaped (snd (GetUserByID "id-1" sok)).
Proof.
  intros dn dok sn sok.
  assert (H1 : SelectByID (tableName sn +:+ " AS vu") (uuid_String "id-1") (db sn)
               = (dn, (mkRow "" "" "", Some ErrNoRows))) by reflexivity.
  assert (H2 : SelectByEmail (tableName sn +:+ " AS vu") "a@example.com" (db sn)
               = (dn, (mkRow "" "" "", Some ErrNoRows))) by reflexivity.
  destruct (X26_SQL_lookups_shape sn) as (_ & _ & Hid & Hem).
  destruct (X26_SQL_lookups_shape sok) as (Hshape & _).
  split_and!;
    [exact H1|exact (Hid "id-1" dn _ H1)|exact H2|exact (Hem "a@example.com" dn _ H2)
    |vm_compute; reflexivity|exact (Hshape "id-1")].
Defined.

(** [X27_SQL_AddUser] on a database that accepts the row, on one that
    reports a duplicate key, and for a record without a VLESS account. *)
Lemma X27_SQL_AddUser_witness :
  let other := mkUser (OtherAccount "vmess") "x@example.com" 0 in
  let dok := mkCanned (mkRow "" "" "") [] 1 None in
  let ddup := mkCanned (mkRow "" "" "") [] 0 (Some (PqError "23505")) in
  let sok := {| db := dok; tableName := "vless_users"; adapter := PostgresDriver |} in
  let sdup := {| db := ddup; tableName := "vless_users"; adapter := PostgresDriver |} in
  let model := {| ID := uuid_String "id-1"; Email_ := Email (sample_user 1); Flow := "" |} in
  (vless_id (Account_ other) = None ∧
   AddUser other sok = (sok, Some (Xray "not a VLESS user" None SevError))) ∧
  Account_ (sample_user 1) = VlessAccount "id-1" "" "none" ∧
  (Insert (tableName sok +:+ " AS vu") model (db sok) = (dok, None) ∧
   AddUser (sample_user 1) sok = (with_db sok dok, None)) ∧
  (Insert (tableName sdup +:+ " AS vu") model (db sdup) = (ddup, Some (PqError "23505")) ∧
   AddUser (sample_user 1) sdup =
     (with_db sdup ddup,
      Some (Xray "user already exists" (Some (PqError "23505")) SevWarning))) ∧
  (ParseString (uuid_String "id-1") = inl "id-1" ∧
   toMemoryUser model = inl (sample_user 1)).
Proof.
  intros other dok ddup sok sdup model.
  assert (Hvo : vless_id (Account_ other) = None) by reflexivity.
  assert (Hacc : Account_ (sample_user 1) = VlessAccount "id-1" "" "none") by reflexivity.
  assert (Hins : Insert (tableName sok +:+ " AS vu") model (db sok) = (dok, None))
    by reflexivity.
  assert (Hdup : Insert (tableName sdup +:+ " AS vu") model (db sdup)
                 = (ddup, Some (PqError "23505"))) by reflexivity.
  assert (Hparse : ParseString (uuid_String "id-1") = inl "id-1")
    by (vm_compute; reflexivity).
  destruct (X27_SQL_AddUser sok other) as (H1 & _).
  destruct (X27_SQL_AddUser sok (sample_user 1)) as (_ & H2).
  destruct (X27_SQL_AddUser sdup (sample_user 1)) as (_ & H3).
  destruct (H2 "id-1" "" "none" Hacc) as (Hok & _ & Hround).
  destruct (H3 "id-1" "" "none" Hacc) as (_ & Hfail & _).
  destruct (Hround Hparse) as (_ & Hback).
  split_and!;
    [exact Hvo|exact (H1 Hvo)|exact Hacc|exact Hins|exact (Hok dok Hins)|exact Hdup
    | |exact Hparse|exact (proj2 Hback (conj eq_refl eq_refl))].
  etransitivity; [exact (Hfail ddup (PqError "23505") Hdup)|].
  vm_compute. reflexivity.
Defined.

(** [X28_SQL_statement_errors] on a database whose connection is lost, and
    on one that deletes no row. *)
Lemma X28_SQL_statement_errors_witness :
  let lost := PqError "08006" in
  let dfail := mkCanned (mkRow "" "" "") [] 7 (Some lost) in
  let dzero := mkCanned (mkRow "" "" "") [] 0 None in
  let sfail := {| db := dfail; tableName := "vless_users"; adapter := PostgresDriver |} in
  let szero := {| db := dzero; tableName := "vless_users"; adapter := PostgresDriver |} in
  (snd (snd (DeleteByEmail (tableName sfail +:+ " AS vu") "a@example.com" (db sfail)))
     = Some lost ∧
   ∃ msg, snd (DelUser "a@example.com" sfail) = Some (Xray msg (Some lost) SevError)) ∧
  (snd (snd (Count (tableName sfail +:+ " AS vu") (db sfail))) = Some lost ∧
   ∃ msg, snd (GetCount sfail) = (0, Some (Xray msg (Some lost) SevError))) ∧
  (snd (CloseDB (db sfail)) = Some lost ∧
   snd (Close sfail)
   = Some (Xray "failed to close database connection" (Some lost) SevError)) ∧
  (snd (snd (DeleteByEmail (tableName szero +:+ " AS vu") "a@example.com" (db szero)))
     = None ∧
   snd (DelUser "a@example.com" szero) = None).
Proof.
  intros lost dfail dzero sfail szero.
  assert (Hd : snd (snd (DeleteByEmail (tableName sfail +:+ " AS vu") "a@example.com"
                           (db sfail))) = Some lost) by reflexivity.
  assert (Hn : snd (snd (Count (tableName sfail +:+ " AS vu") (db sfail))) = Some lost)
    by reflexivity.
  assert (Hc : snd (CloseDB (db sfail)) = Some lost) by reflexivity.
  assert (Hz : snd (snd (DeleteByEmail (tableName szero +:+ " AS vu") "a@example.com"
                           (db szero))) = None) by reflexivity.
  destruct (X28_SQL_statement_errors sfail) as (Hdel & (_ & _ & Hcount) & (_ & Hclose)).
  destruct (X28_SQL_statement_errors szero) as (Hdel0 & _).
  destruct (Hdel "a@example.com") as (_ & Hdel1).
  destruct (Hdel0 "a@example.com") as (Hiff & _).
  split_and!;
    [exact Hd|exact (Hdel1 lost Hd)|exact Hn|exact (Hcount lost Hn)|exact Hc
    |exact (Hclose lost Hc)|exact Hz|exact (proj2 Hiff Hz)].
Defined.

(** [X29_SQL_GetUsers_all_or_nothing] on a page of two rows that parse,
    and on a page whose second row does not. *)
Lemma X29_SQL_GetUsers_all_or_nothing_witness :
  let good := [mkRow "id-1" "user1@example.com" ""; mkRow "id-2" "user2@example.com" ""] in
  let bad := [mkRow "id-1" "user1@example.com" ""; mkRow "oops" "user2@example.com" ""] in
  let dgood := mkCanned (mkRow "" "" "") good 2 None in
  let dbad := mkCanned (mkRow "" "" "") bad 2 None in
  let sgood := {| db := dgood; tableName := "vless_users"; adapter := MySQLDriver |} in
  let sbad := {| db := dbad; tableName := "vless_users"; adapter := MySQLDriver |} in
  (SelectPage (tableName sgood +:+ " AS vu") 0 100 (db sgood) = (dgood, (good, None)) ∧
   Forall (λ model, ∃ uuid, ParseString (ID model) = inl uuid) good ∧
   ∃ users, GetUsers 0 100 sgood = (with_db sgood dgood, (Some users, None)) ∧
     length users = 2%nat ∧
     Email <$> users = ["user1@example.com"; "user2@example.com"]) ∧
  (SelectPage (tableName sbad +:+ " AS vu") 0 100 (db sbad) = (dbad, (bad, None)) ∧
   bad !! 1%nat = Some (mkRow "oops" "user2@example.com" "") ∧
   ParseString "oops" = inr (OtherError "invalid UUID") ∧
   GetUsers 0 100 sbad =
     (with_db sbad dbad,
      (None,
       Some (Xray ("invalid user model data in position " +:+ pretty 1%nat)
                  (Some (Xray ("invalid UUID in database: " +:+ "oops")
                              (Some (OtherError "invalid UUID")) SevError))
                  SevError)))).
Proof.
  intros good bad dgood dbad sgood sbad.
  assert (Hsel : SelectPage (tableName sgood +:+ " AS vu") 0 100 (db sgood)
                 = (dgood, (good, None))) by reflexivity.
  assert (Hselb : SelectPage (tableName sbad +:+ " AS vu") 0 100 (db sbad)
                  = (dbad, (bad, None))) by reflexivity.
  assert (Hall : Forall (λ model, ∃ uuid, ParseString (ID model) = inl uuid) good).
  { apply Forall_cons. split; [exists "id-1"; reflexivity|].
    apply Forall_cons. split; [exists "id-2"; reflexivity|]. apply Forall_nil_2. }
  assert (Hj : bad !! 1%nat = Some (mkRow "oops" "user2@example.com" "")) by reflexivity.
  assert (Hp : ParseString "oops" = inr (OtherError "invalid UUID"))
    by (vm_compute; reflexivity).
  assert (Hbefore : ∀ (k : nat) (model' : sqlUserModel), (k < 1)%nat →
            bad !! k = Some model' → ∃ uuid, ParseString (ID model') = inl uuid).
  { intros k model' Hk Hm. destruct k as [|k]; [|lia].
    injection Hm as <-. exists "id-1". reflexivity. }
  destruct (X29_SQL_GetUsers_all_or_nothing sgood 0 100 dgood good Hsel) as (Hok & _).
  destruct (X29_SQL_GetUsers_all_or_nothing sbad 0 100 dbad bad Hselb) as (_ & Hfail).
  destruct (Hok Hall) as (users & HG & Hlen & Hem & _).
  split; split_and!;
    [exact Hsel|exact Hall| |exact Hselb|exact Hj|exact Hp
    |exact (Hfail 1%nat (mkRow "oops" "user2@example.com" "")
              (OtherError "invalid UUID") Hj Hp Hbefore)].
  exists users. split_and!; [exact HG|exact Hlen|exact Hem].
Defined.

(** [X30_NewSQLStorage] with a connector that reaches a database only
    under the data source name "ok". *)
Lemma X30_NewSQLStorage_witness :
  let d0 := mkCanned (mkRow "" "" "") [] 0 None in
  (Connect PostgresDriver "ok" 10 = inl d0 ∧
   NewSQLStorage "postgres" "ok" "vless_users" 10
   = inl {| db := d0; tableName := "vless_users"; adapter := PostgresDriver |}) ∧
  ("sqlite" ≠ "postgres" ∧ "sqlite" ≠ "mysql" ∧
   NewSQLStorage (D:=Canned) "sqlite" "ok" "vless_users" 10
   = inr (Xray ("unsupported SQL driver: " +:+ "sqlite") None SevError)) ∧
  (NewSQLStorage (D:=Canned) "mysql" "down" "vless_users" 10
   = inr (Xray "failed to connect to MySQL database"
               (Some (OtherError "connection refused")) SevError) ∧
   ∃ drv, Connect (D:=Canned) drv "down" 10 = inr (OtherError "connection refused") ∧
          "failed to connect to MySQL database"
          = "failed to connect to " +:+ GetType drv +:+ " database").
Proof.
  intros d0.
  assert (Hconn : Connect PostgresDriver "ok" 10 = inl d0) by (vm_compute; reflexivity).
  assert (Hp : "sqlite" ≠ "postgres") by (intros Heq; discriminate Heq).
  assert (Hm : "sqlite" ≠ "mysql") by (intros Heq; discriminate Heq).
  assert (Hdown : NewSQLStorage (D:=Canned) "mysql" "down" "vless_users" 10
                  = inr (Xray "failed to connect to MySQL database"
                              (Some (OtherError "connection refused")) SevError))
    by (vm_compute; reflexivity).
  destruct (X30_NewSQLStorage (D:=Canned) "postgres" "ok" "vless_users" 10) as (Hok & _).
  destruct (X30_NewSQLStorage (D:=Canned) "sqlite" "ok" "vless_users" 10) as (_ & Hno & _).
  destruct (X30_NewSQLStorage (D:=Canned) "mysql" "down" "vless_users" 10) as (_ & _ & Herr).
  destruct (Herr _ Hdown) as (msg & base & Heq & _ & Hbase).
  injection Heq as <- <-.
  split_and!; [exact Hconn| |exact Hp|exact Hm|exact (Hno Hp Hm)|exact Hdown
              |exact (Hbase _ eq_refl)].
  apply Hok. exists PostgresDriver. split; [left; split; reflexivity|].
  exists d0. split; [exact Hconn|reflexivity].
Defined.

End sql_instances.
